(** * Region outlining and contour tracing of qr-code-styling

    A shallow embedding of [src/core/PathDrawer.ts], [src/tools/path.utils.ts]
    and the outlining part of [src/core/QRSVGBuilder.ts]
    ([buildConnectedComponents], [renderComponentToPath],
    [determineNextDirection], [drawComponents], [expandDotsMaskWithCircle]),
    followed by the properties of the specification proved about it.

    Conventions.
    - JavaScript numbers that carry sizes and offsets are rationals ([Q]);
      the conversion of a number inside a template literal is the section
      variable [str].  Component ids, rows and columns are naturals where the
      code uses them as array indices and integers ([Z]) where it computes
      with them before indexing (the contour walk).  A number that the
      builder computes from the options before the functions embedded here
      use it (the offset of a layer, the padding of the circle shape) is a
      parameter of the embedding.
    - [boolean[][]] and [(number | null)[][]] are lists of rows; [null] is
      [None].
    - A JavaScript [Map] is an association list in insertion order; the
      [Set]s that [buildConnectedComponents] shares between several keys of
      [equivalences] live in an explicit store and the map holds their
      addresses. *)

From Stdlib Require Import QArith Qround.
From stdpp Require Import base option list strings gmap pretty relations.

Open Scope string_scope.
Open Scope list_scope.

(** ** Directions *)

Inductive Directions := Top | Right | Bottom | Left.

#[global] Instance Directions_eq_dec : EqDecision Directions.
Proof. solve_decision. Defined.

(** ** path.utils *)

Module PathUtils.
Section PathUtils.
Variable str : Q -> string.

Definition down (size : Q) : string := "v " +:+ str size.
Definition right (size : Q) : string := "h " +:+ str size.
Definition up (size : Q) : string := "v -" +:+ str size.
Definition left (size : Q) : string := "h -" +:+ str size.

Definition leftDownArc (size : Q) : string :=
    "a " +:+ str size +:+ " " +:+ str size +:+ " 0 0 0 -" +:+ str size +:+ " " +:+ str size.
Definition upLeftArc (size : Q) : string :=
    "a " +:+ str size +:+ " " +:+ str size +:+ " 0 0 0 -" +:+ str size +:+ " -" +:+ str size.
Definition downRightArc (size : Q) : string :=
    "a " +:+ str size +:+ " " +:+ str size +:+ " 0 0 0 " +:+ str size +:+ " " +:+ str size.
Definition rightUpArc (size : Q) : string :=
    "a " +:+ str size +:+ " " +:+ str size +:+ " 0 0 0 " +:+ str size +:+ " -" +:+ str size.
Definition bottomUArc (size : Q) : string :=
    "a " +:+ str (size / 2) +:+ " " +:+ str (size / 2) +:+ " 0 0 0 " +:+ str size +:+ " 0".
Definition rightUArc (size : Q) : string :=
    "a " +:+ str (size / 2) +:+ " " +:+ str (size / 2) +:+ " 0 0 0 0 -" +:+ str size.
Definition topUArc (size : Q) : string :=
    "a " +:+ str (size / 2) +:+ " " +:+ str (size / 2) +:+ " 0 0 0 -" +:+ str size +:+ " 0".
Definition leftUArc (size : Q) : string :=
    "a " +:+ str (size / 2) +:+ " " +:+ str (size / 2) +:+ " 0 0 0 0 " +:+ str size.
End PathUtils.
End PathUtils.

(** ** PathDrawer and its subclasses

    The five classes, the methods each of them declares, and method lookup
    along the prototype chain.  A method body receives [this] as the
    late-bound caller [self], so that an inherited body reaches the
    overriding methods of the receiver's class. *)

Inductive drawerClass :=
  | PathDrawer
  | ClassyPathDrawer
  | ClassyRoundedPathDrawer
  | RoundedPathDrawer
  | ExtraRoundedPathDrawer.

#[global] Instance drawerClass_eq_dec : EqDecision drawerClass.
Proof. solve_decision. Defined.

Inductive method :=
  | m_right | m_rightUp | m_rightU
  | m_left | m_leftDown | m_leftU
  | m_down | m_downRight | m_downU
  | m_up | m_upLeft | m_upU
  | m_singleDot.

#[global] Instance method_eq_dec : EqDecision method.
Proof. solve_decision. Defined.

(** [class X extends Y] *)
Definition extends (c : drawerClass) : option drawerClass :=
  match c with
  | PathDrawer => None
  | ClassyPathDrawer => Some PathDrawer
  | ClassyRoundedPathDrawer => Some PathDrawer
  | RoundedPathDrawer => Some ClassyPathDrawer
  | ExtraRoundedPathDrawer => Some RoundedPathDrawer
  end.

(** The prototype chain of a class, the class itself first. *)
Definition protoChain (c : drawerClass) : list drawerClass :=
  match c with
  | PathDrawer => [PathDrawer]
  | ClassyPathDrawer => [ClassyPathDrawer; PathDrawer]
  | ClassyRoundedPathDrawer => [ClassyRoundedPathDrawer; PathDrawer]
  | RoundedPathDrawer => [RoundedPathDrawer; ClassyPathDrawer; PathDrawer]
  | ExtraRoundedPathDrawer =>
      [ExtraRoundedPathDrawer; RoundedPathDrawer; ClassyPathDrawer; PathDrawer]
  end.

Record drawer := Drawer { cls : drawerClass; size : Q }.

Section Drawers.
Variable str : Q -> string.

Local Abbreviation down := (PathUtils.down str).
Local Abbreviation right := (PathUtils.right str).
Local Abbreviation up := (PathUtils.up str).
Local Abbreviation left := (PathUtils.left str).
Local Abbreviation leftDownArc := (PathUtils.leftDownArc str).
Local Abbreviation upLeftArc := (PathUtils.upLeftArc str).
Local Abbreviation downRightArc := (PathUtils.downRightArc str).
Local Abbreviation rightUpArc := (PathUtils.rightUpArc str).
Local Abbreviation bottomUArc := (PathUtils.bottomUArc str).
Local Abbreviation rightUArc := (PathUtils.rightUArc str).
Local Abbreviation topUArc := (PathUtils.topUArc str).
Local Abbreviation leftUArc := (PathUtils.leftUArc str).

  (** A method body: given the late-bound [this.m()] and [this.size]. *)
Definition body := (method -> string) -> Q -> string.

  (** The methods that each class declares itself. *)
Definition declares (c : drawerClass) (m : method) : option body :=
    match c, m with
    | PathDrawer, m_right => Some (fun self size => right size)
    | PathDrawer, m_rightUp => Some (fun self size => right size +:+ up size)
    | PathDrawer, m_rightU => Some (fun self size => self m_rightUp +:+ left size)
    | PathDrawer, m_left => Some (fun self size => left size)
    | PathDrawer, m_leftDown => Some (fun self size => left size +:+ down size)
    | PathDrawer, m_leftU => Some (fun self size => self m_leftDown +:+ right size)
    | PathDrawer, m_down => Some (fun self size => down size)
    | PathDrawer, m_downRight => Some (fun self size => down size +:+ right size)
    | PathDrawer, m_downU => Some (fun self size => down size +:+ self m_rightUp)
    | PathDrawer, m_up => Some (fun self size => up size)
    | PathDrawer, m_upLeft => Some (fun self size => up size +:+ left size)
    | PathDrawer, m_upU => Some (fun self size => up size +:+ self m_leftDown)
    | PathDrawer, m_singleDot =>
        Some (fun self size =>
                ("m " +:+ str size +:+ " 0") +:+ self m_leftDown +:+ self m_rightUp)
    | ClassyPathDrawer, m_rightUp =>
        Some (fun self size => right (size / 2) +:+ rightUpArc (size / 2) +:+ up (size / 2))
    | ClassyPathDrawer, m_leftDown =>
        Some (fun self size => left (size / 2) +:+ leftDownArc (size / 2) +:+ down (size / 2))
    | ClassyRoundedPathDrawer, m_rightUp => Some (fun self size => rightUpArc size)
    | ClassyRoundedPathDrawer, m_leftDown => Some (fun self size => leftDownArc size)
    | ClassyRoundedPathDrawer, m_singleDot =>
        Some (fun self size =>
                ("m " +:+ str size +:+ " 0") +:+
                left (size / 2) +:+
                leftDownArc (size / 2) +:+
                down (size / 2) +:+
                right (size / 2) +:+
                rightUpArc (size / 2) +:+
                up (size / 2))
    | RoundedPathDrawer, m_downRight =>
        Some (fun self size => down (size / 2) +:+ downRightArc (size / 2) +:+ right (size / 2))
    | RoundedPathDrawer, m_upLeft =>
        Some (fun self size => up (size / 2) +:+ upLeftArc (size / 2) +:+ left (size / 2))
    | RoundedPathDrawer, m_downU =>
        Some (fun self size => down (size / 2) +:+ bottomUArc size +:+ up (size / 2))
    | RoundedPathDrawer, m_leftU =>
        Some (fun self size => left (size / 2) +:+ leftUArc size +:+ right (size / 2))
    | RoundedPathDrawer, m_rightU =>
        Some (fun self size => right (size / 2) +:+ rightUArc size +:+ left (size / 2))
    | RoundedPathDrawer, m_upU =>
        Some (fun self size => up (size / 2) +:+ topUArc size +:+ down (size / 2))
    | RoundedPathDrawer, m_singleDot =>
        Some (fun self size =>
                ("m " +:+ str (size / 2) +:+ " 0") +:+ leftUArc size +:+ rightUArc size)
    | ExtraRoundedPathDrawer, m_rightUp => Some (fun self size => rightUpArc size)
    | ExtraRoundedPathDrawer, m_leftDown => Some (fun self size => leftDownArc size)
    | ExtraRoundedPathDrawer, m_downRight => Some (fun self size => downRightArc size)
    | ExtraRoundedPathDrawer, m_upLeft => Some (fun self size => upLeftArc size)
    | _, _ => None
    end.

  (** Property lookup along the prototype chain. *)
Fixpoint lookupMethod (chain : list drawerClass) (m : method) : option body :=
    match chain with
    | [] => None
    | c :: chain' =>
        match declares c m with
        | Some b => Some b
        | None => lookupMethod chain' m
        end
    end.

  (** [d.m()], with the call stack limited to [depth] nested frames; a
      method that does not exist or a stack that is too small yields the
      empty string here. *)
Fixpoint invoke (depth : nat) (d : drawer) (m : method) : string :=
    match depth with
    | O => ""
    | S depth' =>
        match lookupMethod (protoChain (cls d)) m with
        | Some b => b (invoke depth' d) (size d)
        | None => ""
        end
    end.

  (** No body calls deeper than two frames ([singleDot] or a U-turn calling
      a turn). *)
Definition call (d : drawer) (m : method) : string := invoke 2 d m.

Definition singleDot (d : drawer) : string := call d m_singleDot.

  (** [drawerFactory] *)
Inductive style := classy | classy_rounded | rounded | extra_rounded | square.

Definition drawerFactory (s : style) (size : Q) : drawer :=
    match s with
    | classy => Drawer ClassyPathDrawer size
    | classy_rounded => Drawer ClassyRoundedPathDrawer size
    | rounded => Drawer RoundedPathDrawer size
    | extra_rounded => Drawer ExtraRoundedPathDrawer size
    | square => Drawer PathDrawer size
    end.

  (** [getDrawDirections]: the table [origin -> next -> bound method | null]. *)
Definition getDrawDirections (origin next : Directions) : option method :=
    match origin, next with
    | Left, Right => Some m_right
    | Left, Bottom => None
    | Left, Left => Some m_rightU
    | Left, Top => Some m_rightUp
    | Right, Right => Some m_leftU
    | Right, Bottom => Some m_leftDown
    | Right, Left => Some m_left
    | Right, Top => None
    | Top, Right => Some m_downRight
    | Top, Bottom => Some m_down
    | Top, Left => None
    | Top, Top => Some m_downU
    | Bottom, Right => None
    | Bottom, Bottom => Some m_upU
    | Bottom, Left => Some m_upLeft
    | Bottom, Top => Some m_up
    end.

  (** [directions[origin][nextDirection]?.() ?? ""] *)
Definition glyph (d : drawer) (origin next : Directions) : string :=
    match getDrawDirections origin next with
    | Some m => call d m
    | None => ""
    end.

End Drawers.

(** ** Arrays

    Reads outside an array give [undefined] in JavaScript.  Where the code
    compares the result with a component id, or guards it with [?.] and
    [??], [undefined] behaves like [null], and the reads below return
    [None] for both.  [buildConnectedComponents] filters the neighbours it
    read with [n !== null], which would keep an [undefined]: its reads stay
    inside the arrays on a square mask, the only kind of mask that the
    builder passes, and the properties of the labelling are stated for
    square masks. *)

(** [a[i] = x] : in range it overwrites, at [i = a.length] it appends, and
    beyond that JavaScript leaves holes, filled with [hole] here. *)
Definition arraySet {A} (hole : A) (a : list A) (i : nat) (x : A) : list A :=
  if decide (i < length a) then <[i:=x]> a
  else a ++ replicate (i - length a) hole ++ [x].

(** [components[row][col]] for indices that are array positions. *)
Definition readCell (components : list (list (option nat))) (row col : nat) : option nat :=
  match components !! row with
  | Some r => match r !! col with Some v => v | None => None end
  | None => None
  end.

(** [components[row][col] = v] *)
Definition writeCell (components : list (list (option nat))) (row col : nat)
    (v : option nat) : list (list (option nat)) :=
  match components !! row with
  | Some r => <[row := arraySet None r col v]> components
  | None => components
  end.

(** [dotsMask[row][col]] inside the loops, where both indices are in range. *)
Definition maskAt (dotsMask : list (list bool)) (row col : nat) : bool :=
  match dotsMask !! row with
  | Some r => match r !! col with Some b => b | None => false end
  | None => false
  end.

(** [dotsMask[row].length] *)
Definition rowLength {A} (a : list (list A)) (row : nat) : nat :=
  match a !! row with Some r => length r | None => 0 end.

(** [Math.min(...xs)] for a non-empty [xs] (it is [Infinity] for the empty
    list, which the callers never pass). *)
Definition mathMin (xs : list nat) : nat :=
  match xs with
  | [] => 0
  | x :: xs' => foldl Nat.min x xs'
  end.

(** ** buildConnectedComponents *)

Inductive connectedness := Conn4 | Conn8.

#[global] Instance connectedness_eq_dec : EqDecision connectedness.
Proof. solve_decision. Defined.

(** [equivalences : Map<number, Set<number>>].  Several keys hold the same
    [Set] object, so the map stores addresses into [sets], the store of the
    [Set] objects allocated so far; a [Set] lists its members in insertion
    order. *)
Record equivStore := EquivStore {
  equivalences : gmap nat nat;
  sets : list (list nat)
}.

(** The [Set] at an address. *)
Definition setAt (sets : list (list nat)) (a : nat) : list nat :=
  match sets !! a with Some s => s | None => [] end.

(** [s.add(x)] on the [Set] at address [a]. *)
Definition setAdd (sets : list (list nat)) (a : nat) (x : nat) : list (list nat) :=
  if decide (x ∈ setAt sets a) then sets else <[a := setAt sets a ++ [x]]> sets.

(** [equivalences.get(id) ?? [id]], as the list it is iterated over. *)
Definition classOf (e : equivStore) (id : nat) : list nat :=
  match equivalences e !! id with
  | Some a => setAt (sets e) a
  | None => [id]
  end.

(** [if (!equivalences.has(minComponent))
       equivalences.set(minComponent, new Set([minComponent]))] *)
Definition ensureClass (minComponent : nat) (e : equivStore) : equivStore :=
  match equivalences e !! minComponent with
  | Some _ => e
  | None =>
      EquivStore (<[minComponent := length (sets e)]> (equivalences e))
                 (sets e ++ [[minComponent]])
  end.

(** The body of [for (const id of validIds)], with [equivalenceClass] the
    [Set] at address [cls]:
    [[
      if (!equivalenceClass.has(id))
        for (const equivalenceId of equivalences.get(id) ?? [id]) {
          equivalenceClass.add(equivalenceId);
          equivalences.set(equivalenceId, equivalenceClass);
        }
    ]]
    The iterated [Set] is read once: were it [equivalenceClass] itself, the
    additions would not change it. *)
Definition mergeId (cls : nat) (e : equivStore) (id : nat) : equivStore :=
  if decide (id ∈ setAt (sets e) cls) then e
  else
    foldl (fun e' equivalenceId =>
             EquivStore (<[equivalenceId := cls]> (equivalences e'))
                        (setAdd (sets e') cls equivalenceId))
          e (classOf e id).

(** The union step of one cell. *)
Definition recordEquivalence (minComponent : nat) (validIds : list nat)
    (e : equivStore) : equivStore :=
  let e1 := ensureClass minComponent e in
  match equivalences e1 !! minComponent with
  | Some equivalenceClass => foldl (mergeId equivalenceClass) e1 validIds
  | None => e1
  end.

Record scanState := ScanState {
  components : list (list (option nat));
  currentComponent : nat;
  equiv : equivStore
}.

(** The ids of the neighbours looked at for cell [(row, col)]. *)
Definition validIdsAt (dotsMask : list (list bool)) (connectedness : connectedness)
    (components : list (list (option nat))) (row col : nat) : list nat :=
  let is8 := bool_decide (connectedness = Conn8) in
  let isEdge :=
    bool_decide (col = 0) || bool_decide (row = 0)
    || bool_decide (col = rowLength dotsMask row - 1)
    || bool_decide (row = length dotsMask - 1) in
  let leftComponent :=
    if bool_decide (0 < col) then readCell components row (col - 1) else None in
  let topComponent :=
    if bool_decide (0 < row) then readCell components (row - 1) col else None in
  let topLeftComponent :=
    if bool_decide (0 < col) && bool_decide (0 < row) && is8
    then readCell components (row - 1) (col - 1) else None in
  let topRightComponent :=
    if bool_decide (col < length dotsMask - 1) && bool_decide (0 < row) && is8
    then readCell components (row - 1) (col + 1) else None in
  omap id [leftComponent; topComponent; topLeftComponent; topRightComponent;
           if isEdge && is8 then Some 1 else None].

(** The body of the inner loop of the scan. *)
Definition scanCell (dotsMask : list (list bool)) (invert : bool)
    (connectedness : connectedness) (row : nat) (st : scanState) (col : nat) : scanState :=
  if bool_decide (maskAt dotsMask row col = invert) then
    ScanState (writeCell (components st) row col None) (currentComponent st) (equiv st)
  else
    let validIds := validIdsAt dotsMask connectedness (components st) row col in
    match validIds with
    | [] =>
        ScanState (writeCell (components st) row col (Some (S (currentComponent st))))
                  (S (currentComponent st)) (equiv st)
    | [v] =>
        ScanState (writeCell (components st) row col (Some v))
                  (currentComponent st) (equiv st)
    | _ =>
        let minComponent := mathMin validIds in
        ScanState (writeCell (components st) row col (Some minComponent))
                  (currentComponent st)
                  (recordEquivalence minComponent validIds (equiv st))
    end.

(** The body of the outer loop: [components[row] = []], then the columns. *)
Definition scanRow (dotsMask : list (list bool)) (invert : bool)
    (connectedness : connectedness) (st : scanState) (row : nat) : scanState :=
  foldl (scanCell dotsMask invert connectedness row)
        (ScanState (arraySet [] (components st) row []) (currentComponent st) (equiv st))
        (seq 0 (rowLength dotsMask row)).

Definition scan (dotsMask : list (list bool)) (invert : bool)
    (connectedness : connectedness) : scanState :=
  foldl (scanRow dotsMask invert connectedness)
        (ScanState [] 1 (EquivStore ∅ []))
        (seq 0 (length dotsMask)).

(** [ids : Map<number, {row, col}>] in insertion order. *)
Abbreviation idMap := (list (nat * (nat * nat))).

Definition mapHas {V} (m : list (nat * V)) (k : nat) : bool :=
  existsb (fun kv => bool_decide (kv.1 = k)) m.

Definition mapGet {V} (m : list (nat * V)) (k : nat) : option V :=
  snd <$> find (fun kv => bool_decide (kv.1 = k)) m.

(** The body of the loops of the "resolve aliases" pass. *)
Definition resolveCell (e : equivStore) (row : nat)
    (acc : list (list (option nat)) * idMap) (col : nat)
    : list (list (option nat)) * idMap :=
  match readCell acc.1 row col with
  | Some value =>
      if bool_decide (value = 0) then acc
      else
        let id := mathMin (classOf e value) in
        (writeCell acc.1 row col (Some id),
         if mapHas acc.2 id then acc.2 else acc.2 ++ [(id, (row, col))])
  | None => acc
  end.

Definition resolveRow (e : equivStore)
    (acc : list (list (option nat)) * idMap) (row : nat)
    : list (list (option nat)) * idMap :=
  foldl (resolveCell e row) acc (seq 0 (rowLength acc.1 row)).

Definition resolve (e : equivStore) (components : list (list (option nat)))
    : list (list (option nat)) * idMap :=
  foldl (resolveRow e) (components, []) (seq 0 (length components)).

Definition buildConnectedComponents (dotsMask : list (list bool)) (invert : bool)
    (connectedness : connectedness) : list (list (option nat)) * idMap :=
  let st := scan dotsMask invert connectedness in
  resolve (equiv st) (components st).

(** ** determineNextDirection *)

Definition rotationOrder : list Directions :=
  [Left; Bottom; Right; Top; Left; Bottom; Right; Top].

(** [a.indexOf(x)] for an [x] that occurs in [a]. *)
Fixpoint indexOf (x : Directions) (a : list Directions) : nat :=
  match a with
  | [] => 0
  | y :: a' => if decide (y = x) then 0 else S (indexOf x a')
  end.

(** [a.find((_, index) => p(index))], [i] being the index of the head. *)
Fixpoint findIndexed {A} (p : nat -> bool) (i : nat) (a : list A) : option A :=
  match a with
  | [] => None
  | x :: a' => if p i then Some x else findIndexed p (S i) a'
  end.

Definition determineNextDirection (origin : Directions)
    (hasLeft hasRight hasTop hasBottom : bool) : option Directions :=
  let startIndex := indexOf origin rotationOrder + 1 in
  let options := [hasLeft; hasBottom; hasRight; hasTop] in
  findIndexed (fun index => default false (options !! ((startIndex + index) mod 4)))
              0 (drop startIndex rotationOrder).

(** ** renderComponentToPath *)

(** [components[row]?.[col] === componentId], for computed indices; a
    negative index reads [undefined]. *)
Definition isComponent (components : list (list (option nat))) (row col : Z)
    (componentId : nat) : bool :=
  if bool_decide (0 <= row)%Z && bool_decide (0 <= col)%Z then
    match readCell components (Z.to_nat row) (Z.to_nat col) with
    | Some v => bool_decide (v = componentId)
    | None => false
    end
  else false.

(** The cell reached from [current] by one move. *)
Definition move (current : Z * Z) (nextDirection : Directions) : Z * Z :=
  match nextDirection with
  | Left => (current.1, current.2 - 1)%Z
  | Bottom => (current.1 + 1, current.2)%Z
  | Right => (current.1, current.2 + 1)%Z
  | Top => (current.1 - 1, current.2)%Z
  end.

(** [{ top: "bottom", right: "left", bottom: "top", left: "right" }] *)
Definition opposite (d : Directions) : Directions :=
  match d with
  | Top => Bottom
  | Right => Left
  | Bottom => Top
  | Left => Right
  end.

(** The variables of the walk.  [moves] is the list of the values that
    [nextDirection] took, oldest first; the code does not keep it, it is
    recorded here to state properties of the walk. *)
Record walkState := WalkState {
  path : string;
  origin : Directions;
  current : Z * Z;
  moves : list Directions
}.

Section Tracer.
Variable str : Q -> string.
Variable dotSize : Q.

(** [nextDirection] at the current cell. *)
Definition nextDirectionAt (components : list (list (option nat))) (componentId : nat)
    (current : Z * Z) (origin : Directions) : option Directions :=
  let hasLeft := isComponent components current.1 (current.2 - 1) componentId in
  let hasRight := isComponent components current.1 (current.2 + 1) componentId in
  let hasTop := isComponent components (current.1 - 1) current.2 componentId in
  let hasBottom := isComponent components (current.1 + 1) current.2 componentId in
  determineNextDirection origin hasLeft hasRight hasTop hasBottom.

(** The condition of the [do ... while]. *)
Definition continueWalk (start : Z * Z) (originalOrigin : Directions)
    (current : Z * Z) (origin : Directions) : bool :=
  negb (bool_decide (current.1 = start.1))
  || negb (bool_decide (current.2 = start.2))
  || negb (bool_decide (originalOrigin = origin)).

(** The [do ... while] loop, run for at most [fuel] iterations; [None] when
    the loop is still running after them. *)
Fixpoint walkLoop (fuel : nat) (componentId : nat)
    (components : list (list (option nat))) (start : Z * Z) (drawer : drawer)
    (originalOrigin : Directions) (st : walkState) : option walkState :=
  match fuel with
  | O => None
  | S fuel' =>
      match nextDirectionAt components componentId (current st) (origin st) with
      | None =>
          Some (WalkState (path st +:+ singleDot str drawer) (origin st) (current st) (moves st))
      | Some nextDirection =>
          let st' :=
            WalkState (path st +:+ glyph str drawer (origin st) nextDirection)
                      (opposite nextDirection)
                      (move (current st) nextDirection)
                      (moves st ++ [nextDirection]) in
          if continueWalk start originalOrigin (current st') (origin st')
          then walkLoop fuel' componentId components start drawer originalOrigin st'
          else Some st'
      end
  end.

(** The state in which the loop is entered. *)
Definition walkInit (componentId : nat) (components : list (list (option nat)))
    (offset : Q * Q) (start : Z * Z) (moveRight : bool) : walkState :=
  let path :=
    "M " +:+ str (inject_Z start.2 * dotSize + offset.1) +:+ " "
         +:+ str (inject_Z start.1 * dotSize + offset.2) +:+ " " in
  if isComponent components start.1 (start.2 + 1) componentId && negb moveRight then
    WalkState (path +:+ ("m " +:+ str dotSize +:+ " 0")) Right start []
  else if isComponent components (start.1 + 1) start.2 componentId then
    WalkState (path +:+ ("m " +:+ str dotSize +:+ " " +:+ str dotSize)) Bottom start []
  else
    WalkState path Top start [].

(** The walk of [renderComponentToPath], with its final variables. *)
Definition renderWalk (fuel : nat) (componentId : nat)
    (components : list (list (option nat))) (offset : Q * Q) (start : Z * Z)
    (drawer : drawer) (moveRight : bool) : option walkState :=
  let st := walkInit componentId components offset start moveRight in
  walkLoop fuel componentId components start drawer (origin st) st.

Definition renderComponentToPath (fuel : nat) (componentId : nat)
    (components : list (list (option nat))) (offset : Q * Q) (start : Z * Z)
    (drawer : drawer) (moveRight : bool) : option string :=
  path <$> renderWalk fuel componentId components offset start drawer moveRight.

(** ** drawComponents

    The result is the list of the [d] attributes of the [path] elements
    appended to the document, each with the id of its component. *)

(** [backgroundPathsForComponent.get(k).push(id)], after the entry for [k]
    was created when absent. *)
Fixpoint pushTo (m : list (nat * list nat)) (k : nat) (id : nat) : list (nat * list nat) :=
  match m with
  | [] => [(k, [id])]
  | (k', v) :: m' =>
      if bool_decide (k' = k) then (k', v ++ [id]) :: m' else (k', v) :: pushTo m' k id
  end.

(** [components[startPosition.row][startPosition.col - 1]] *)
Definition surroundingComponentAt (components : list (list (option nat)))
    (startPosition : nat * nat) : option nat :=
  if bool_decide (0 < startPosition.2)
  then readCell components startPosition.1 (startPosition.2 - 1)
  else None.

(** The callback of [backgroundIds.forEach]. *)
Definition registerBackground (components : list (list (option nat)))
    (acc : list (nat * list nat)) (entry : nat * (nat * nat)) : list (nat * list nat) :=
  let '(id, startPosition) := entry in
  match surroundingComponentAt components startPosition with
  | Some surroundingComponent =>
      if bool_decide (surroundingComponent = 0) || bool_decide (id <= 1) then acc
      else pushTo acc surroundingComponent id
  | None => acc
  end.

Definition backgroundPathsFor (components : list (list (option nat)))
    (backgroundIds : idMap) : list (nat * list nat) :=
  foldl (registerBackground components) [] backgroundIds.

(** [{ row: start.row - 1, col: start.col - 1 }] *)
Definition upLeftOf (start : nat * nat) : Z * Z :=
  (Z.of_nat start.1 - 1, Z.of_nat start.2 - 1)%Z.

(** The hole contours appended to one path, in order. *)
Definition holePaths (fuel : nat) (components : list (list (option nat)))
    (offset : Q * Q) (drawer : drawer) (backgroundIds : idMap) (id : nat)
    (backgroundPaths : list nat) : option (list string) :=
  mapM (fun backgroundPathId =>
          match mapGet backgroundIds backgroundPathId with
          | Some start =>
              renderComponentToPath fuel id components offset (upLeftOf start) drawer true
          | None => None
          end) backgroundPaths.

Definition drawComponents (fuel : nat) (dotsMask : list (list bool)) (offset : Q * Q)
    (drawer : drawer) : option (list (nat * string)) :=
  let '(components, ids) := buildConnectedComponents dotsMask false Conn4 in
  let '(_, backgroundIds) := buildConnectedComponents dotsMask true Conn8 in
  paths ← mapM (fun '(id, start) =>
                  path ← renderComponentToPath fuel id components offset
                           (Z.of_nat start.1, Z.of_nat start.2) drawer false;
                  Some (id, path)) ids;
  let backgroundPathsForComponent := backgroundPathsFor components backgroundIds in
  mapM (fun '(id, path) =>
          holes ← holePaths fuel components offset drawer backgroundIds id
                    (default [] (mapGet backgroundPathsForComponent id));
          Some (id, path +:+ String.concat "" holes)) paths.

End Tracer.

(** ** expandDotsMaskWithCircle

    [isDark] is [this._qr.isDark], which takes two numbers; [count] is
    [this.moduleCount()]; [padding] is the number that the code hands to
    [_roundSize] to obtain [additionalDots], the value of
    [((Math.min(width, height) - this._options.margin * 2) / this._dotSize
      - count) / 2]. *)

(** [_roundSize]: [Math.floor] when [dotsOptions.roundSize] is set, the
    value itself otherwise. *)
Definition _roundSize (roundSize : bool) (value : Q) : Q :=
  if roundSize then inject_Z (Qfloor value) else value.

(** The element that a number names as the key of an array: a number that
    is negative or is not an integer names none. *)
Definition arrayIndex (i : Q) : option nat :=
  if Qle_bool 0 i && Qeq_bool i (inject_Z (Qfloor i))
  then Some (Z.to_nat (Qfloor i)) else None.

(** [dotsMask[row]?.[col] ?? false] for integers. *)
Definition maskOrFalse (dotsMask : list (list bool)) (row col : Z) : bool :=
  if bool_decide (0 <= row)%Z && bool_decide (0 <= col)%Z then
    match dotsMask !! Z.to_nat row with
    | Some r => default false (r !! Z.to_nat col)
    | None => false
    end
  else false.

(** [dotsMask[row]?.[col] ?? false] for numbers. *)
Definition maskOrFalseAt (dotsMask : list (list bool)) (row col : Q) : bool :=
  match arrayIndex row with
  | Some r =>
      match dotsMask !! r with
      | Some cells =>
          match arrayIndex col with
          | Some c => default false (cells !! c)
          | None => false
          end
      | None => false
      end
  | None => false
  end.

(** [Math.sqrt(x) > center] for an [x] that is not negative: the root is
    not negative, so it exceeds every negative [center]. *)
Definition sqrtExceeds (x center : Q) : bool :=
  negb (Qle_bool 0 center) || negb (Qle_bool x (center * center)).

Section Expander.
Variable isDark : Q -> Q -> bool.
Variable roundSize : bool.

(** The value stored at [circularDotsMask[row][col]]. *)
Definition expandedCell (dotsMask : list (list bool)) (count : Z) (additionalDots : Q)
    (row col : Z) : bool :=
  let fakeCount := (inject_Z count + additionalDots * 2)%Q in
  let center := _roundSize roundSize (fakeCount / 2) in
  if Qle_bool (additionalDots - 1) (inject_Z row)
     && Qle_bool (inject_Z row) (fakeCount - additionalDots)
     && Qle_bool (additionalDots - 1) (inject_Z col)
     && Qle_bool (inject_Z col) (fakeCount - additionalDots)
  then maskOrFalseAt dotsMask (inject_Z row - additionalDots)
                     (inject_Z col - additionalDots)
  else
    let dr := (inject_Z row - center)%Q in
    let dc := (inject_Z col - center)%Q in
    if sqrtExceeds (dr * dr + dc * dc) center then false
    else
      isDark
        (if negb (Qle_bool 0 (inject_Z col - 2 * additionalDots)) then inject_Z col
         else if bool_decide (count <= col)%Z then (inject_Z col - 2 * additionalDots)%Q
         else (inject_Z col - additionalDots)%Q)
        (if negb (Qle_bool 0 (inject_Z row - 2 * additionalDots)) then inject_Z row
         else if bool_decide (count <= row)%Z then (inject_Z row - 2 * additionalDots)%Q
         else (inject_Z row - additionalDots)%Q).

(** The two loops run while [row < fakeCount] and [col < fakeCount]: over
    the naturals below the ceiling of [fakeCount]. *)
Definition expandDotsMaskWithCircle (dotsMask : list (list bool)) (count : Z)
    (padding : Q) : list (list bool) :=
  let additionalDots := _roundSize roundSize padding in
  let fakeCount := (inject_Z count + additionalDots * 2)%Q in
  (fun row => (fun col => expandedCell dotsMask count additionalDots
                            (Z.of_nat row) (Z.of_nat col))
              <$> seq 0 (Z.to_nat (Qceiling fakeCount)))
  <$> seq 0 (Z.to_nat (Qceiling fakeCount)).

End Expander.


(** * Notions used to state the properties *)

(** A number-to-string conversion for the examples: the decimal numeral of
    an integer and of a half-integer, as JavaScript prints them. *)
Definition showNumber (q : Q) : string :=
  let n := Qnum (Qred q) in
  match Qden (Qred q) with
  | 1%positive => pretty n
  | 2%positive =>
      if bool_decide (0 <= n)%Z then pretty (n / 2)%Z +:+ ".5"
      else "-" +:+ pretty ((- n) / 2)%Z +:+ ".5"
  | d => pretty n +:+ "/" +:+ pretty (Zpos d)
  end.

(** ** Transitions *)

Inductive transitionClass := Straight | Turn | UTurn.

#[global] Instance transitionClass_eq_dec : EqDecision transitionClass.
Proof. solve_decision. Defined.

(** A transition "arrived from [origin], leaves toward [next]" doubles back
    when it leaves where it came from, goes straight on when it leaves on
    the opposite side, and is a quarter turn otherwise. *)
Definition classify (origin next : Directions) : transitionClass :=
  if decide (next = origin) then UTurn
  else if decide (next = opposite origin) then Straight
  else Turn.

Definition allDirections : list Directions := [Top; Right; Bottom; Left].

Definition allTransitions : list (Directions * Directions) :=
  o ← allDirections; n ← allDirections; [(o, n)].

Definition allClasses : list drawerClass :=
  [PathDrawer; ClassyPathDrawer; ClassyRoundedPathDrawer; RoundedPathDrawer;
   ExtraRoundedPathDrawer].

(** The direction that follows [o] in the circular order
    left, bottom, right, top. *)
Definition afterOrigin (o : Directions) : Directions :=
  match o with
  | Left => Bottom
  | Bottom => Right
  | Right => Top
  | Top => Left
  end.

(** ** The step rule in the words of the specification *)

Definition circularOrder : list Directions := [Left; Bottom; Right; Top].

(** The four directions in the circular order, starting just after the
    position of [o] and wrapping around. *)
Definition candidatesAfter (o : Directions) : list Directions :=
  let i := S (indexOf o circularOrder) in
  drop i circularOrder ++ take i circularOrder.

(** The first candidate whose neighbour belongs to the component. *)
Definition firstNeighbour (o : Directions) (has : Directions -> bool)
    : option Directions :=
  List.find has (candidatesAfter o).

(** The neighbour flags of [determineNextDirection] as a function. *)
Definition flags (hasLeft hasRight hasTop hasBottom : bool) (d : Directions) : bool :=
  match d with
  | Left => hasLeft
  | Right => hasRight
  | Top => hasTop
  | Bottom => hasBottom
  end.

(** Whether the neighbour of [cell] in direction [d] has the id. *)
Definition hasNeighbour (components : list (list (option nat))) (componentId : nat)
    (cell : Z * Z) (d : Directions) : bool :=
  isComponent components (move cell d).1 (move cell d).2 componentId.

(** The net displacement, in cells, of a list of moves. *)
Definition displacement (ms : list Directions) : Z * Z :=
  foldl move (0, 0)%Z ms.

(** The states the walk passes through after each of its moves: the cell
    reached and the arrival direction there. *)
Definition stateAfter (start : Z * Z) (ms : list Directions) (o0 : Directions)
    : (Z * Z) * Directions :=
  (foldl move start ms, default o0 (opposite <$> last ms)).

(** What the loop maintains: the current cell is the start moved along the
    moves made so far and has the component id, the arrival direction is
    the opposite of the last move, and no state after a move was the start
    with the original orientation. *)
Definition walkInv (components : list (list (option nat))) (componentId : nat)
    (start : Z * Z) (o0 : Directions) (st : walkState) : Prop :=
  (current st, origin st) = stateAfter start (moves st) o0
  /\ isComponent components (current st).1 (current st).2 componentId = true
  /\ (moves st <> [] ->
      hasNeighbour components componentId (current st) (origin st) = true)
  /\ (forall k, 0 < k <= length (moves st) ->
                stateAfter start (take k (moves st)) o0 <> (start, o0)).


(** ** Holes in the words of the specification *)

(** A background component, given by its entry in the registry of the
    background pass, is a hole of the foreground component [k] when its id
    is greater than 1 and the foreground label map holds [k] at the cell
    immediately to the left of its start coordinate. *)
Definition isHoleOf (components : list (list (option nat))) (k : nat)
    (entry : nat * (nat * nat)) : bool :=
  bool_decide (1 < entry.1)
  && bool_decide (0 < entry.2.2
                  /\ readCell components entry.2.1 (entry.2.2 - 1) = Some k).

(** The holes of [k], in the order of the registry. *)
Definition holesOf (components : list (list (option nat))) (backgroundIds : idMap)
    (k : nat) : list (nat * (nat * nat)) :=
  filter (fun entry => isHoleOf components k entry = true) backgroundIds.

(** ** The store of equivalence classes *)

(** Every key of [equivalences] is a member of the [Set] it points to, and
    every member of a [Set] some key points to points to that [Set] too. *)
Definition storeInv (e : equivStore) : Prop :=
  (forall k a, equivalences e !! k = Some a -> k ∈ setAt (sets e) a)
  /\ (forall k a m, equivalences e !! k = Some a -> m ∈ setAt (sets e) a ->
                    equivalences e !! m = Some a).

(** [j] is in the equivalence set recorded for [i]. *)
Definition sameClass (e : equivStore) (i j : nat) : Prop := j ∈ classOf e i.

(** ** The grid and the raster order *)

(** [(r', c')] comes before [(r, c)] in raster order. *)
Definition before (r c r' c' : nat) : Prop := r' < r \/ (r' = r /\ c' < c).

Definition inGrid (dotsMask : list (list bool)) (r c : nat) : Prop :=
  r < length dotsMask /\ c < rowLength dotsMask r.

(** A cell that the pass labels: a cell of the grid whose value is not
    [invert]. *)
Definition ofPolarity (dotsMask : list (list bool)) (invert : bool) (r c : nat) : Prop :=
  inGrid dotsMask r c /\ maskAt dotsMask r c <> invert.

(** The masks the callers pass: as many columns in every row as there are
    rows. *)
Definition isSquare (dotsMask : list (list bool)) : Prop :=
  Forall (fun row => length row = length dotsMask) dotsMask.

(** ** Recorded equivalences *)

(** Two ids met among the several valid ids of the cell [(r, c)]. *)
Definition linkedAt (dotsMask : list (list bool)) (conn : connectedness)
    (components : list (list (option nat))) (r c : nat) (i j : nat) : Prop :=
  2 <= length (validIdsAt dotsMask conn components r c)
  /\ i ∈ validIdsAt dotsMask conn components r c
  /\ j ∈ validIdsAt dotsMask conn components r c.

(** Two ids met together at a labelled cell before [(r, c)]. *)
Definition linkedBefore (dotsMask : list (list bool)) (invert : bool)
    (conn : connectedness) (components : list (list (option nat))) (r c : nat)
    (i j : nat) : Prop :=
  exists r' c', before r c r' c' /\ ofPolarity dotsMask invert r' c'
                /\ linkedAt dotsMask conn components r' c' i j.

(** Two ids met together at some labelled cell. *)
Definition linked (dotsMask : list (list bool)) (invert : bool)
    (conn : connectedness) (components : list (list (option nat)))
    (i j : nat) : Prop :=
  exists r' c', ofPolarity dotsMask invert r' c'
                /\ linkedAt dotsMask conn components r' c' i j.

(** The equivalence of ids generated by the recorded pairs: its classes
    are the equivalence classes of the labelling. *)
Definition equivalent (dotsMask : list (list bool)) (invert : bool)
    (conn : connectedness) (components : list (list (option nat))) : relation nat :=
  rtsc (linked dotsMask invert conn components).

(** The assignment rule at the cell [(r, c)] of a label map. *)
Definition followsRule (dotsMask : list (list bool)) (conn : connectedness)
    (components : list (list (option nat))) (r c : nat) : Prop :=
  match validIdsAt dotsMask conn components r c with
  | [] =>
      exists l, readCell components r c = Some l /\ 2 <= l
                /\ forall r' c' l', before r c r' c' ->
                                    readCell components r' c' = Some l' -> l' < l
  | [v] => readCell components r c = Some v
  | v :: vs => readCell components r c = Some (mathMin (v :: vs))
  end.

(** What holds of the scan when the cells before [(r, c)] are done. *)
Record scanFacts (dotsMask : list (list bool)) (invert : bool)
    (conn : connectedness) (r c : nat) (st : scanState) : Prop := ScanFacts {
  sf_null : forall r' c', before r c r' c' -> inGrid dotsMask r' c' ->
              (readCell (components st) r' c' = None <-> maskAt dotsMask r' c' = invert);
  sf_todo : forall r' c', ~ before r c r' c' -> readCell (components st) r' c' = None;
  sf_bound : 1 <= currentComponent st
             /\ forall r' c' l, readCell (components st) r' c' = Some l ->
                                1 <= l <= currentComponent st
                                /\ (conn = Conn4 -> 2 <= l);
  sf_rule : forall r' c', before r c r' c' -> ofPolarity dotsMask invert r' c' ->
              followsRule dotsMask conn (components st) r' c';
  sf_store : storeInv (equiv st);
  sf_classes : forall i j, sameClass (equiv st) i j
                 <-> rtsc (linkedBefore dotsMask invert conn (components st) r c) i j
}.

(** The shape of [components] when row [r] holds [c] cells. *)
Definition scanShape (dotsMask : list (list bool)) (r c : nat)
    (components : list (list (option nat))) : Prop :=
  length components = S r
  /\ (forall r', r' < r -> rowLength components r' = rowLength dotsMask r')
  /\ rowLength components r = c.

(** The neighbours of [(r, c)] that the scan has already visited: left and
    top, and for 8-connectivity top-left and top-right. *)
Definition scannedNeighbour (conn : connectedness) (r c r' c' : nat) : Prop :=
  (r' = r /\ S c' = c)
  \/ (S r' = r /\ c' = c)
  \/ (conn = Conn8 /\ S r' = r /\ (S c' = c \/ c' = S c)).

(** [isEdge] *)
Definition onEdge (dotsMask : list (list bool)) (r c : nat) : Prop :=
  c = 0 \/ r = 0 \/ c = rowLength dotsMask r - 1 \/ r = length dotsMask - 1.

(** ** The resolution pass *)

(** What the resolution pass writes over a cell holding [v]: a truthy
    value is replaced by the minimum of its equivalence set. *)
Definition canonical (e : equivStore) (v : option nat) : option nat :=
  match v with
  | Some value =>
      if bool_decide (value = 0) then Some value
      else Some (mathMin (classOf e value))
  | None => None
  end.

(** The cell [(r, c)] of the scanned map resolves to the id [k] and sets it
    in [ids] if it is not there. *)
Definition registers (e : equivStore) (components : list (list (option nat)))
    (r c : nat) (k : nat) : Prop :=
  exists value, readCell components r c = Some value /\ value <> 0
                /\ k = mathMin (classOf e value).

(** What holds of the resolution pass of the map [components] when the
    cells before [(r, c)] are done. *)
Definition resolveFacts (e : equivStore) (components : list (list (option nat)))
    (r c : nat) (acc : list (list (option nat)) * idMap) : Prop :=
  length acc.1 = length components
  /\ (forall r', rowLength acc.1 r' = rowLength components r')
  /\ (forall r' c', before r c r' c' ->
                    readCell acc.1 r' c' = canonical e (readCell components r' c'))
  /\ (forall r' c', ~ before r c r' c' ->
                    readCell acc.1 r' c' = readCell components r' c')
  /\ NoDup acc.2.*1
  /\ (forall k r' c', before r c r' c' -> registers e components r' c' k -> k ∈ acc.2.*1)
  /\ (forall k r' c', (k, (r', c')) ∈ acc.2
                      <-> before r c r' c' /\ registers e components r' c' k
                          /\ forall r'' c'', before r' c' r'' c'' ->
                                             ~ registers e components r'' c'' k).

(** ** The two halves of [buildConnectedComponents] *)

(** The label map as the scan leaves it, before the aliases are resolved. *)
Definition provisional (dotsMask : list (list bool)) (invert : bool)
    (conn : connectedness) : list (list (option nat)) :=
  components (scan dotsMask invert conn).

(** The equivalences recorded by the scan. *)
Definition recorded (dotsMask : list (list bool)) (invert : bool)
    (conn : connectedness) : equivStore :=
  equiv (scan dotsMask invert conn).

(** Two cells that share an edge. *)
Definition edgeAdjacent (r c r' c' : nat) : Prop :=
  (r' = r /\ (S c' = c \/ c' = S c)) \/ (c' = c /\ (S r' = r \/ r' = S r)).

(** Two cells that share an edge or a corner. *)
Definition cornerAdjacent (r c r' c' : nat) : Prop :=
  (r' = r \/ S r' = r \/ r' = S r) /\ (c' = c \/ S c' = c \/ c' = S c)
  /\ (r', c') <> (r, c).

(** The adjacency that a pass tracks. *)
Definition adjacent (conn : connectedness) (r c r' c' : nat) : Prop :=
  match conn with
  | Conn4 => edgeAdjacent r c r' c'
  | Conn8 => cornerAdjacent r c r' c'
  end.

(** ** Components of the grid *)

(** One step between two cells that the pass labels and tracks as
    adjacent. *)
Definition linkStep (dotsMask : list (list bool)) (invert : bool)
    (conn : connectedness) (x y : nat * nat) : Prop :=
  ofPolarity dotsMask invert x.1 x.2 /\ ofPolarity dotsMask invert y.1 y.2
  /\ adjacent conn x.1 x.2 y.1 y.2.

(** Two cells of one component: joined by a chain of such steps. *)
Definition connected (dotsMask : list (list bool)) (invert : bool)
    (conn : connectedness) : relation (nat * nat) :=
  rtc (linkStep dotsMask invert conn).

(** The component of [x] contains a cell on the border of the grid. *)
Definition touchesBorder (dotsMask : list (list bool)) (invert : bool)
    (conn : connectedness) (x : nat * nat) : Prop :=
  exists b, ofPolarity dotsMask invert b.1 b.2 /\ onEdge dotsMask b.1 b.2
            /\ connected dotsMask invert conn x b.

(** Two labelled cells are in one component, or both in components that
    reach the border. *)
Definition joined (dotsMask : list (list bool)) (invert : bool)
    (conn : connectedness) (x y : nat * nat) : Prop :=
  connected dotsMask invert conn x y
  \/ (touchesBorder dotsMask invert conn x /\ touchesBorder dotsMask invert conn y).

(** Every cell with the label [l] is in a component that reaches the
    border. *)
Definition labelTouches (dotsMask : list (list bool)) (invert : bool)
    (conn : connectedness) (l : nat) : Prop :=
  forall r c, readCell (provisional dotsMask invert conn) r c = Some l ->
              touchesBorder dotsMask invert conn (r, c).

(** ** The walk as a map on states *)

(** One iteration of the loop on the pair of the current cell and the
    arrival direction; a state without next direction is left as it is. *)
Definition stepState (components : list (list (option nat))) (componentId : nat)
    (s : (Z * Z) * Directions) : (Z * Z) * Directions :=
  match nextDirectionAt components componentId s.1 s.2 with
  | Some d => (move s.1 d, opposite d)
  | None => s
  end.

(** The cell of the state and the cell it was entered from both have the
    component id. *)
Definition validState (components : list (list (option nat))) (componentId : nat)
    (s : (Z * Z) * Directions) : Prop :=
  isComponent components s.1.1 s.1.2 componentId = true
  /\ hasNeighbour components componentId s.1 s.2 = true.

(** A valid state whose pen corner is not inside the component: of the
    four cells around the corner between the arrival side and the next
    side, not all have the component id. *)
Definition cornerState (components : list (list (option nat))) (componentId : nat)
    (s : (Z * Z) * Directions) : Prop :=
  validState components componentId s
  /\ (hasNeighbour components componentId s.1 (afterOrigin s.2) = true ->
      hasNeighbour components componentId (move s.1 s.2) (afterOrigin s.2) = false).

(** The step turns at once toward the side after the arrival side, and
    draws nothing. *)
Definition turnsAtOnce (components : list (list (option nat))) (componentId : nat)
    (s : (Z * Z) * Directions) : bool :=
  hasNeighbour components componentId s.1 (afterOrigin s.2).

(** The cells of a label map. *)
Definition gridCells (components : list (list (option nat))) : list (Z * Z) :=
  r ← seq 0 (length components);
  c ← seq 0 (rowLength components r);
  [(Z.of_nat r, Z.of_nat c)].

(** The unit edges between a cell of the component and a cell outside it,
    each given by the inner cell and the side. *)
Definition boundaryEdges (components : list (list (option nat))) (componentId : nat)
    : list ((Z * Z) * Directions) :=
  x ← gridCells components;
  d ← allDirections;
  if isComponent components x.1 x.2 componentId
     && negb (hasNeighbour components componentId x d)
  then [(x, d)] else [].

(** The boundary length of a component, in unit edges. *)
Definition boundaryLength (components : list (list (option nat))) (componentId : nat)
    : nat :=
  length (boundaryEdges components componentId).

(** The pairs of a cell of the component and a side on which its neighbour
    is in the component too. *)
Definition innerStates (components : list (list (option nat))) (componentId : nat)
    : list ((Z * Z) * Directions) :=
  x ← gridCells components;
  d ← allDirections;
  if isComponent components x.1 x.2 componentId
     && hasNeighbour components componentId x d
  then [(x, d)] else [].


(** * Further notions: regions, the order of the registry *)

(** Two labelled cells that a pass puts in one class: cells of one
    component, or, in the 8-connected pass, where every border cell takes
    the id 1, cells of components that both reach the border. *)
Definition sameRegion (dotsMask : list (list bool)) (invert : bool)
    (conn : connectedness) (x y : nat * nat) : Prop :=
  connected dotsMask invert conn x y
  \/ (conn = Conn8 /\ touchesBorder dotsMask invert conn x
      /\ touchesBorder dotsMask invert conn y).

(** The entries of a registry come in the raster order of their cells. *)
Definition rasterSorted (ids : idMap) : Prop :=
  forall i j e e', i < j -> ids !! i = Some e -> ids !! j = Some e' ->
                   before e'.2.1 e'.2.2 e.2.1 e.2.2.

(** What the resolution pass keeps of the order of [ids] when the cells
    before [(r, c)] are done. *)
Definition orderFacts (r c : nat) (ids : idMap) : Prop :=
  rasterSorted ids /\ forall e, e ∈ ids -> before r c e.2.1 e.2.2.

(** * Further notions: the trace of the contour walk *)

(** The glyphs appended to [path] along a list of moves, the first of
    them made on arrival from [o]. *)
Fixpoint glyphsAlong (str : Q -> string) (drawer : drawer) (o : Directions)
    (ms : list Directions) : list string :=
  match ms with
  | [] => []
  | d :: ms' => glyph str drawer o d :: glyphsAlong str drawer (opposite d) ms'
  end.

(** The states of a walk before each of its moves: the start state, then
    the state after one move, and so on. *)
Definition statesAlong (start : Z * Z) (o0 : Directions) (ms : list Directions)
    : list ((Z * Z) * Directions) :=
  (fun k => stateAfter start (take k ms) o0) <$> seq 0 (length ms).

(** * The path commands of the glyphs

    The drawers build their glyphs as text.  To say where a glyph takes
    the pen, the same methods are written here once more with path
    commands as their result, from [src/tools/path.utils.ts] and
    [src/core/PathDrawer.ts] line by line; [Pen.text] prints the commands,
    and the printed commands are shown below to be the very strings of
    [call].  All the commands are relative ([h], [v], [a], [m]). *)

Module Pen.

(** A number of a command as the template literal writes it: [${x}],
    [-${x}] or the literal [0]. *)
Inductive num := Plus (x : Q) | Minus (x : Q) | Zero.

Inductive command :=
  | Ch (dx : num)                    (* h dx *)
  | Cv (dy : num)                    (* v dy *)
  | Ca (rx ry : Q) (dx dy : num)     (* a rx ry 0 0 0 dx dy *)
  | Cm (dx dy : num).                (* m dx dy *)

Definition numText (str : Q -> string) (n : num) : string :=
  match n with
  | Plus x => str x
  | Minus x => "-" +:+ str x
  | Zero => "0"
  end.

Definition commandText (str : Q -> string) (c : command) : string :=
  match c with
  | Ch dx => "h " +:+ numText str dx
  | Cv dy => "v " +:+ numText str dy
  | Ca rx ry dx dy =>
      "a " +:+ str rx +:+ " " +:+ str ry +:+ " 0 0 0 "
           +:+ numText str dx +:+ " " +:+ numText str dy
  | Cm dx dy => "m " +:+ numText str dx +:+ " " +:+ numText str dy
  end.

(** The commands as they stand in the [d] attribute, one after the other
    without separator. *)
Definition text (str : Q -> string) (cs : list command) : string :=
  String.concat "" (commandText str <$> cs).

(** The value of a number, for a non-negative [x] (the sizes are). *)
Definition numValue (n : num) : Q :=
  match n with
  | Plus x => x
  | Minus x => (- x)%Q
  | Zero => 0%Q
  end.

(** The displacement [(dx, dy)] of the pen by a relative command. *)
Definition shift (c : command) : Q * Q :=
  match c with
  | Ch dx => (numValue dx, 0%Q)
  | Cv dy => (0%Q, numValue dy)
  | Ca _ _ dx dy => (numValue dx, numValue dy)
  | Cm dx dy => (numValue dx, numValue dy)
  end.

(** The displacement of the pen by a sequence of relative commands. *)
Fixpoint penShift (cs : list command) : Q * Q :=
  match cs with
  | [] => (0, 0)%Q
  | c :: cs' => ((shift c).1 + (penShift cs').1, (shift c).2 + (penShift cs').2)%Q
  end.

(** path.utils *)
Definition down (size : Q) : list command := [Cv (Plus size)].
Definition right (size : Q) : list command := [Ch (Plus size)].
Definition up (size : Q) : list command := [Cv (Minus size)].
Definition left (size : Q) : list command := [Ch (Minus size)].
Definition leftDownArc (size : Q) : list command :=
  [Ca size size (Minus size) (Plus size)].
Definition upLeftArc (size : Q) : list command :=
  [Ca size size (Minus size) (Minus size)].
Definition downRightArc (size : Q) : list command :=
  [Ca size size (Plus size) (Plus size)].
Definition rightUpArc (size : Q) : list command :=
  [Ca size size (Plus size) (Minus size)].
Definition bottomUArc (size : Q) : list command :=
  [Ca (size / 2) (size / 2) (Plus size) Zero].
Definition rightUArc (size : Q) : list command :=
  [Ca (size / 2) (size / 2) Zero (Minus size)].
Definition topUArc (size : Q) : list command :=
  [Ca (size / 2) (size / 2) (Minus size) Zero].
Definition leftUArc (size : Q) : list command :=
  [Ca (size / 2) (size / 2) Zero (Plus size)].

Definition body := (method -> list command) -> Q -> list command.

(** The methods that each class declares itself. *)
Definition declares (c : drawerClass) (m : method) : option body :=
  match c, m with
  | PathDrawer, m_right => Some (fun self size => right size)
  | PathDrawer, m_rightUp => Some (fun self size => right size ++ up size)
  | PathDrawer, m_rightU => Some (fun self size => self m_rightUp ++ left size)
  | PathDrawer, m_left => Some (fun self size => left size)
  | PathDrawer, m_leftDown => Some (fun self size => left size ++ down size)
  | PathDrawer, m_leftU => Some (fun self size => self m_leftDown ++ right size)
  | PathDrawer, m_down => Some (fun self size => down size)
  | PathDrawer, m_downRight => Some (fun self size => down size ++ right size)
  | PathDrawer, m_downU => Some (fun self size => down size ++ self m_rightUp)
  | PathDrawer, m_up => Some (fun self size => up size)
  | PathDrawer, m_upLeft => Some (fun self size => up size ++ left size)
  | PathDrawer, m_upU => Some (fun self size => up size ++ self m_leftDown)
  | PathDrawer, m_singleDot =>
      Some (fun self size => [Cm (Plus size) Zero] ++ self m_leftDown ++ self m_rightUp)
  | ClassyPathDrawer, m_rightUp =>
      Some (fun self size => right (size / 2) ++ rightUpArc (size / 2) ++ up (size / 2))
  | ClassyPathDrawer, m_leftDown =>
      Some (fun self size => left (size / 2) ++ leftDownArc (size / 2) ++ down (size / 2))
  | ClassyRoundedPathDrawer, m_rightUp => Some (fun self size => rightUpArc size)
  | ClassyRoundedPathDrawer, m_leftDown => Some (fun self size => leftDownArc size)
  | ClassyRoundedPathDrawer, m_singleDot =>
      Some (fun self size =>
              [Cm (Plus size) Zero] ++
              left (size / 2) ++
              leftDownArc (size / 2) ++
              down (size / 2) ++
              right (size / 2) ++
              rightUpArc (size / 2) ++
              up (size / 2))
  | RoundedPathDrawer, m_downRight =>
      Some (fun self size => down (size / 2) ++ downRightArc (size / 2) ++ right (size / 2))
  | RoundedPathDrawer, m_upLeft =>
      Some (fun self size => up (size / 2) ++ upLeftArc (size / 2) ++ left (size / 2))
  | RoundedPathDrawer, m_downU =>
      Some (fun self size => down (size / 2) ++ bottomUArc size ++ up (size / 2))
  | RoundedPathDrawer, m_leftU =>
      Some (fun self size => left (size / 2) ++ leftUArc size ++ right (size / 2))
  | RoundedPathDrawer, m_rightU =>
      Some (fun self size => right (size / 2) ++ rightUArc size ++ left (size / 2))
  | RoundedPathDrawer, m_upU =>
      Some (fun self size => up (size / 2) ++ topUArc size ++ down (size / 2))
  | RoundedPathDrawer, m_singleDot =>
      Some (fun self size => [Cm (Plus (size / 2)) Zero] ++ leftUArc size ++ rightUArc size)
  | ExtraRoundedPathDrawer, m_rightUp => Some (fun self size => rightUpArc size)
  | ExtraRoundedPathDrawer, m_leftDown => Some (fun self size => leftDownArc size)
  | ExtraRoundedPathDrawer, m_downRight => Some (fun self size => downRightArc size)
  | ExtraRoundedPathDrawer, m_upLeft => Some (fun self size => upLeftArc size)
  | _, _ => None
  end.

Fixpoint lookupMethod (chain : list drawerClass) (m : method) : option body :=
  match chain with
  | [] => None
  | c :: chain' =>
      match declares c m with
      | Some b => Some b
      | None => lookupMethod chain' m
      end
  end.

Fixpoint invoke (depth : nat) (d : drawer) (m : method) : list command :=
  match depth with
  | O => []
  | S depth' =>
      match lookupMethod (protoChain (cls d)) m with
      | Some b => b (invoke depth' d) (size d)
      | None => []
      end
  end.

Definition call (d : drawer) (m : method) : list command := invoke 2 d m.

Definition singleDot (d : drawer) : list command := call d m_singleDot.

(** [directions[origin][nextDirection]?.() ?? ""] *)
Definition glyph (d : drawer) (origin next : Directions) : list command :=
  match getDrawDirections origin next with
  | Some m => call d m
  | None => []
  end.

(** The commands appended along a list of moves, the first of them made
    on arrival from [o]. *)
Fixpoint glyphsAlong (d : drawer) (o : Directions) (ms : list Directions)
    : list command :=
  match ms with
  | [] => []
  | n :: ms' => glyph d o n ++ glyphsAlong d (opposite n) ms'
  end.

(** The relative move-to that [renderComponentToPath] puts after the
    absolute one, by the initial orientation. *)
Definition startMove (dotSize : Q) (o : Directions) : list command :=
  match o with
  | Right => [Cm (Plus dotSize) Zero]
  | Bottom => [Cm (Plus dotSize) (Plus dotSize)]
  | _ => []
  end.

End Pen.

(** The corner of a cell where the pen stands when the cell was entered
    from the side [o], as the offset (columns, rows) from the top left
    corner of the cell: the walk starts on the top left corner with the
    orientation ["top"], after [m dotSize 0] with ["right"] and after
    [m dotSize dotSize] with ["bottom"]. *)
Definition penCorner (o : Directions) : Z * Z :=
  match o with
  | Top => (0, 0)%Z
  | Right => (1, 0)%Z
  | Bottom => (1, 1)%Z
  | Left => (0, 1)%Z
  end.

(** The grid point (x, y), in modules, of the pen in a state of the walk. *)
Definition penPoint (s : (Z * Z) * Directions) : Z * Z :=
  (s.1.2 + (penCorner s.2).1, s.1.1 + (penCorner s.2).2)%Z.

(** * The masks

    From [src/core/QRSVGBuilder.ts]: the constants [squareMask] and
    [dotMask], [buildDotsMask] with its [filter], and [drawSingleDots]
    with [createCircleElement] of [src/tools/path.utils.ts]. *)

Definition squareMask : list (list bool) :=
  [[true; true; true; true; true; true; true];
   [true; false; false; false; false; false; true];
   [true; false; false; false; false; false; true];
   [true; false; false; false; false; false; true];
   [true; false; false; false; false; false; true];
   [true; false; false; false; false; false; true];
   [true; true; true; true; true; true; true]].

Definition dotMask : list (list bool) :=
  [[false; false; false; false; false; false; false];
   [false; false; false; false; false; false; false];
   [false; false; true; true; true; false; false];
   [false; false; true; true; true; false; false];
   [false; false; true; true; true; false; false];
   [false; false; false; false; false; false; false];
   [false; false; false; false; false; false; false]].

(** Of [ImageSizeResult], the two fields that [buildDotsMask] reads. *)
Record ImageSizeResult := { hideXDots : Q; hideYDots : Q }.

(** [this._options.shape] *)
Inductive shapeType := shape_square | shape_circle.

Module DotsMask.
Section DotsMask.
Variable isDark : Q -> Q -> bool.          (* this._qr.isDark *)
Variable count : Z.                        (* this.moduleCount() *)
Variable hideBackgroundDots : bool.        (* imageOptions.hideBackgroundDots *)
Variable centerImageSize : ImageSizeResult.

(** The arrow function [filter] of [buildDotsMask]. *)
Definition filter (row col : Z) : bool :=
  if hideBackgroundDots
     && Qle_bool ((inject_Z count - hideYDots centerImageSize) / 2) (inject_Z row)
     && negb (Qle_bool ((inject_Z count + hideYDots centerImageSize) / 2) (inject_Z row))
     && Qle_bool ((inject_Z count - hideXDots centerImageSize) / 2) (inject_Z col)
     && negb (Qle_bool ((inject_Z count + hideXDots centerImageSize) / 2) (inject_Z col))
  then false
  else if maskOrFalse squareMask row col
          || maskOrFalse squareMask (row - count + 7) col
          || maskOrFalse squareMask row (col - count + 7)
  then false
  else if maskOrFalse dotMask row col
          || maskOrFalse dotMask (row - count + 7) col
          || maskOrFalse dotMask row (col - count + 7)
  then false
  else true.

(** The [mask] that the two loops fill. *)
Definition plainMask : list (list bool) :=
  (fun row => (fun col => isDark (inject_Z (Z.of_nat row)) (inject_Z (Z.of_nat col))
                          && filter (Z.of_nat row) (Z.of_nat col))
              <$> seq 0 (Z.to_nat count))
  <$> seq 0 (Z.to_nat count).

(** [buildDotsMask]; [padding] is the number from which
    [expandDotsMaskWithCircle] takes its [additionalDots], as in its
    embedding. *)
Definition buildDotsMask (shape : shapeType) (roundSize : bool) (padding : Q)
    : list (list bool) :=
  match shape with
  | shape_circle => expandDotsMaskWithCircle isDark roundSize plainMask count padding
  | shape_square => plainMask
  end.

End DotsMask.
End DotsMask.

(** An element of the document: its tag and its attributes in the order
    they were set. *)
Record element := Element { tagName : string; attributes : list (string * string) }.

(** [e.setAttribute(name, value)] *)
Fixpoint setAttributeIn (attrs : list (string * string)) (name value : string)
    : list (string * string) :=
  match attrs with
  | [] => [(name, value)]
  | (n, v) :: attrs' =>
      if String.eqb n name then (n, value) :: attrs'
      else (n, v) :: setAttributeIn attrs' name value
  end.

Definition setAttribute (e : element) (name value : string) : element :=
  Element (tagName e) (setAttributeIn (attributes e) name value).

Section SingleDots.
Variable str : Q -> string.
Variable dotSize : Q.

(** [createCircleElement] *)
Definition createCircleElement (offset : Q * Q) (size : Q) : element :=
  let element := Element "circle" [] in
  let element := setAttribute element "cx" (str (offset.1 + size / 2)) in
  let element := setAttribute element "cy" (str (offset.2 + size / 2)) in
  setAttribute element "r" (str (size / 2)).

(** The body of the inner loop of [drawSingleDots]; [children] are the
    elements appended to [this._element]. *)
Definition drawSingleDot (dotsMask : list (list bool)) (offset : Q * Q)
    (fillColor : string) (row : nat) (children : list element) (col : nat)
    : list element :=
  if maskAt dotsMask row col then
    let x := (offset.1 + inject_Z (Z.of_nat col) * dotSize)%Q in
    let y := (offset.2 + inject_Z (Z.of_nat row) * dotSize)%Q in
    let circle := createCircleElement (x, y) dotSize in
    children ++ [setAttribute circle "fill" fillColor]
  else children.

(** [drawSingleDots]: the elements it appends, in order. *)
Definition drawSingleDots (dotsMask : list (list bool)) (offset : Q * Q)
    (fillColor : string) : list element :=
  foldl (fun children row =>
           foldl (drawSingleDot dotsMask offset fillColor row) children
                 (seq 0 (rowLength dotsMask row)))
        [] (seq 0 (length dotsMask)).

End SingleDots.

(** * Further notions: the places of the masks *)

(** The modules of a finder pattern that the corner masks draw: its frame
    and its centre of three by three modules, by row and column within
    the pattern. *)
Definition finderModule (a b : Z) : bool :=
  bool_decide (0 <= a <= 6)%Z && bool_decide (0 <= b <= 6)%Z
  && (bool_decide (a = 0)%Z || bool_decide (a = 6)%Z
      || bool_decide (b = 0)%Z || bool_decide (b = 6)%Z
      || (bool_decide (2 <= a <= 4)%Z && bool_decide (2 <= b <= 4)%Z)).

(** The modules under the image: the rows and columns within half of
    [hideYDots] and [hideXDots] of the middle. *)
Definition underImage (count : Z) (centerImageSize : ImageSizeResult) (row col : Z)
    : bool :=
  Qle_bool ((inject_Z count - hideYDots centerImageSize) / 2) (inject_Z row)
  && negb (Qle_bool ((inject_Z count + hideYDots centerImageSize) / 2) (inject_Z row))
  && Qle_bool ((inject_Z count - hideXDots centerImageSize) / 2) (inject_Z col)
  && negb (Qle_bool ((inject_Z count + hideXDots centerImageSize) / 2) (inject_Z col)).

(** The index at which [expandDotsMaskWithCircle] samples the code for a
    position [x] of the padding, when the padding is the integer
    [additionalDots]. *)
Definition sampleIndex (count additionalDots x : Z) : Z :=
  if bool_decide (x - 2 * additionalDots < 0)%Z then x
  else if bool_decide (count <= x)%Z then (x - 2 * additionalDots)%Z
  else (x - additionalDots)%Z.

(** The positions that are copied from the mask when the padding is the
    integer [additionalDots]: the footprint and one module around it. *)
Definition inBand (count additionalDots x : Z) : bool :=
  bool_decide (additionalDots - 1 <= x)%Z
  && bool_decide (x <= count + additionalDots * 2 - additionalDots)%Z.

(** The cells of a mask that hold [true], in raster order. *)
Definition darkCells (dotsMask : list (list bool)) : list (nat * nat) :=
  r ← seq 0 (length dotsMask);
  c ← seq 0 (rowLength dotsMask r);
  if maskAt dotsMask r c then [(r, c)] else [].

(** * The elements of the main layer *)

(** [this._options.dotsOptions.type]: ["dots"] or one of the styles of
    [drawerFactory]. *)
Inductive dotType := type_dots | type_style (s : style).

Section MainComponents.
Variable str : Q -> string.
Variable dotSize : Q.

(** The [path] element that the last loop of [drawComponents] appends for
    one compound path. *)
Definition pathElement (fillColor : string) (fullPath : string) : element :=
  let element := Element "path" [] in
  let element := setAttribute element "fill-rule" "evenodd" in
  let element := setAttribute element "d" fullPath in
  setAttribute element "fill" fillColor.

(** The elements that [drawComponents] appends, in order. *)
Definition drawComponentsElements (fuel : nat) (dotsMask : list (list bool))
    (offset : Q * Q) (fillColor : string) (drawer : drawer) : option (list element) :=
  (fun paths : list (nat * string) =>
     (fun p : nat * string => pathElement fillColor p.2) <$> paths)
  <$> drawComponents str dotSize fuel dotsMask offset drawer.

(** [drawMainComponents]: the elements it appends.  [fill] is what
    [createFillColor] returns for the dots and [offset] is the constant
    [offset] that the method computes from the view box. *)
Definition drawMainComponents (fuel : nat) (type : dotType) (fill : option string)
    (offset : Q * Q) (dotsMask : list (list bool)) : option (list element) :=
  let fillColor := default "#000" fill in
  match type with
  | type_dots => Some (drawSingleDots str dotSize dotsMask offset fillColor)
  | type_style s =>
      drawComponentsElements fuel dotsMask offset fillColor (drawerFactory s dotSize)
  end.

End MainComponents.

(** * Notions used to describe the shape of a glyph *)

(** An arc command that is a quarter of a circle of radius [r]: both
    radii are [r], and the end point lies [r] away from the start point
    along each of the two axes. *)
Definition quarterArc (r : Q) (c : Pen.command) : Prop :=
  match c with
  | Pen.Ca rx ry dx dy =>
      rx = r /\ ry = r
      /\ (dx = Pen.Plus r \/ dx = Pen.Minus r)
      /\ (dy = Pen.Plus r \/ dy = Pen.Minus r)
  | _ => False
  end.

Definition isArc (c : Pen.command) : bool :=
  match c with Pen.Ca _ _ _ _ => true | _ => false end.

(** A stroke along one of the axes. *)
Definition axisParallel (c : Pen.command) : bool :=
  match c with Pen.Ch _ | Pen.Cv _ => true | _ => false end.

(** An outline can be a diamond, a square standing on one of its corners
    (with the corners rounded or not), only if none of its strokes runs
    along an axis. *)
Definition diamondLike (cs : list Pen.command) : bool :=
  forallb (fun c => negb (axisParallel c)) cs.

(** The places of the pen after each command of a sequence, for a pen
    that starts at [from]. *)
Fixpoint penTrail (from : Q * Q) (cs : list Pen.command) : list (Q * Q) :=
  match cs with
  | [] => []
  | c :: cs' =>
      let p := (from.1 + (Pen.shift c).1, from.2 + (Pen.shift c).2)%Q in
      p :: penTrail p cs'
  end.

(** Two lists of points that are equal as points of the plane. *)
Definition samePoints (ps qs : list (Q * Q)) : Prop :=
  Forall2 (fun p q => (p.1 == q.1)%Q /\ (p.2 == q.2)%Q) ps qs.


(** * Properties *)

(** ** The drawers *)

Section DrawerFacts.
Variable str : Q -> string.

Lemma classify_count :
  length (filter (fun t => classify t.1 t.2 = Straight) allTransitions) = 4
  /\ length (filter (fun t => classify t.1 t.2 = Turn) allTransitions) = 8
  /\ length (filter (fun t => classify t.1 t.2 = UTurn) allTransitions) = 4.
Proof. by vm_compute. Qed.

Lemma getDrawDirections_null (o n : Directions) :
  getDrawDirections o n = None <-> n = afterOrigin o.
Proof. destruct o, n; simpl; split; (done || congruence). Qed.

Lemma lookupMethod_total (c : drawerClass) (m : method) :
  is_Some (lookupMethod str (protoChain c) m).
Proof. destruct c, m; simpl; eauto. Qed.

End DrawerFacts.

(** C7, as stated, fails: the entry for "arrived from the left, leaves
    toward the bottom" is [null], and the tracer emits nothing for it. *)
Lemma C7_null_turn :
  classify Left Bottom = Turn
  /\ getDrawDirections Left Bottom = None
  /\ glyph showNumber (drawerFactory square 4) Left Bottom = "".
Proof. by vm_compute. Qed.


(** ** The shape expander *)

Lemma inject_Z_sub (a b : Z) : (inject_Z a - inject_Z b)%Q = inject_Z (a - b).
Proof. unfold Qminus, Qplus, Qopp, inject_Z. simpl. f_equal. lia. Qed.

Lemma inject_Z_sub_twice (a b : Z) :
  (inject_Z a - 2 * inject_Z b)%Q = inject_Z (a - 2 * b).
Proof.
  unfold Qminus, Qplus, Qopp, Qmult, inject_Z. simpl. f_equal.
  destruct b; simpl; lia.
Qed.

Lemma Qle_bool_Z (a b : Z) : Qle_bool (inject_Z a) (inject_Z b) = bool_decide (a <= b)%Z.
Proof.
  unfold Qle_bool, inject_Z. simpl. rewrite !Z.mul_1_r.
  destruct (Z.leb_spec a b); [by rewrite bool_decide_eq_true_2|].
  rewrite bool_decide_eq_false_2; [done|lia].
Qed.

Lemma Qle_bool_ext (x y x' y' : Q) :
  (x == x')%Q -> (y == y')%Q -> Qle_bool x y = Qle_bool x' y'.
Proof.
  intros Hx Hy. apply eq_true_iff_eq. rewrite !Qle_bool_iff. by rewrite Hx, Hy.
Qed.

Lemma arrayIndex_Z (q : Q) (z : Z) :
  (q == inject_Z z)%Q ->
  arrayIndex q = if bool_decide (0 <= z)%Z then Some (Z.to_nat z) else None.
Proof.
  intros Hq. unfold arrayIndex.
  assert (Qfloor q = z) as -> by (by rewrite (Qfloor_comp _ _ Hq), Qfloor_Z).
  rewrite (Qle_bool_ext 0 q (inject_Z 0) (inject_Z z)) by done.
  rewrite Qle_bool_Z.
  assert (Qeq_bool q (inject_Z z) = true) as -> by (by apply Qeq_bool_iff).
  by rewrite andb_true_r.
Qed.

Lemma maskOrFalseAt_Z (dotsMask : list (list bool)) (row col : Q) (a b : Z) :
  (row == inject_Z a)%Q -> (col == inject_Z b)%Q ->
  maskOrFalseAt dotsMask row col = maskOrFalse dotsMask a b.
Proof.
  intros Ha Hb. unfold maskOrFalseAt, maskOrFalse.
  rewrite (arrayIndex_Z row a Ha), (arrayIndex_Z col b Hb).
  repeat case_bool_decide; simpl; try done.
  by destruct (dotsMask !! Z.to_nat a).
Qed.

Lemma Qceiling_fakeCount (count p : Z) :
  Qceiling (inject_Z count + inject_Z p * 2) = (count + p * 2)%Z.
Proof.
  rewrite <- (Qceiling_Z (count + p * 2)). apply Qceiling_comp.
  by rewrite inject_Z_plus, inject_Z_mult.
Qed.

Section ExpanderFacts.
Variable isDark : Q -> Q -> bool.
Variable roundSize : bool.

Lemma expandDotsMaskWithCircle_lookup dotsMask (count : Z) (padding : Q) (row col : nat) :
  let additionalDots := _roundSize roundSize padding in
  let side := Z.to_nat (Qceiling (inject_Z count + additionalDots * 2)) in
  row < side -> col < side ->
  expandDotsMaskWithCircle isDark roundSize dotsMask count padding !! row
    ≫= (.!! col)
  = Some (expandedCell isDark roundSize dotsMask count additionalDots
            (Z.of_nat row) (Z.of_nat col)).
Proof.
  intros additionalDots side Hr Hc. unfold expandDotsMaskWithCircle.
  rewrite list_lookup_fmap, lookup_seq_lt by done. simpl.
  by rewrite list_lookup_fmap, lookup_seq_lt.
Qed.

Lemma expandDotsMaskWithCircle_shape dotsMask (count : Z) (padding : Q) :
  let side := Z.to_nat (Qceiling (inject_Z count + _roundSize roundSize padding * 2)) in
  length (expandDotsMaskWithCircle isDark roundSize dotsMask count padding) = side
  /\ Forall (fun r => length r = side)
       (expandDotsMaskWithCircle isDark roundSize dotsMask count padding).
Proof.
  unfold expandDotsMaskWithCircle. split.
  - by rewrite length_fmap, length_seq.
  - apply Forall_fmap, Forall_forall. intros x _. simpl.
    by rewrite length_fmap, length_seq.
Qed.

(** The copy branch for a padding that is an integer. *)
Lemma expandedCell_copy dotsMask (count p row col : Z) :
  (p - 1 <= row <= count + p)%Z -> (p - 1 <= col <= count + p)%Z ->
  expandedCell isDark roundSize dotsMask count (inject_Z p) row col
  = maskOrFalse dotsMask (row - p) (col - p).
Proof.
  intros Hrow Hcol. unfold expandedCell.
  assert (forall x, (p - 1 <= x <= count + p)%Z ->
            Qle_bool (inject_Z p - 1) (inject_Z x)
            && Qle_bool (inject_Z x) (inject_Z count + inject_Z p * 2 - inject_Z p)
            = true) as Hband.
  { intros x Hx. apply andb_true_iff. split; apply Qle_bool_iff.
    - change 1%Q with (inject_Z 1). rewrite inject_Z_sub. rewrite <- Zle_Qle. lia.
    - change 2%Q with (inject_Z 2).
      rewrite <- inject_Z_mult, <- inject_Z_plus, inject_Z_sub, <- Zle_Qle. lia. }
  rewrite <- andb_assoc, (Hband row Hrow). simpl. rewrite (Hband col Hcol).
  apply maskOrFalseAt_Z; by rewrite inject_Z_sub.
Qed.

End ExpanderFacts.




(** ** The step rule *)

Lemma determineNextDirection_spec (origin : Directions)
    (hasLeft hasRight hasTop hasBottom : bool) :
  determineNextDirection origin hasLeft hasRight hasTop hasBottom
  = firstNeighbour origin (flags hasLeft hasRight hasTop hasBottom).
Proof.
  destruct origin, hasLeft, hasRight, hasTop, hasBottom; reflexivity.
Qed.

Lemma nextDirectionAt_spec components componentId (cell : Z * Z) (origin : Directions) :
  nextDirectionAt components componentId cell origin
  = firstNeighbour origin (hasNeighbour components componentId cell).
Proof.
  unfold nextDirectionAt. rewrite determineNextDirection_spec.
  unfold firstNeighbour. generalize (candidatesAfter origin) as l.
  induction l as [|d l IH]; [done|]. simpl. rewrite IH.
  by destruct d.
Qed.

Lemma firstNeighbour_None (o : Directions) (has : Directions -> bool) :
  firstNeighbour o has = None <-> forall d, has d = false.
Proof.
  unfold firstNeighbour. split.
  - intros H d. eapply find_none in H; [done|]. destruct o, d; simpl; tauto.
  - intros H. destruct (find has (candidatesAfter o)) as [d|] eqn:E; [|done].
    apply find_some in E as [_ E]. by rewrite H in E.
Qed.

Lemma firstNeighbour_Some (o : Directions) (has : Directions -> bool) d :
  firstNeighbour o has = Some d -> has d = true.
Proof. unfold firstNeighbour. intros H. by apply find_some in H as [_ H]. Qed.


(** ** Closure of the contour *)

Lemma move_add (c : Z * Z) (d : Directions) :
  move c d = ((c.1 + (move (0, 0)%Z d).1)%Z, (c.2 + (move (0, 0)%Z d).2)%Z).
Proof. destruct c, d; simpl; f_equal; lia. Qed.

Lemma foldl_move_add (c : Z * Z) (ms : list Directions) :
  foldl move c ms = ((c.1 + (displacement ms).1)%Z, (c.2 + (displacement ms).2)%Z).
Proof.
  unfold displacement. induction ms as [|m ms IH] using rev_ind.
  - destruct c; simpl; f_equal; lia.
  - rewrite !foldl_snoc, IH.
    rewrite (move_add (foldl move (0, 0)%Z ms)). rewrite move_add. simpl.
    f_equal; lia.
Qed.

Lemma move_opposite (c : Z * Z) (d : Directions) : move (move c d) (opposite d) = c.
Proof. destruct c, d; simpl; f_equal; lia. Qed.

Lemma continueWalk_false (start : Z * Z) (o0 : Directions) (cur : Z * Z) (o : Directions) :
  continueWalk start o0 cur o = false <-> cur = start /\ o = o0.
Proof.
  unfold continueWalk. destruct start, cur; simpl.
  rewrite !orb_false_iff, !negb_false_iff, !bool_decide_eq_true.
  split; [intros [[-> ->] ->]; done | intros [[= -> ->] ->]; done].
Qed.

Section ClosureFacts.
Variable str : Q -> string.
Variable dotSize : Q.
Variable components : list (list (option nat)).
Variable componentId : nat.
Variable start : Z * Z.
Variable drawer : drawer.
Variable o0 : Directions.

Local Abbreviation walkInv := (walkInv components componentId start o0).

Lemma walkLoop_closed (fuel : nat) (st0 st : walkState) :
  walkInv st0 ->
  walkLoop str fuel componentId components start drawer o0 st0 = Some st ->
  (moves st = [] /\ moves st0 = []
   /\ nextDirectionAt components componentId start o0 = None
   /\ path st = path st0 +:+ singleDot str drawer)
  \/ (moves st <> [] /\ current st = start /\ origin st = o0
      /\ stateAfter start (moves st) o0 = (start, o0)
      /\ (forall k, 0 < k < length (moves st) ->
                    stateAfter start (take k (moves st)) o0 <> (start, o0))).
Proof.
  revert st0. induction fuel as [|fuel IH]; intros st0 Hinv Hrun; [done|].
  simpl in Hrun. destruct Hinv as (Hst & Hin & Hback & Hno).
  destruct (nextDirectionAt components componentId (current st0) (origin st0))
    as [nd|] eqn:Hnd.
  - set (st' := WalkState (path st0 +:+ glyph str drawer (origin st0) nd) (opposite nd)
                  (move (current st0) nd) (moves st0 ++ [nd])) in *.
    assert ((current st', origin st') = stateAfter start (moves st') o0) as Hst'.
    { unfold stateAfter, st'. simpl. rewrite foldl_snoc, last_snoc. simpl.
      injection Hst as -> _. done. }
    change (move (current st0) nd) with (current st') in Hrun.
    change (opposite nd) with (origin st') in Hrun.
    destruct (continueWalk start o0 (current st') (origin st')) eqn:Hc.
    + enough (walkInv st') as Hinv'.
      { destruct (IH st' Hinv' Hrun) as [(_ & Hnil & _) | Hright]; [|by right].
        unfold st' in Hnil. simpl in Hnil. by destruct (moves st0). }
      rewrite nextDirectionAt_spec in Hnd. apply firstNeighbour_Some in Hnd.
      split; [done|]. split; [apply Hnd|]. split.
      * intros _. unfold hasNeighbour, st'. simpl. by rewrite move_opposite.
      * intros k Hk. unfold st' in Hk |- *. simpl in Hk |- *.
        rewrite length_app in Hk. simpl in Hk.
        destruct (decide (k <= length (moves st0))) as [Hle|Hgt].
        -- rewrite take_app_le by lia. apply Hno. lia.
        -- rewrite take_ge by (rewrite length_app; simpl; lia).
           change (moves st0 ++ [nd]) with (moves st'). rewrite <- Hst'.
           intros [= E1 E2].
           assert (continueWalk start o0 (current st') (origin st') = false) as Hf.
           { apply continueWalk_false. done. }
           congruence.
    + injection Hrun as <-. right.
      apply continueWalk_false in Hc as [Hc1 Hc2].
      split; [unfold st'; simpl; by destruct (moves st0)|].
      split; [done|]. split; [done|]. split; [by rewrite <- Hst', Hc1, Hc2|].
      intros k Hk. unfold st' in Hk |- *. simpl in Hk |- *.
      rewrite length_app in Hk. simpl in Hk.
      rewrite take_app_le by lia. apply Hno. lia.
  - injection Hrun as <-. simpl. left.
    rewrite nextDirectionAt_spec in Hnd.
    destruct (moves st0) as [|m ms] eqn:Hms.
    + unfold stateAfter in Hst. simpl in Hst.
      injection Hst as E1 E2. rewrite nextDirectionAt_spec, <- E1, <- E2. done.
    + exfalso. specialize (Hback ltac:(done)).
      pose proof (proj1 (firstNeighbour_None _ _) Hnd (origin st0)). congruence.
Qed.

End ClosureFacts.

Lemma walkInit_inv str dotSize components componentId offset (start : Z * Z) moveRight :
  isComponent components start.1 start.2 componentId = true ->
  let st := walkInit str dotSize componentId components offset start moveRight in
  walkInv components componentId start (origin st) st /\ moves st = [].
Proof.
  intros Hin. unfold walkInit.
  repeat case_match; (split; [|done]); (split; [done|]); (split; [done|]); simpl;
    (split; [done|]); intros k Hk; lia.
Qed.

(** C3.  For a start cell that has the component id: when the walk of
    [renderComponentToPath] returns, either it made no move (the single-dot
    case), or it is back on the start cell with the arrival direction it
    began with, and no earlier state after a move was that state: in
    particular it went on whenever it stood on the start cell with another
    arrival direction.  In both cases the moves made add up to no
    displacement, horizontally and vertically.  The condition of the loop is
    false exactly on the start cell with the original arrival direction. *)
Theorem C3_closed_contour (str : Q -> string) (dotSize : Q) (fuel componentId : nat)
    (components : list (list (option nat))) (offset : Q * Q) (start : Z * Z)
    (drawer : drawer) (moveRight : bool) (st : walkState) :
  isComponent components start.1 start.2 componentId = true ->
  renderWalk str dotSize fuel componentId components offset start drawer moveRight
    = Some st ->
  let o0 := origin (walkInit str dotSize componentId components offset start moveRight) in
  (forall cur o, continueWalk start o0 cur o = false <-> cur = start /\ o = o0)
  /\ (moves st = [] \/ (current st = start /\ origin st = o0))
  /\ (forall k, 0 < k < length (moves st) ->
                stateAfter start (take k (moves st)) o0 <> (start, o0))
  /\ displacement (moves st) = (0, 0)%Z.
Proof.
  intros Hin Hrun o0. split; [apply continueWalk_false|].
  unfold renderWalk in Hrun.
  destruct (walkInit_inv str dotSize components componentId offset start moveRight Hin)
    as [Hinv Hnil].
  destruct (walkLoop_closed _ _ _ _ _ _ _ _ _ Hinv Hrun)
    as [(Hm & _) | (Hne & Hc & Ho & Hs & Hk)].
  - rewrite Hm. split; [by left|]. split; [simpl; intros; lia|done].
  - split; [by right|]. split; [done|].
    unfold stateAfter in Hs. injection Hs as Hs _.
    rewrite foldl_move_add in Hs. destruct start as [r c], (displacement (moves st)) as [a b].
    simpl in Hs. injection Hs as H1 H2. f_equal; lia.
Qed.

Lemma C3_closed_contour_witness :
  displacement
    (moves (WalkState "M 0 0 m 4 0h -4v 4v 4h 4v -4h 4v -4h -4" Right (0, 0)%Z
              [Bottom; Top; Right; Left]))
  = (0, 0)%Z.
Proof.
  refine (proj2 (proj2 (proj2
    (C3_closed_contour showNumber 4 20 2 [[Some 2; Some 2]; [Some 2; None]] (0, 0)%Q
       (0, 0)%Z (drawerFactory square 4) false _ _ _)))).
  - reflexivity.
  - reflexivity.
Defined.

(** On the L-shaped tromino the walk comes back to the start cell after two
    moves with another arrival direction and goes on for two more. *)
Example tromino_passes_start :
  renderWalk showNumber 4 20 2 [[Some 2; Some 2]; [Some 2; None]] (0, 0)%Q (0, 0)%Z
    (drawerFactory square 4) false
  = Some (WalkState "M 0 0 m 4 0h -4v 4v 4h 4v -4h 4v -4h -4" Right (0, 0)%Z
            [Bottom; Top; Right; Left])
  /\ stateAfter (0, 0)%Z [Bottom; Top] Right = ((0, 0)%Z, Bottom).
Proof. by vm_compute. Qed.


(** ** The hole compositor *)

Lemma mapGet_pushTo (m : list (nat * list nat)) (k id k' : nat) :
  default [] (mapGet (pushTo m k id) k')
  = if decide (k = k') then default [] (mapGet m k) ++ [id] else default [] (mapGet m k').
Proof.
  unfold mapGet. induction m as [|[k0 v] m IH]; simpl.
  - destruct (decide (k = k')) as [->|Hne].
    + by rewrite bool_decide_eq_true_2.
    + by rewrite bool_decide_eq_false_2.
  - destruct (decide (k0 = k)) as [->|Hne0].
    + rewrite bool_decide_eq_true_2 by done. simpl.
      destruct (decide (k = k')) as [->|Hne].
      * by rewrite !bool_decide_eq_true_2.
      * by rewrite !bool_decide_eq_false_2.
    + rewrite (bool_decide_eq_false_2 (k0 = k)) by done. simpl.
      destruct (decide (k0 = k')) as [->|Hne1].
      * rewrite bool_decide_eq_true_2 by done. simpl.
        destruct (decide (k = k')); [congruence|done].
      * rewrite bool_decide_eq_false_2 by done. apply IH.
Qed.

Lemma backgroundPathsFor_get components (backgroundIds : idMap) (k : nat) :
  k <> 0 ->
  default [] (mapGet (backgroundPathsFor components backgroundIds) k)
  = (holesOf components backgroundIds k).*1.
Proof.
  intros Hk. unfold backgroundPathsFor, holesOf.
  induction backgroundIds as [|[b s] l IH] using rev_ind; [done|].
  rewrite foldl_snoc, filter_app, fmap_app, <- IH. clear IH.
  unfold registerBackground at 1, surroundingComponentAt, isHoleOf.
  rewrite filter_cons, filter_nil. simpl.
  destruct (decide (0 < s.2)) as [Hs|Hs].
  2:{ rewrite (bool_decide_eq_false_2 (0 < s.2)) by done.
      rewrite decide_False; [by rewrite app_nil_r|].
      rewrite andb_true_iff, !bool_decide_eq_true. tauto. }
  rewrite (bool_decide_eq_true_2 (0 < s.2)) by done.
  destruct (readCell components s.1 (s.2 - 1)) as [sc|] eqn:Hsc.
  2:{ rewrite decide_False; [by rewrite app_nil_r|].
      rewrite andb_true_iff, !bool_decide_eq_true. intros [_ [_ ?]]. done. }
  destruct (decide (sc = 0)) as [->|Hsc0].
  { simpl. rewrite decide_False; [by rewrite app_nil_r|].
    rewrite andb_true_iff, !bool_decide_eq_true. intros [_ [_ ?]]. congruence. }
  rewrite (bool_decide_eq_false_2 (sc = 0)) by done. simpl.
  destruct (decide (b <= 1)) as [Hb|Hb].
  { rewrite (bool_decide_eq_true_2 (b <= 1)) by done.
    rewrite decide_False; [by rewrite app_nil_r|].
    rewrite andb_true_iff, !bool_decide_eq_true. lia. }
  rewrite (bool_decide_eq_false_2 (b <= 1)) by done.
  rewrite mapGet_pushTo.
  destruct (decide (sc = k)) as [->|Hne].
  - rewrite decide_True; [done|].
    rewrite andb_true_iff, !bool_decide_eq_true. split; [lia|done].
  - rewrite decide_False; [by rewrite app_nil_r|].
    rewrite andb_true_iff, !bool_decide_eq_true. intros [_ [_ ?]]. congruence.
Qed.

Lemma mapM_fuse {A B C} (f : A -> option B) (g : B -> option C) (l : list A) :
  mapM f l ≫= mapM g = mapM (fun x => f x ≫= g) l.
Proof.
  induction l as [|x l IH]; [done|].
  cbn. rewrite <- IH.
  destruct (f x) as [y|]; cbn; [|done].
  destruct (mapM f l) as [ys|]; cbn; [done|by destruct (g y)].
Qed.


(** ** Loops over [0 .. n-1] *)

Lemma foldl_seq_inv {A} (P : nat -> A -> Prop) (f : A -> nat -> A) (a : A) (n : nat) :
  P 0 a ->
  (forall i x, i < n -> P i x -> P (S i) (f x i)) ->
  P n (foldl f a (seq 0 n)).
Proof.
  induction n as [|n IH]; intros H0 Hstep; [done|].
  rewrite seq_S, foldl_snoc. simpl. apply Hstep; [lia|].
  apply IH; [done|]. intros i x Hi. apply Hstep. lia.
Qed.

(** ** [Math.min] *)

Lemma foldl_min_le (x : nat) (xs : list nat) :
  foldl Nat.min x xs <= x /\ forall y, y ∈ xs -> foldl Nat.min x xs <= y.
Proof.
  revert x. induction xs as [|z xs IH]; intros x; simpl.
  - split; [lia|]. intros y Hy. by apply elem_of_nil in Hy.
  - destruct (IH (x `min` z)) as [H1 H2]. split; [lia|].
    intros y Hy. apply elem_of_cons in Hy as [->|Hy]; [lia|by apply H2].
Qed.

Lemma foldl_min_in (x : nat) (xs : list nat) :
  foldl Nat.min x xs = x \/ foldl Nat.min x xs ∈ xs.
Proof.
  revert x. induction xs as [|z xs IH]; intros x; simpl; [by left|].
  destruct (IH (x `min` z)) as [H|H].
  - rewrite H. destruct (Nat.min_spec x z) as [[_ ->]|[_ ->]]; [by left|].
    right. apply elem_of_cons. by left.
  - right. apply elem_of_cons. by right.
Qed.

Lemma mathMin_le (xs : list nat) (y : nat) : y ∈ xs -> mathMin xs <= y.
Proof.
  destruct xs as [|x xs]; [intros H; by apply elem_of_nil in H|].
  simpl. destruct (foldl_min_le x xs) as [H1 H2].
  intros Hy. apply elem_of_cons in Hy as [->|Hy]; [done|by apply H2].
Qed.

Lemma mathMin_in (xs : list nat) : xs <> [] -> mathMin xs ∈ xs.
Proof.
  destruct xs as [|x xs]; [done|]. intros _. simpl.
  destruct (foldl_min_in x xs) as [->|H]; apply elem_of_cons; [by left|by right].
Qed.

Lemma mathMin_unique (xs ys : list nat) :
  xs <> [] -> (forall y, y ∈ xs <-> y ∈ ys) -> mathMin xs = mathMin ys.
Proof.
  intros Hne Hiff.
  assert (ys <> []) as Hne'.
  { destruct xs as [|x xs]; [done|]. intros ->.
    eapply elem_of_nil, Hiff, elem_of_cons. by left. }
  apply Nat.le_antisymm.
  - apply mathMin_le, Hiff, mathMin_in, Hne'.
  - apply mathMin_le, Hiff, mathMin_in, Hne.
Qed.

(** ** The store of equivalence classes *)

Lemma setAt_lookup sets a x : x ∈ setAt sets a -> a < length sets.
Proof.
  unfold setAt. destruct (sets !! a) eqn:E.
  - intros _. by eapply lookup_lt_Some.
  - intros H. by apply elem_of_nil in H.
Qed.

Lemma setAt_app_l sets extra a : a < length sets -> setAt (sets ++ extra) a = setAt sets a.
Proof. intros H. unfold setAt. by rewrite lookup_app_l. Qed.

Lemma setAt_setAdd sets a x b :
  a < length sets ->
  forall y, y ∈ setAt (setAdd sets a x) b
            <-> y ∈ setAt sets b \/ (b = a /\ y = x).
Proof.
  intros Ha y. unfold setAdd. destruct (decide (x ∈ setAt sets a)) as [Hin|Hnin].
  - split; [by left|]. intros [H|[-> ->]]; done.
  - unfold setAt at 1. destruct (decide (b = a)) as [->|Hne].
    + rewrite list_lookup_insert_eq by done. rewrite elem_of_app, list_elem_of_singleton.
      split; [intros [H|H]; [by left|by right]|intros [H|[_ H]]; [by left|by right]].
    + rewrite list_lookup_insert_ne by done. fold (setAt sets b).
      split; [by left|]. intros [H|[H _]]; done.
Qed.

Lemma length_setAdd sets a x : length (setAdd sets a x) = length sets.
Proof. unfold setAdd. case_decide; [done|]. by rewrite length_insert. Qed.

Section Store.
Implicit Types e : equivStore.

Lemma sameClass_refl e i : storeInv e -> sameClass e i i.
Proof.
  intros [H1 _]. unfold sameClass, classOf.
  destruct (equivalences e !! i) as [a|] eqn:E; [by apply H1|].
  by apply list_elem_of_singleton.
Qed.

Lemma classOf_eq e i j : storeInv e -> sameClass e i j -> classOf e j = classOf e i.
Proof.
  intros [H1 H2]. unfold sameClass, classOf.
  destruct (equivalences e !! i) as [a|] eqn:E.
  - intros Hj. by rewrite (H2 i a j E Hj).
  - intros Hj. apply list_elem_of_singleton in Hj as ->. by rewrite E.
Qed.

Lemma sameClass_sym e i j : storeInv e -> sameClass e i j -> sameClass e j i.
Proof.
  intros Hinv Hij. unfold sameClass. rewrite (classOf_eq e i j Hinv Hij).
  by apply sameClass_refl.
Qed.

Lemma sameClass_trans e i j k :
  storeInv e -> sameClass e i j -> sameClass e j k -> sameClass e i k.
Proof.
  intros Hinv Hij Hjk. unfold sameClass in *. by rewrite <- (classOf_eq e i j Hinv Hij).
Qed.

Lemma classOf_nonempty e i : storeInv e -> classOf e i <> [].
Proof.
  intros Hinv Hnil. pose proof (sameClass_refl e i Hinv) as H.
  unfold sameClass in H. rewrite Hnil in H. by apply elem_of_nil in H.
Qed.

Lemma classOf_min e i j :
  storeInv e -> sameClass e i j -> mathMin (classOf e i) = mathMin (classOf e j).
Proof. intros Hinv Hij. by rewrite (classOf_eq e i j Hinv Hij). Qed.

(** [ensureClass] leaves every class as it is. *)
Lemma ensureClass_spec m e :
  storeInv e ->
  storeInv (ensureClass m e)
  /\ is_Some (equivalences (ensureClass m e) !! m)
  /\ forall x, classOf (ensureClass m e) x = classOf e x.
Proof.
  intros Hinv. unfold ensureClass.
  destruct (equivalences e !! m) as [a|] eqn:E.
  { split; [done|]. split; [by rewrite E|done]. }
  destruct Hinv as [H1 H2].
  assert (forall x, classOf (EquivStore (<[m:=length (sets e)]> (equivalences e))
                                (sets e ++ [[m]])) x = classOf e x) as Hcls.
  { intros x. unfold classOf. simpl. destruct (decide (x = m)) as [->|Hne].
    - rewrite lookup_insert_eq, E. unfold setAt.
      by rewrite lookup_app_r, Nat.sub_diag by lia.
    - rewrite lookup_insert_ne by done.
      destruct (equivalences e !! x) as [a|] eqn:Ex; [|done].
      apply setAt_app_l. apply (setAt_lookup _ _ x). by apply H1. }
  split; [|split; [simpl; rewrite lookup_insert_eq; by eexists|done]].
  split; simpl.
  - intros k a Hk. pose proof (Hcls k) as Hc. unfold classOf in Hc. simpl in Hc.
    rewrite Hk in Hc. rewrite Hc.
    destruct (decide (k = m)) as [->|Hne].
    + rewrite E. by apply list_elem_of_singleton.
    + rewrite lookup_insert_ne in Hk by done. rewrite Hk. by apply H1.
  - intros k a x Hk Hx. destruct (decide (k = m)) as [->|Hne].
    + rewrite lookup_insert_eq in Hk. injection Hk as <-.
      unfold setAt in Hx. rewrite lookup_app_r, Nat.sub_diag in Hx by lia.
      simpl in Hx. apply list_elem_of_singleton in Hx as ->. apply lookup_insert_eq.
    + rewrite lookup_insert_ne in Hk by done.
      rewrite setAt_app_l in Hx by (apply (setAt_lookup _ _ k); by apply H1).
      pose proof (H2 k a x Hk Hx) as Hxa.
      rewrite lookup_insert_ne; [done|]. intros <-. congruence.
Qed.

(** The inner loop of [mergeId]. *)
Lemma mergeLoop_spec cls (ms : list nat) e :
  cls < length (sets e) ->
  let e' := foldl (fun e' equivalenceId =>
                     EquivStore (<[equivalenceId := cls]> (equivalences e'))
                                (setAdd (sets e') cls equivalenceId)) e ms in
  length (sets e') = length (sets e)
  /\ (forall k, equivalences e' !! k
                = if decide (k ∈ ms) then Some cls else equivalences e !! k)
  /\ (forall a y, y ∈ setAt (sets e') a
                  <-> y ∈ setAt (sets e) a \/ (a = cls /\ y ∈ ms)).
Proof.
  intros Hcls. induction ms as [|x ms IH] using rev_ind; simpl.
  - split; [done|]. split.
    + done.
    + intros a y. split; [by left|]. intros [H|[_ H]]; [done|]. by apply elem_of_nil in H.
  - rewrite foldl_snoc. simpl in IH. destruct IH as (IH1 & IH2 & IH3). simpl.
    split; [by rewrite length_setAdd|]. split.
    + intros k. destruct (decide (k = x)) as [->|Hne].
      * rewrite lookup_insert_eq. rewrite decide_True; [done|].
        apply elem_of_app. right. by apply list_elem_of_singleton.
      * rewrite lookup_insert_ne by done. rewrite IH2.
        destruct (decide (k ∈ ms)) as [Hin|Hnin].
        -- rewrite decide_True; [done|]. apply elem_of_app. by left.
        -- rewrite decide_False; [done|]. rewrite elem_of_app, list_elem_of_singleton.
           tauto.
    + intros a y. rewrite setAt_setAdd by lia. rewrite IH3.
      rewrite elem_of_app, list_elem_of_singleton. tauto.
Qed.

(** [mergeId] joins the class of [id] to the class kept at [cls]. *)
Lemma mergeId_spec cls m id e :
  storeInv e ->
  equivalences e !! m = Some cls ->
  let e' := mergeId cls e id in
  storeInv e'
  /\ equivalences e' !! m = Some cls
  /\ (forall x y, sameClass e' x y
                  <-> sameClass e x y
                      \/ ((sameClass e m x \/ sameClass e id x)
                          /\ (sameClass e m y \/ sameClass e id y))).
Proof.
  intros Hinv Hm. pose proof Hinv as [H1 H2].
  assert (classOf e m = setAt (sets e) cls) as Hclsm.
  { unfold classOf. by rewrite Hm. }
  unfold mergeId. destruct (decide (id ∈ setAt (sets e) cls)) as [Hin|Hnin]; simpl.
  { split; [done|]. split; [done|]. intros x y. split; [by left|].
    intros [H|[Hx Hy]]; [done|].
    assert (sameClass e m id) as Hmid by (unfold sameClass; by rewrite Hclsm).
    assert (sameClass e m x) as Hmx.
    { destruct Hx as [Hx|Hx]; [done|]. by apply (sameClass_trans e m id x). }
    assert (sameClass e m y) as Hmy.
    { destruct Hy as [Hy|Hy]; [done|]. by apply (sameClass_trans e m id y). }
    apply (sameClass_trans e x m y); [done| |done]. by apply sameClass_sym. }
  assert (cls < length (sets e)) as Hlt.
  { apply (setAt_lookup _ _ m). by apply H1. }
  destruct (mergeLoop_spec cls (classOf e id) e Hlt) as (HL & HE & HS).
  set (e' := foldl _ e (classOf e id)) in *.
  assert (forall k, k ∈ classOf e id -> equivalences e !! k <> Some cls) as Hdisj.
  { intros k Hk Hkc. apply Hnin. rewrite <- Hclsm.
    assert (sameClass e k m) as Hkm.
    { unfold sameClass, classOf. rewrite Hkc. by apply H1. }
    change (sameClass e m id). apply sameClass_sym; [done|].
    by apply (sameClass_trans e id k m). }
  assert (forall x, (x ∈ setAt (sets e) cls \/ x ∈ classOf e id) ->
                    forall y, y ∈ classOf e' x
                              <-> (y ∈ setAt (sets e) cls \/ y ∈ classOf e id)) as Hjoin.
  { intros x Hx y. unfold classOf at 1. rewrite HE.
    destruct (decide (x ∈ classOf e id)) as [Hxid|Hxid].
    - rewrite HS. tauto.
    - destruct Hx as [Hx|Hx]; [|done]. rewrite (H2 m cls x Hm Hx), HS. tauto. }
  assert (forall x, ~ (x ∈ setAt (sets e) cls \/ x ∈ classOf e id) ->
                    forall y, y ∈ classOf e' x <-> y ∈ classOf e x) as Hother.
  { intros x Hx y. unfold classOf. rewrite HE.
    rewrite decide_False by tauto.
    destruct (equivalences e !! x) as [a|] eqn:Ex; [|done].
    rewrite HS. split; [|by left]. intros [H|[-> _]]; [done|].
    exfalso. apply Hx. left. by apply H1. }
  split; [|split].
  - split.
    + intros k a Hk. rewrite HE in Hk. rewrite HS.
      destruct (decide (k ∈ classOf e id)) as [Hkid|Hkid].
      * injection Hk as <-. by right.
      * left. by apply H1.
    + intros k a x Hk Hx. rewrite HE in Hk. rewrite HS in Hx. rewrite HE.
      destruct (decide (k ∈ classOf e id)) as [Hkid|Hkid].
      * injection Hk as <-. destruct (decide (x ∈ classOf e id)); [done|].
        destruct Hx as [Hx|[_ Hx]]; [|done]. by apply (H2 m).
      * destruct Hx as [Hx|[-> Hx]].
        -- pose proof (H2 k a x Hk Hx) as Hxa.
           rewrite decide_False; [done|]. intros Hxid. apply Hkid.
           change (sameClass e id k).
           apply (sameClass_trans e id x k); [done|exact Hxid|].
           unfold sameClass, classOf. rewrite Hxa. by apply H1.
        -- by rewrite decide_True.
  - rewrite HE. rewrite decide_False; [done|]. intros Hmid. by eapply Hdisj.
  - intros x y. unfold sameClass. rewrite Hclsm.
    destruct (decide (x ∈ setAt (sets e) cls \/ x ∈ classOf e id)) as [Hx|Hx].
    + rewrite (Hjoin x Hx). split; [by right|].
      intros [H|[_ H]]; [|done].
      destruct Hx as [Hx|Hx].
      * left. rewrite <- Hclsm in Hx |- *. by apply (sameClass_trans e m x y).
      * right. by apply (sameClass_trans e id x y).
    + rewrite (Hother x Hx). split; [by left|]. intros [H|[H _]]; [done|tauto].
Qed.

End Store.


(** ** The union step *)

Lemma rtsc_subrel {A} (R S : relation A) x y :
  (forall a b, R a b -> rtsc S a b) -> rtsc R x y -> rtsc S x y.
Proof.
  intros Hsub H. induction H as [x|x y z Hxy _ IH]; [reflexivity|].
  etrans; [|exact IH]. destruct Hxy as [Hxy|Hxy].
  - by apply Hsub.
  - symmetry. by apply Hsub.
Qed.

Lemma rtsc_into_equiv {A} (R E : relation A) x y :
  (forall a, E a a) -> (forall a b, E a b -> E b a) ->
  (forall a b c, E a b -> E b c -> E a c) ->
  (forall a b, R a b -> E a b) -> rtsc R x y -> E x y.
Proof.
  intros Hr Hs Ht Hsub H. induction H as [x|x y z Hxy _ IH]; [apply Hr|].
  apply (Ht x y z); [|done]. destruct Hxy as [Hxy|Hxy]; [by apply Hsub|].
  by apply Hs, Hsub.
Qed.

Lemma mergeIds_spec cls m (V vs : list nat) e (L' : relation nat) :
  storeInv e ->
  equivalences e !! m = Some cls ->
  m ∈ V -> (forall v, v ∈ vs -> v ∈ V) ->
  (forall i j, i ∈ V -> j ∈ V -> L' i j) ->
  (forall i j, sameClass e i j -> rtsc L' i j) ->
  let e' := foldl (mergeId cls) e vs in
  storeInv e'
  /\ equivalences e' !! m = Some cls
  /\ (forall i j, sameClass e' i j -> rtsc L' i j)
  /\ (forall i j, sameClass e i j -> sameClass e' i j)
  /\ (forall v, v ∈ vs -> sameClass e' m v).
Proof.
  intros Hinv Hm HmV Hvs HL Hsound. induction vs as [|id vs IH] using rev_ind; simpl.
  - split; [done|]. split; [done|]. split; [done|]. split; [done|].
    intros v Hv. by apply elem_of_nil in Hv.
  - rewrite foldl_snoc.
    destruct IH as (IH1 & IH2 & IH3 & IH4 & IH5).
    { intros v Hv. apply Hvs, elem_of_app. by left. }
    set (ek := foldl (mergeId cls) e vs) in *.
    destruct (mergeId_spec cls m id ek IH1 IH2) as (S1 & S2 & S3).
    assert (id ∈ V) as HidV.
    { apply Hvs, elem_of_app. right. by apply list_elem_of_singleton. }
    split; [done|]. split; [done|]. split; [|split].
    + intros i j Hij. apply S3 in Hij as [Hij|[Hi Hj]]; [by apply IH3|].
      assert (forall x, sameClass ek m x \/ sameClass ek id x -> rtsc L' m x) as Hto.
      { intros x [Hx|Hx]; [by apply IH3|].
        etrans; [apply rtsc_lr, (HL m id HmV HidV)|by apply IH3]. }
      etrans; [symmetry; by apply Hto|by apply Hto].
    + intros i j Hij. apply S3. left. by apply IH4.
    + intros v Hv. apply S3. apply elem_of_app in Hv as [Hv|Hv].
      * left. by apply IH5.
      * apply list_elem_of_singleton in Hv as ->. right.
        split; [left|right]; by apply sameClass_refl.
Qed.

Lemma recordEquivalence_spec m (V : list nat) e (L L' : relation nat) :
  storeInv e ->
  m ∈ V ->
  (forall i j, sameClass e i j <-> rtsc L i j) ->
  (forall i j, L' i j <-> L i j \/ (i ∈ V /\ j ∈ V)) ->
  storeInv (recordEquivalence m V e)
  /\ (forall i j, sameClass (recordEquivalence m V e) i j <-> rtsc L' i j).
Proof.
  intros Hinv HmV HL HL'. unfold recordEquivalence.
  destruct (ensureClass_spec m e Hinv) as (E1 & [cls E2] & E3).
  rewrite E2.
  destruct (mergeIds_spec cls m V V (ensureClass m e) L' E1 E2 HmV) as (M1 & M2 & M3 & M4 & M5).
  { done. }
  { intros i j Hi Hj. apply HL'. by right. }
  { intros i j Hij. unfold sameClass in Hij. rewrite E3 in Hij.
    apply HL in Hij. eapply rtsc_subrel; [|exact Hij].
    intros a b Hab. apply rtsc_lr, HL'. by left. }
  split; [done|]. intros i j. split; [apply M3|].
  apply rtsc_into_equiv.
  - intros a. by apply sameClass_refl.
  - intros a b. by apply sameClass_sym.
  - intros a b c. by apply sameClass_trans.
  - intros a b Hab. apply HL' in Hab as [Hab|[Ha Hb]].
    + apply M4. unfold sameClass. rewrite E3. apply HL. by apply rtsc_lr.
    + apply (sameClass_trans _ a m b); [done| |by apply M5].
      apply sameClass_sym; [done|]. by apply M5.
Qed.

(** ** Reading and writing the label map *)

Lemma readCell_app_nil components r c :
  readCell (components ++ [[]]) r c = readCell components r c.
Proof.
  unfold readCell. destruct (decide (r < length components)) as [Hlt|Hge].
  - by rewrite lookup_app_l.
  - rewrite lookup_app_r by lia. rewrite (lookup_ge_None_2 components) by lia.
    destruct (r - length components) as [|n]; simpl; [by destruct c|done].
Qed.

Lemma arraySet_end {A} (hole : A) (a : list A) (x : A) :
  arraySet hole a (length a) x = a ++ [x].
Proof.
  unfold arraySet. rewrite decide_False by lia. by rewrite Nat.sub_diag.
Qed.

Lemma readCell_writeCell components r c v row r' c' :
  components !! r = Some row -> length row = c ->
  readCell (writeCell components r c v) r' c'
  = if decide (r' = r /\ c' = c) then v else readCell components r' c'.
Proof.
  intros Hrow Hlen. unfold writeCell. rewrite Hrow. subst c.
  rewrite arraySet_end. unfold readCell.
  destruct (decide (r' = r)) as [->|Hne].
  - rewrite list_lookup_insert_eq by (by eapply lookup_lt_Some). rewrite Hrow.
    destruct (decide (c' = length row)) as [->|Hc].
    + rewrite decide_True by done. by rewrite lookup_app_r, Nat.sub_diag by lia.
    + rewrite decide_False by tauto.
      destruct (decide (c' < length row)).
      * by rewrite lookup_app_l.
      * rewrite lookup_app_r by lia. rewrite (lookup_ge_None_2 row) by lia.
        destruct (c' - length row) as [|k] eqn:E; [lia|done].
  - rewrite decide_False by tauto. by rewrite list_lookup_insert_ne.
Qed.

Lemma rowLength_writeCell components r c v row r' :
  components !! r = Some row -> length row = c ->
  rowLength (writeCell components r c v) r'
  = if decide (r' = r) then S c else rowLength components r'.
Proof.
  intros Hrow Hlen. unfold writeCell. rewrite Hrow. subst c.
  rewrite arraySet_end. unfold rowLength.
  destruct (decide (r' = r)) as [->|Hne].
  - rewrite list_lookup_insert_eq by (by eapply lookup_lt_Some).
    rewrite length_app. simpl. lia.
  - by rewrite list_lookup_insert_ne.
Qed.

Lemma length_writeCell components r c v :
  length (writeCell components r c v) = length components.
Proof. unfold writeCell. case_match; [|done]. by rewrite length_insert. Qed.

(** ** The valid ids of a cell *)

Lemma validIdsAt_ext dotsMask conn components1 components2 r c :
  (forall r' c', before r c r' c' ->
                 readCell components1 r' c' = readCell components2 r' c') ->
  validIdsAt dotsMask conn components1 r c = validIdsAt dotsMask conn components2 r c.
Proof.
  intros H. unfold validIdsAt.
  assert ((if bool_decide (0 < c) then readCell components1 r (c - 1) else None)
          = (if bool_decide (0 < c) then readCell components2 r (c - 1) else None)) as ->.
  { case_bool_decide; [|done]. apply H. right. lia. }
  assert ((if bool_decide (0 < r) then readCell components1 (r - 1) c else None)
          = (if bool_decide (0 < r) then readCell components2 (r - 1) c else None)) as ->.
  { case_bool_decide; [|done]. apply H. left. lia. }
  assert ((if bool_decide (0 < c) && bool_decide (0 < r) && bool_decide (conn = Conn8)
           then readCell components1 (r - 1) (c - 1) else None)
          = (if bool_decide (0 < c) && bool_decide (0 < r) && bool_decide (conn = Conn8)
             then readCell components2 (r - 1) (c - 1) else None)) as ->.
  { destruct (bool_decide (0 < c)); [|done]. case_bool_decide; [|done].
    simpl. case_match; [|done]. apply H. left. lia. }
  assert ((if bool_decide (c < length dotsMask - 1) && bool_decide (0 < r)
              && bool_decide (conn = Conn8)
           then readCell components1 (r - 1) (c + 1) else None)
          = (if bool_decide (c < length dotsMask - 1) && bool_decide (0 < r)
                && bool_decide (conn = Conn8)
             then readCell components2 (r - 1) (c + 1) else None)) as ->.
  { destruct (bool_decide (c < length dotsMask - 1)); [|done]. case_bool_decide; [|done].
    simpl. case_match; [|done]. apply H. left. lia. }
  done.
Qed.

Lemma validIdsAt_elem dotsMask conn components r c v :
  v ∈ validIdsAt dotsMask conn components r c
  <-> (exists r' c', scannedNeighbour conn r c r' c'
                     /\ (c' = S c -> c < length dotsMask - 1)
                     /\ readCell components r' c' = Some v)
      \/ (conn = Conn8 /\ v = 1 /\ onEdge dotsMask r c).
Proof.
  unfold validIdsAt. rewrite list_elem_of_omap. split.
  - intros (o & Ho & Hv). simpl in Hv. subst o.
    rewrite !elem_of_cons in Ho. rewrite elem_of_nil in Ho.
    destruct Ho as [Ho|[Ho|[Ho|[Ho|[Ho|[]]]]]].
    + case_bool_decide; [|done]. left. exists r, (c - 1).
      split; [left; lia|]. split; [lia|done].
    + case_bool_decide; [|done]. left. exists (r - 1), c.
      split; [right; left; lia|]. split; [lia|done].
    + do 3 (case_bool_decide; simpl in Ho; [|done]). left. exists (r - 1), (c - 1).
      split; [right; right; split; [done|lia]|]. split; [lia|done].
    + do 3 (case_bool_decide; simpl in Ho; [|done]). left. exists (r - 1), (c + 1).
      split; [right; right; split; [done|lia]|]. split; [lia|done].
    + right. destruct (bool_decide (conn = Conn8)) eqn:E8.
      2:{ rewrite andb_false_r in Ho. done. }
      apply bool_decide_eq_true in E8. rewrite andb_true_r in Ho.
      case_match eqn:Hedge; [|done]. injection Ho as <-.
      split; [done|]. split; [done|].
      rewrite !orb_true_iff, !bool_decide_eq_true in Hedge. unfold onEdge. tauto.
  - intros [(r' & c' & Hn & Hg & Hread)|(H8 & -> & Hedge)].
    + exists (Some v). split; [|done]. rewrite <- Hread.
      destruct Hn as [[-> <-]|[[<- ->]|(H8 & <- & [<- | ->])]].
      * apply elem_of_cons. left. rewrite bool_decide_eq_true_2 by lia.
        f_equal. lia.
      * apply elem_of_cons. right. apply elem_of_cons. left.
        rewrite bool_decide_eq_true_2 by lia. f_equal. lia.
      * do 2 (apply elem_of_cons; right). apply elem_of_cons. left.
        rewrite !bool_decide_eq_true_2 by (done || lia). simpl. f_equal; lia.
      * do 3 (apply elem_of_cons; right). apply elem_of_cons. left.
        rewrite !bool_decide_eq_true_2 by (done || lia). simpl. f_equal; lia.
    + exists (Some 1). split; [|done].
      do 4 (apply elem_of_cons; right). apply elem_of_cons. left.
      rewrite (bool_decide_eq_true_2 (conn = Conn8)) by done. rewrite andb_true_r.
      case_match eqn:Hb; [done|].
      rewrite !orb_false_iff, !bool_decide_eq_false in Hb.
      unfold onEdge in *. tauto.
Qed.

Lemma scannedNeighbour_before conn r c r' c' :
  scannedNeighbour conn r c r' c' -> before r c r' c'.
Proof. unfold scannedNeighbour, before. lia. Qed.


(** ** The scan *)

Lemma rtsc_iff {A} (R S : relation A) x y :
  (forall a b, R a b <-> S a b) -> rtsc R x y <-> rtsc S x y.
Proof.
  intros H. split; apply rtsc_subrel; intros a b Hab; apply rtsc_lr, H, Hab.
Qed.

Lemma before_S r c r' c' : before r (S c) r' c' <-> before r c r' c' \/ (r' = r /\ c' = c).
Proof. unfold before. lia. Qed.

Lemma before_trans r c r1 c1 r2 c2 :
  before r c r1 c1 -> before r1 c1 r2 c2 -> before r c r2 c2.
Proof. unfold before. lia. Qed.

Lemma linkedAt_agree dotsMask conn components1 components2 r c i j :
  (forall r' c', before r c r' c' ->
                 readCell components1 r' c' = readCell components2 r' c') ->
  linkedAt dotsMask conn components1 r c i j <-> linkedAt dotsMask conn components2 r c i j.
Proof.
  intros H. unfold linkedAt. by rewrite (validIdsAt_ext _ _ _ _ _ _ H).
Qed.

Lemma followsRule_agree dotsMask conn components1 components2 r c :
  (forall r' c', before r c r' c' \/ (r' = r /\ c' = c) ->
                 readCell components1 r' c' = readCell components2 r' c') ->
  followsRule dotsMask conn components1 r c -> followsRule dotsMask conn components2 r c.
Proof.
  intros H. unfold followsRule.
  rewrite (validIdsAt_ext dotsMask conn components1 components2 r c)
    by (intros; apply H; by left).
  rewrite (H r c) by (by right).
  destruct (validIdsAt dotsMask conn components2 r c) as [|v [|v' vs]]; [|done..].
  intros (l & H1 & H2 & H3). exists l. split; [done|]. split; [done|].
  intros r' c' l' Hb Hl'. apply (H3 r' c'); [done|]. rewrite H; [done|by left].
Qed.

Lemma scanFacts_transport dotsMask invert conn r1 c1 r2 c2 st1 st2 :
  (forall r' c', readCell (components st2) r' c' = readCell (components st1) r' c') ->
  currentComponent st2 = currentComponent st1 ->
  equiv st2 = equiv st1 ->
  (forall r' c', inGrid dotsMask r' c' -> (before r2 c2 r' c' <-> before r1 c1 r' c')) ->
  (forall r' c', ~ before r2 c2 r' c' -> ~ before r1 c1 r' c') ->
  scanFacts dotsMask invert conn r1 c1 st1 ->
  scanFacts dotsMask invert conn r2 c2 st2.
Proof.
  intros Hread Hcc He Hb Hnb [F1 F2 F3 F4 F5 F6]. split.
  - intros r' c' Hbef Hin. rewrite Hread. apply F1; [by apply Hb|done].
  - intros r' c' Hbef. rewrite Hread. by apply F2, Hnb.
  - rewrite Hcc. split; [apply F3|]. intros r' c' l. rewrite Hread. apply F3.
  - intros r' c' Hbef Hpol.
    apply (followsRule_agree dotsMask conn (components st1)); [by intros; rewrite Hread|].
    apply F4; [|done]. apply Hb; [apply Hpol|done].
  - by rewrite He.
  - intros i j. rewrite He, F6. apply rtsc_iff. intros a b. unfold linkedBefore.
    split; intros (r' & c' & Hbef & Hpol & Hl); exists r', c'.
    + split; [apply Hb; [apply Hpol|done]|]. split; [done|].
      eapply linkedAt_agree; [|exact Hl]. by intros; rewrite Hread.
    + split; [apply Hb; [apply Hpol|done]|]. split; [done|].
      eapply linkedAt_agree; [|exact Hl]. by intros; rewrite Hread.
Qed.

Lemma scanShape_row dotsMask r c components :
  scanShape dotsMask r c components ->
  exists row, components !! r = Some row /\ length row = c.
Proof.
  intros (H1 & _ & H3). destruct (lookup_lt_is_Some_2 components r) as [row Hrow]; [lia|].
  exists row. split; [done|]. unfold rowLength in H3. by rewrite Hrow in H3.
Qed.

(** One cell of the scan, whatever is written. *)
Lemma scanFacts_step dotsMask invert conn r c st v cc' e' :
  scanShape dotsMask r c (components st) ->
  scanFacts dotsMask invert conn r c st ->
  inGrid dotsMask r c ->
  (v = None <-> maskAt dotsMask r c = invert) ->
  currentComponent st <= cc' ->
  (forall l, v = Some l -> 1 <= l <= cc' /\ (conn = Conn4 -> 2 <= l)) ->
  (maskAt dotsMask r c <> invert ->
   match validIdsAt dotsMask conn (components st) r c with
   | [] => exists l, v = Some l /\ 2 <= l /\ currentComponent st < l
   | [x] => v = Some x
   | x :: xs => v = Some (mathMin (x :: xs))
   end) ->
  storeInv e' ->
  (forall i j, sameClass e' i j
               <-> rtsc (fun i j => linkedBefore dotsMask invert conn (components st) r c i j
                                    \/ (maskAt dotsMask r c <> invert
                                        /\ linkedAt dotsMask conn (components st) r c i j))
                        i j) ->
  scanShape dotsMask r (S c) (writeCell (components st) r c v)
  /\ scanFacts dotsMask invert conn r (S c)
       (ScanState (writeCell (components st) r c v) cc' e').
Proof.
  intros Hshape [F1 F2 F3 F4 F5 F6] Hin Hnull Hcc Hbound Hrule Hstore Hcls.
  destruct (scanShape_row _ _ _ _ Hshape) as (row & Hrow & Hlen).
  pose proof (fun r' c' => readCell_writeCell (components st) r c v row r' c' Hrow Hlen)
    as Hread.
  assert (forall r' c', before r c r' c' ->
            readCell (writeCell (components st) r c v) r' c'
            = readCell (components st) r' c') as Hold.
  { intros r' c' Hb. rewrite Hread. rewrite decide_False; [done|]. unfold before in Hb. lia. }
  split.
  { destruct Hshape as (S1 & S2 & S3). unfold scanShape.
    rewrite length_writeCell. split; [done|]. split.
    - intros r' Hr'. rewrite (rowLength_writeCell _ _ _ _ row) by done.
      rewrite decide_False by lia. by apply S2.
    - rewrite (rowLength_writeCell _ _ _ _ row) by done. by rewrite decide_True. }
  split; simpl.
  - intros r' c' Hb Hg. apply before_S in Hb as [Hb|[-> ->]].
    + rewrite Hold by done. by apply F1.
    + rewrite Hread, decide_True by done. done.
  - intros r' c' Hb. rewrite Hread. rewrite decide_False.
    + apply F2. intros Hb'. apply Hb, before_S. by left.
    + intros [-> ->]. apply Hb, before_S. by right.
  - split; [lia|]. intros r' c' l. rewrite Hread. case_decide.
    + apply Hbound.
    + intros Hl. destruct F3 as [_ F3]. destruct (F3 r' c' l Hl) as [? ?]. split; [lia|done].
  - intros r' c' Hb Hpol. apply before_S in Hb as [Hb|[-> ->]].
    + apply (followsRule_agree dotsMask conn (components st)).
      * intros r'' c'' Hb'. symmetry. apply Hold.
        destruct Hb' as [Hb'|[-> ->]]; [by eapply before_trans|done].
      * by apply F4.
    + unfold followsRule.
      rewrite (validIdsAt_ext dotsMask conn _ (components st) r c) by done.
      rewrite Hread, decide_True by done.
      specialize (Hrule (proj2 Hpol)).
      destruct (validIdsAt dotsMask conn (components st) r c) as [|x [|x' xs]]; [|done..].
      destruct Hrule as (l & -> & Hl2 & Hl). exists l. split; [done|]. split; [done|].
      intros r' c' l' Hb. rewrite Hold by done. intros Hl'.
      destruct F3 as [_ F3]. destruct (F3 r' c' l' Hl') as [? _]. lia.
  - done.
  - intros i j. rewrite Hcls. apply rtsc_iff. intros a b. unfold linkedBefore. split.
    + intros [(r' & c' & Hb & Hpol & Hl)|[Hpol Hl]].
      * exists r', c'. split; [apply before_S; by left|]. split; [done|].
        eapply linkedAt_agree; [|exact Hl]. intros r'' c'' Hb'. apply Hold.
        by eapply before_trans.
      * exists r, c. split; [apply before_S; by right|]. split; [done|].
        eapply linkedAt_agree; [|exact Hl]. done.
    + intros (r' & c' & Hb & Hpol & Hl). apply before_S in Hb as [Hb|[-> ->]].
      * left. exists r', c'. split; [done|]. split; [done|].
        eapply linkedAt_agree; [|exact Hl]. intros r'' c'' Hb'. symmetry. apply Hold.
        by eapply before_trans.
      * right. split; [apply Hpol|].
        eapply linkedAt_agree; [|exact Hl]. intros r'' c'' Hb'. symmetry. by apply Hold.
Qed.

Lemma validIdsAt_bound dotsMask invert conn r c st v :
  scanFacts dotsMask invert conn r c st ->
  v ∈ validIdsAt dotsMask conn (components st) r c ->
  1 <= v <= currentComponent st /\ (conn = Conn4 -> 2 <= v).
Proof.
  intros [_ _ [F3 F3'] _ _ _] Hv.
  apply validIdsAt_elem in Hv as [(r' & c' & _ & _ & Hread)|(H8 & -> & _)].
  - by apply (F3' r' c').
  - split; [lia|]. intros H4. congruence.
Qed.

Lemma scanCell_facts dotsMask invert conn r c st :
  scanShape dotsMask r c (components st) ->
  scanFacts dotsMask invert conn r c st ->
  inGrid dotsMask r c ->
  scanShape dotsMask r (S c) (components (scanCell dotsMask invert conn r st c))
  /\ scanFacts dotsMask invert conn r (S c) (scanCell dotsMask invert conn r st c).
Proof.
  intros Hshape Hfacts Hin. pose proof Hfacts as [F1 F2 F3 F4 F5 F6].
  unfold scanCell. case_bool_decide as Hpol.
  { apply scanFacts_step; [done|done|done|done|done| | |done|].
    - intros l Hl. done.
    - intros Hne. done.
    - intros i j. rewrite F6. apply rtsc_iff. intros a b. split; [by left|].
      intros [H|[H _]]; done. }
  pose proof (validIdsAt_bound dotsMask invert conn r c st) as Hb.
  destruct (validIdsAt dotsMask conn (components st) r c) as [|x [|x' xs]] eqn:HV.
  - apply scanFacts_step; [done|done|done| | | | |done|].
    + split; [done|]. intros H. congruence.
    + simpl. lia.
    + intros l [= <-]. lia.
    + intros _. rewrite HV. exists (S (currentComponent st)). split; [done|]. lia.
    + intros i j. rewrite F6. apply rtsc_iff. intros a b. split; [by left|].
      intros [H|[_ H]]; [done|]. unfold linkedAt in H. rewrite HV in H. simpl in H. lia.
  - apply scanFacts_step; [done|done|done| |done| | |done|].
    + split; [done|]. intros H. congruence.
    + intros l [= <-]. apply Hb; [done|]. apply elem_of_cons. by left.
    + intros _. by rewrite HV.
    + intros i j. rewrite F6. apply rtsc_iff. intros a b. split; [by left|].
      intros [H|[_ H]]; [done|]. unfold linkedAt in H. rewrite HV in H. simpl in H. lia.
  - assert (mathMin (x :: x' :: xs) ∈ x :: x' :: xs) as Hmin by (by apply mathMin_in).
    destruct (recordEquivalence_spec (mathMin (x :: x' :: xs)) (x :: x' :: xs) (equiv st)
                (linkedBefore dotsMask invert conn (components st) r c)
                (fun i j => linkedBefore dotsMask invert conn (components st) r c i j
                            \/ (maskAt dotsMask r c <> invert
                                /\ linkedAt dotsMask conn (components st) r c i j))
                F5 Hmin F6) as [R1 R2].
    { intros i j. unfold linkedAt. rewrite HV. simpl.
      split; [intros [H|(_ & _ & H)]; [by left|by right]|].
      intros [H|H]; [by left|]. right. split; [done|]. split; [lia|done]. }
    apply scanFacts_step; [done|done|done| |done| | |done|done].
    + split; [done|]. intros H. congruence.
    + intros l [= <-]. by apply Hb.
    + intros _. by rewrite HV.
Qed.

(** The invariant of the outer loop: rows [0 .. r-1] are done. *)
Lemma scanRow_facts dotsMask invert conn r st :
  r < length dotsMask ->
  length (components st) = r ->
  (forall r', r' < r -> rowLength (components st) r' = rowLength dotsMask r') ->
  scanFacts dotsMask invert conn r 0 st ->
  let st' := scanRow dotsMask invert conn st r in
  length (components st') = S r
  /\ (forall r', r' < S r -> rowLength (components st') r' = rowLength dotsMask r')
  /\ scanFacts dotsMask invert conn (S r) 0 st'.
Proof.
  intros Hr Hlen Hrows Hfacts. unfold scanRow.
  set (st0 := ScanState (arraySet [] (components st) r []) (currentComponent st) (equiv st)).
  assert (components st0 = components st ++ [[]]) as Hc0.
  { unfold st0. simpl. by rewrite <- Hlen, arraySet_end. }
  assert (scanShape dotsMask r 0 (components st0)
          /\ scanFacts dotsMask invert conn r 0 st0) as H0.
  { split.
    - rewrite Hc0. unfold scanShape. rewrite length_app. simpl. split; [lia|].
      split.
      + intros r' Hr'. rewrite <- Hrows by done. unfold rowLength.
        by rewrite lookup_app_l by lia.
      + unfold rowLength. by rewrite lookup_app_r, Hlen, Nat.sub_diag by lia.
    - apply (scanFacts_transport dotsMask invert conn r 0 r 0 st); try done.
      intros r' c'. rewrite Hc0. apply readCell_app_nil. }
  pose proof (foldl_seq_inv
    (fun c s => scanShape dotsMask r c (components s)
                /\ scanFacts dotsMask invert conn r c s)
    (scanCell dotsMask invert conn r) st0 (rowLength dotsMask r) H0) as Hloop.
  destruct Hloop as [Hshape Hf].
  { intros c s Hc [Hs1 Hs2]. apply scanCell_facts; [done|done|]. split; [done|lia]. }
  set (st1 := foldl _ st0 _) in *.
  destruct Hshape as (S1 & S2 & S3). split; [done|]. split.
  - intros r' Hr'. destruct (decide (r' = r)) as [->|Hne]; [done|]. apply S2. lia.
  - apply (scanFacts_transport dotsMask invert conn r (rowLength dotsMask r) (S r) 0 st1);
      try done.
    + intros r' c' [Hg1 Hg2]. unfold before. split; [|lia].
      intros [H|[_ H]]; [|lia].
      destruct (decide (r' = r)) as [->|Hne]; [right; lia|left; lia].
    + intros r' c'. unfold before. lia.
Qed.

Lemma scan_facts dotsMask invert conn :
  let st := scan dotsMask invert conn in
  length (components st) = length dotsMask
  /\ (forall r, r < length dotsMask -> rowLength (components st) r = rowLength dotsMask r)
  /\ scanFacts dotsMask invert conn (length dotsMask) 0 st.
Proof.
  unfold scan.
  apply (foldl_seq_inv
    (fun r s => length (components s) = r
                /\ (forall r', r' < r -> rowLength (components s) r' = rowLength dotsMask r')
                /\ scanFacts dotsMask invert conn r 0 s)).
  - split; [done|]. split; [intros; lia|]. split; simpl.
    + intros r' c' Hb. unfold before in Hb. lia.
    + intros r' c' _. unfold readCell. by rewrite lookup_nil.
    + split; [lia|]. intros r' c' l. unfold readCell. by rewrite lookup_nil.
    + intros r' c' Hb. unfold before in Hb. lia.
    + split; simpl; intros k a; by rewrite lookup_empty.
    + intros i j. unfold sameClass, classOf. simpl. rewrite lookup_empty.
      rewrite list_elem_of_singleton. split; [intros ->; reflexivity|].
      intros H. induction H as [x|x y z Hxy _ IH]; [done|].
      destruct Hxy as [(r' & c' & Hb & _)|(r' & c' & Hb & _)]; unfold before in Hb; lia.
  - intros r s Hr (H1 & H2 & H3). by apply scanRow_facts.
Qed.


(** ** The resolution pass *)

Lemma mapHas_true {V} (m : list (nat * V)) (k : nat) :
  mapHas m k = true <-> exists v, (k, v) ∈ m.
Proof.
  unfold mapHas. rewrite existsb_exists. split.
  - intros ([k' v] & Hin & Hk). apply bool_decide_eq_true in Hk. simpl in Hk. subst.
    exists v. by apply list_elem_of_In.
  - intros (v & Hin). exists (k, v). split; [by apply list_elem_of_In|].
    by apply bool_decide_eq_true.
Qed.

Lemma mapGet_Some {V} (m : list (nat * V)) (k : nat) (v : V) :
  NoDup m.*1 -> (mapGet m k = Some v <-> (k, v) ∈ m).
Proof.
  unfold mapGet. induction m as [|[k' v'] m IH]; simpl; intros Hnd.
  - split; [done|]. intros H. by apply elem_of_nil in H.
  - apply NoDup_cons in Hnd as [Hk' Hnd]. case_bool_decide as Hk; simpl in *.
    + subst k'. split.
      * intros [= ->]. apply elem_of_cons. by left.
      * intros H. apply elem_of_cons in H as [[= ->]|H]; [done|].
        exfalso. apply Hk'. apply list_elem_of_fmap. by exists (k, v).
    + rewrite IH by done. rewrite elem_of_cons. split; [by right|].
      intros [[= ? ?]|H]; [done|done].
Qed.

Lemma readCell_writeCell_in components r c v row r' c' :
  components !! r = Some row -> c < length row ->
  readCell (writeCell components r c v) r' c'
  = if decide (r' = r /\ c' = c) then v else readCell components r' c'.
Proof.
  intros Hrow Hlen. unfold writeCell, arraySet. rewrite Hrow.
  rewrite decide_True by done. unfold readCell.
  destruct (decide (r' = r)) as [->|Hne].
  - rewrite list_lookup_insert_eq by (by eapply lookup_lt_Some). rewrite Hrow.
    destruct (decide (c' = c)) as [->|Hc].
    + rewrite decide_True by done. by rewrite list_lookup_insert_eq.
    + rewrite decide_False by tauto. by rewrite list_lookup_insert_ne.
  - rewrite decide_False by tauto. by rewrite list_lookup_insert_ne.
Qed.

Lemma rowLength_writeCell_in components r c v row r' :
  components !! r = Some row -> c < length row ->
  rowLength (writeCell components r c v) r' = rowLength components r'.
Proof.
  intros Hrow Hlen. unfold writeCell, arraySet. rewrite Hrow.
  rewrite decide_True by done. unfold rowLength.
  destruct (decide (r' = r)) as [->|Hne].
  - rewrite list_lookup_insert_eq by (by eapply lookup_lt_Some).
    by rewrite Hrow, length_insert.
  - by rewrite list_lookup_insert_ne.
Qed.

Lemma readCell_Some_inGrid components r c v :
  readCell components r c = Some v -> r < length components /\ c < rowLength components r.
Proof.
  unfold readCell, rowLength. destruct (components !! r) as [row|] eqn:Hrow; [|done].
  destruct (row !! c) as [x|] eqn:Hc; [|done]. intros _.
  split; by eapply lookup_lt_Some.
Qed.

Lemma registers_fun e components r c k k' :
  registers e components r c k -> registers e components r c k' -> k = k'.
Proof. intros (v & H1 & _ & ->) (v' & H1' & _ & ->). congruence. Qed.

Lemma resolveCell_facts e components r c acc :
  resolveFacts e components r c acc ->
  r < length components -> c < rowLength components r ->
  resolveFacts e components r (S c) (resolveCell e r acc c).
Proof.
  intros (H1 & H2 & H3 & H4 & H5 & H7 & H6) Hr Hc.
  assert (readCell acc.1 r c = readCell components r c) as Hcur.
  { apply H4. unfold before. lia. }
  destruct (lookup_lt_is_Some_2 acc.1 r) as [row Hrow]; [lia|].
  assert (c < length row) as Hrowlen.
  { specialize (H2 r). unfold rowLength in H2 at 1. rewrite Hrow in H2. lia. }
  assert (forall k, k ∈ acc.2.*1 <-> exists r' c', (k, (r', c')) ∈ acc.2) as Hkeys.
  { intros k. rewrite list_elem_of_fmap. split.
    - intros ([k' [r' c']] & -> & Hin). by exists r', c'.
    - intros (r' & c' & Hin). by exists (k, (r', c')). }
  assert ((forall k, ~ registers e components r c k) ->
          resolveFacts e components r (S c) acc) as Hskip.
  { intros Hno. split; [done|]. split; [done|]. split; [|split; [|split; [done|split]]].
    - intros r' c' Hb. apply before_S in Hb as [Hb|[-> ->]]; [by apply H3|].
      rewrite Hcur. destruct (readCell components r c) as [v|] eqn:Hv; [|done].
      simpl. case_bool_decide as Hv0; [done|]. exfalso.
      apply (Hno (mathMin (classOf e v))). by exists v.
    - intros r' c' Hb. apply H4. intros Hb'. apply Hb, before_S. by left.
    - intros k r' c' Hb. apply before_S in Hb as [Hb|[-> ->]]; [by apply H7|].
      intros Hreg. by apply Hno in Hreg.
    - intros k r' c'. rewrite H6, before_S. split; [intros (?&?&?); tauto|].
      intros ([Hb|[-> ->]] & Hreg & Hf); [done|]. by apply Hno in Hreg. }
  unfold resolveCell. rewrite Hcur.
  destruct (readCell components r c) as [value|] eqn:Hvalue.
  2:{ apply Hskip. intros k (v & Hv & _). congruence. }
  case_bool_decide as Hv0.
  { apply Hskip. intros k (v & Hv & Hv' & _). congruence. }
  set (id := mathMin (classOf e value)).
  assert (registers e components r c id) as Hreg by (by exists value).
  split; [|split; [|split; [|split]]]; simpl.
  - by rewrite length_writeCell.
  - intros r'. by rewrite (rowLength_writeCell_in _ _ _ _ row).
  - intros r' c' Hb. rewrite (readCell_writeCell_in _ _ _ _ row) by done.
    apply before_S in Hb as [Hb|[-> ->]].
    + rewrite decide_False by (unfold before in Hb; lia). by apply H3.
    + rewrite decide_True by done. rewrite Hvalue. simpl.
      by rewrite bool_decide_eq_false_2.
  - intros r' c' Hb. rewrite (readCell_writeCell_in _ _ _ _ row) by done.
    rewrite decide_False.
    + apply H4. intros Hb'. apply Hb, before_S. by left.
    + intros [-> ->]. apply Hb, before_S. by right.
  - destruct (mapHas acc.2 id) eqn:Hhas.
    + apply mapHas_true in Hhas as [[r0 c0] Hin].
      split; [done|]. split.
      * intros k r' c' Hb Hk. apply before_S in Hb as [Hb|[-> ->]]; [by eapply H7|].
        rewrite (registers_fun _ _ _ _ _ _ Hk Hreg). apply Hkeys. eauto.
      * intros k r' c'. rewrite H6, before_S. split; [intros (?&?&?); tauto|].
        intros ([Hb|[-> ->]] & Hk & Hf); [done|]. exfalso.
        rewrite (registers_fun _ _ _ _ _ _ Hk Hreg) in Hf.
        apply H6 in Hin as (Hb0 & Hreg0 & _). by apply (Hf r0 c0).
    + assert (id ∉ acc.2.*1) as Hnot.
      { intros Hin. apply Hkeys in Hin as (r0 & c0 & Hin).
        assert (mapHas acc.2 id = true) as Ht by (apply mapHas_true; eauto). congruence. }
      split; [|split].
      * rewrite fmap_app. simpl. apply NoDup_app. split; [done|]. split.
        -- intros x Hx Hx'. apply list_elem_of_singleton in Hx'. by subst.
        -- apply NoDup_singleton.
      * intros k r' c' Hb Hk. rewrite fmap_app, elem_of_app. simpl.
        apply before_S in Hb as [Hb|[-> ->]]; [left; by eapply H7|].
        right. rewrite (registers_fun _ _ _ _ _ _ Hk Hreg). by apply list_elem_of_singleton.
      * intros k r' c'. rewrite elem_of_app, list_elem_of_singleton, H6, before_S. split.
        -- intros [(Hb & Hk & Hf)|[= -> -> ->]]; [tauto|].
           split; [by right|]. split; [done|]. intros r'' c'' Hb Hk.
           apply Hnot. by eapply H7.
        -- intros ([Hb|[-> ->]] & Hk & Hf); [by left|]. right.
           by rewrite (registers_fun _ _ _ _ _ _ Hk Hreg).
Qed.

Lemma resolveFacts_transport e components r1 c1 r2 c2 acc :
  (forall r' c', readCell components r' c' <> None ->
                 (before r2 c2 r' c' <-> before r1 c1 r' c')) ->
  (forall r' c', before r1 c1 r' c' -> before r2 c2 r' c') ->
  resolveFacts e components r1 c1 acc -> resolveFacts e components r2 c2 acc.
Proof.
  intros Hiff Hmono (H1 & H2 & H3 & H4 & H5 & H7 & H6).
  assert (forall r' c' k, registers e components r' c' k ->
                          readCell components r' c' <> None) as Hreg.
  { intros r' c' k (v & Hv & _). congruence. }
  split; [done|]. split; [done|]. split; [|split; [|split; [done|split]]].
  - intros r' c' Hb.
    destruct (readCell components r' c') as [v|] eqn:Hv.
    + rewrite <- Hv. apply H3, Hiff; [congruence|done].
    + simpl. destruct (readCell acc.1 r' c') as [w|] eqn:Hw; [|done].
      destruct (decide (r' < r1 \/ (r' = r1 /\ c' < c1))) as [Hb1|Hb1].
      * rewrite H3, Hv in Hw by done. done.
      * rewrite H4, Hv in Hw by done. done.
  - intros r' c' Hb. apply H4. intros Hb'. by apply Hb, Hmono.
  - intros k r' c' Hb Hk. apply (H7 k r' c'); [|done]. apply Hiff; [by eapply Hreg|done].
  - intros k r' c'. rewrite H6. split; intros (Hb & Hk & Hf); (split; [|done]);
      apply Hiff; (done || by eapply Hreg).
Qed.

Lemma resolveRow_facts e components r acc :
  resolveFacts e components r 0 acc ->
  r < length components ->
  resolveFacts e components (S r) 0 (resolveRow e acc r).
Proof.
  intros Hf Hr. unfold resolveRow.
  assert (rowLength acc.1 r = rowLength components r) as -> by apply Hf.
  apply (resolveFacts_transport e components r (rowLength components r)).
  - intros r' c' Hne. unfold before. split; [|lia].
    intros [H|[_ H]]; [|lia]. destruct (decide (r' = r)) as [->|]; [|lia]. right.
    split; [done|]. destruct (readCell components r c') as [v|] eqn:Hv; [|done].
    by apply readCell_Some_inGrid in Hv as [_ ?].
  - intros r' c'. unfold before. lia.
  - apply (foldl_seq_inv (fun c a => resolveFacts e components r c a)); [done|].
    intros c a Hc Ha. by apply resolveCell_facts.
Qed.

Lemma resolve_spec e components :
  let res := resolve e components in
  length res.1 = length components
  /\ (forall r, rowLength res.1 r = rowLength components r)
  /\ (forall r c, readCell res.1 r c = canonical e (readCell components r c))
  /\ NoDup res.2.*1
  /\ (forall k r c, registers e components r c k -> k ∈ res.2.*1)
  /\ (forall k r c, (k, (r, c)) ∈ res.2
                    <-> registers e components r c k
                        /\ forall r' c', before r c r' c' ->
                                         ~ registers e components r' c' k).
Proof.
  unfold resolve.
  assert (resolveFacts e components (length components) 0
            (foldl (resolveRow e) (components, []) (seq 0 (length components))))
    as (H1 & H2 & H3 & H4 & H5 & H7 & H6).
  { apply (foldl_seq_inv (fun r a => resolveFacts e components r 0 a)).
    - split; [done|]. split; [done|]. split; [|split; [done|split; [constructor|split]]].
      + intros r' c' Hb. unfold before in Hb. lia.
      + intros k r' c' Hb. unfold before in Hb. lia.
      + intros k r' c'. simpl. split; [intros H; by apply elem_of_nil in H|].
        intros (Hb & _). unfold before in Hb. lia.
    - intros r a Hr Ha. by apply resolveRow_facts. }
  simpl. split; [done|]. split; [done|]. split; [|split; [done|split]].
  - intros r c. destruct (decide (r < length components)) as [Hr|Hr].
    + apply H3. unfold before. lia.
    + rewrite H4 by (unfold before; lia).
      destruct (readCell components r c) as [v|] eqn:Hv; [|done].
      apply readCell_Some_inGrid in Hv. lia.
  - intros k r c Hk. apply (H7 k r c); [|done]. destruct Hk as (v & Hv & _).
    apply readCell_Some_inGrid in Hv. unfold before. lia.
  - intros k r c. rewrite H6. split; [intros (?&?&?); done|].
    intros [Hk Hf]. split; [|done]. destruct Hk as (v & Hv & _).
    apply readCell_Some_inGrid in Hv. unfold before. lia.
Qed.


(** ** The result of [buildConnectedComponents] *)

Section Labelling.
Variable dotsMask : list (list bool).
Variable invert : bool.
Variable conn : connectedness.

Local Abbreviation prov := (provisional dotsMask invert conn).
Local Abbreviation rec := (recorded dotsMask invert conn).
Local Abbreviation result := (buildConnectedComponents dotsMask invert conn).

Lemma all_before r c : inGrid dotsMask r c -> before (length dotsMask) 0 r c.
Proof. intros [H _]. by left. Qed.

Lemma prov_inGrid r c l : readCell prov r c = Some l -> inGrid dotsMask r c.
Proof.
  intros H. destruct (scan_facts dotsMask invert conn) as (S1 & S2 & _).
  apply readCell_Some_inGrid in H as [H1 H2]. unfold provisional in *.
  split; [lia|]. rewrite <- S2; [done|lia].
Qed.

Lemma prov_null r c :
  inGrid dotsMask r c -> (readCell prov r c = None <-> maskAt dotsMask r c = invert).
Proof.
  intros Hin. destruct (scan_facts dotsMask invert conn) as (_ & _ & [F1 _ _ _ _ _]).
  apply F1; [by apply all_before|done].
Qed.

Lemma prov_labelled r c l : readCell prov r c = Some l -> ofPolarity dotsMask invert r c.
Proof.
  intros H. pose proof (prov_inGrid r c l H) as Hin. split; [done|].
  intros Hm. apply prov_null in Hm; [|done]. congruence.
Qed.

Lemma prov_bound r c l :
  readCell prov r c = Some l -> 1 <= l /\ (conn = Conn4 -> 2 <= l).
Proof.
  intros H. destruct (scan_facts dotsMask invert conn) as (_ & _ & [_ _ [_ F3] _ _ _]).
  destruct (F3 r c l H) as [? ?]. split; [lia|done].
Qed.

Lemma prov_rule r c : ofPolarity dotsMask invert r c -> followsRule dotsMask conn prov r c.
Proof.
  intros Hp. destruct (scan_facts dotsMask invert conn) as (_ & _ & [_ _ _ F4 _ _]).
  apply F4; [apply all_before, Hp|done].
Qed.

Lemma rec_storeInv : storeInv rec.
Proof. by destruct (scan_facts dotsMask invert conn) as (_ & _ & [_ _ _ _ F5 _]). Qed.

Lemma rec_classes i j : sameClass rec i j <-> equivalent dotsMask invert conn prov i j.
Proof.
  destruct (scan_facts dotsMask invert conn) as (_ & _ & [_ _ _ _ _ F6]).
  unfold recorded, equivalent. rewrite F6. apply rtsc_iff. intros a b.
  unfold linkedBefore, linked. split.
  - intros (r & c & _ & H). by exists r, c.
  - intros (r & c & Hp & H). exists r, c. split; [apply all_before, Hp|done].
Qed.

Lemma validIds_bound r c v :
  v ∈ validIdsAt dotsMask conn prov r c -> 1 <= v /\ (conn = Conn4 -> 2 <= v).
Proof.
  intros Hv. apply validIdsAt_elem in Hv as [(r' & c' & _ & _ & Hread)|(H8 & -> & _)].
  - by apply (prov_bound r' c').
  - split; [lia|]. intros H4. congruence.
Qed.

Lemma equivalent_bound i j :
  equivalent dotsMask invert conn prov i j ->
  (1 <= i /\ (conn = Conn4 -> 2 <= i)) -> 1 <= j /\ (conn = Conn4 -> 2 <= j).
Proof.
  intros H. induction H as [x|x y z Hxy _ IH]; [done|]. intros _. apply IH.
  destruct Hxy as [(r & c & _ & _ & Hx & Hy)|(r & c & _ & _ & Hy & Hx)];
    by eapply validIds_bound.
Qed.

(** The resolved map is the provisional one with every label replaced by
    the minimum of its recorded class. *)
Lemma result_read r c :
  readCell result.1 r c = (fun l => mathMin (classOf rec l)) <$> readCell prov r c.
Proof.
  unfold buildConnectedComponents.
  destruct (resolve_spec rec prov) as (_ & _ & H & _).
  unfold recorded, provisional in *. rewrite H.
  destruct (readCell (components (scan dotsMask invert conn)) r c) as [l|] eqn:Hl; [|done].
  simpl. apply prov_bound in Hl as [Hl _]. rewrite bool_decide_eq_false_2 by lia. done.
Qed.

Lemma result_shape :
  length result.1 = length dotsMask
  /\ forall r, r < length dotsMask -> rowLength result.1 r = rowLength dotsMask r.
Proof.
  unfold buildConnectedComponents.
  destruct (resolve_spec rec prov) as (H1 & H2 & _).
  destruct (scan_facts dotsMask invert conn) as (S1 & S2 & _).
  unfold recorded, provisional in *. split; [lia|]. intros r Hr. rewrite H2. by apply S2.
Qed.

Lemma result_null r c :
  inGrid dotsMask r c -> (readCell result.1 r c = None <-> maskAt dotsMask r c = invert).
Proof.
  intros Hin. rewrite result_read, <- (prov_null r c Hin).
  by destruct (readCell prov r c).
Qed.

Lemma result_inGrid r c k : readCell result.1 r c = Some k -> inGrid dotsMask r c.
Proof.
  rewrite result_read. destruct (readCell prov r c) as [l|] eqn:Hl; [|done].
  intros _. by eapply prov_inGrid.
Qed.

(** The resolved id is the minimum of the equivalence class of the label. *)
Lemma result_minimum r c l :
  readCell prov r c = Some l ->
  exists k, readCell result.1 r c = Some k
            /\ equivalent dotsMask invert conn prov l k
            /\ forall j, equivalent dotsMask invert conn prov l j -> k <= j.
Proof.
  intros Hl. exists (mathMin (classOf rec l)). rewrite result_read, Hl.
  split; [done|]. split.
  - apply rec_classes. unfold sameClass. apply mathMin_in, classOf_nonempty, rec_storeInv.
  - intros j Hj. apply mathMin_le. by apply rec_classes.
Qed.

Lemma result_bound r c k :
  readCell result.1 r c = Some k -> 1 <= k /\ (conn = Conn4 -> 2 <= k).
Proof.
  rewrite result_read. destruct (readCell prov r c) as [l|] eqn:Hl; [|done].
  intros [= <-]. destruct (result_minimum r c l Hl) as (k & Hk & Heq & _).
  rewrite result_read, Hl in Hk. injection Hk as <-.
  eapply equivalent_bound; [exact Heq|]. by eapply prov_bound.
Qed.

Lemma result_same_class r c r' c' l l' :
  readCell prov r c = Some l -> readCell prov r' c' = Some l' ->
  (readCell result.1 r c = readCell result.1 r' c'
   <-> equivalent dotsMask invert conn prov l l').
Proof.
  intros Hl Hl'. rewrite !result_read, Hl, Hl'. simpl. split.
  - intros [= H]. apply rec_classes.
    pose proof rec_storeInv as Hinv.
    assert (sameClass rec l (mathMin (classOf rec l))) as H1
      by (apply mathMin_in, classOf_nonempty, Hinv).
    assert (sameClass rec l' (mathMin (classOf rec l'))) as H2
      by (apply mathMin_in, classOf_nonempty, Hinv).
    rewrite <- H in H2.
    apply (sameClass_trans _ l (mathMin (classOf rec l)) l'); [done|done|].
    by apply sameClass_sym.
  - intros H. apply rec_classes in H. f_equal. apply classOf_min; [apply rec_storeInv|done].
Qed.

(** Completeness: a labelled cell and a labelled neighbour the scan looked
    at resolve to the same id. *)
Lemma result_neighbour r c r' c' :
  ofPolarity dotsMask invert r c -> ofPolarity dotsMask invert r' c' ->
  scannedNeighbour conn r c r' c' -> (c' = S c -> c < length dotsMask - 1) ->
  readCell result.1 r c = readCell result.1 r' c'.
Proof.
  intros Hp Hp' Hn Hg.
  destruct (readCell prov r c) as [l|] eqn:Hl.
  2:{ apply prov_null in Hl; [|apply Hp]. by destruct Hp. }
  destruct (readCell prov r' c') as [l'|] eqn:Hl'.
  2:{ apply prov_null in Hl'; [|apply Hp']. by destruct Hp'. }
  apply (result_same_class r c r' c' l l' Hl Hl').
  assert (l' ∈ validIdsAt dotsMask conn prov r c) as Hin.
  { apply validIdsAt_elem. left. by exists r', c'. }
  pose proof (prov_rule r c Hp) as Hrule. unfold followsRule in Hrule.
  destruct (validIdsAt dotsMask conn prov r c) as [|x [|x' xs]] eqn:HV.
  - by apply elem_of_nil in Hin.
  - apply list_elem_of_singleton in Hin as ->.
    rewrite Hl in Hrule. injection Hrule as ->. reflexivity.
  - rewrite Hl in Hrule. injection Hrule as ->.
    apply rtsc_lr. exists r, c. split; [done|]. unfold linkedAt. rewrite HV.
    split; [simpl; lia|]. split; [|done].
    by apply (mathMin_in (x :: x' :: xs)).
Qed.

(** The registry. *)
Lemma result_ids k r c :
  mapGet result.2 k = Some (r, c)
  <-> readCell result.1 r c = Some k
      /\ forall r' c', before r c r' c' -> readCell result.1 r' c' <> Some k.
Proof.
  assert (forall r c k, registers rec prov r c k <-> readCell result.1 r c = Some k) as Hreg.
  { intros r0 c0 k0. rewrite result_read. unfold registers. split.
    - intros (v & -> & _ & ->). done.
    - destruct (readCell prov r0 c0) as [l|] eqn:Hl; [|done]. intros [= <-].
      exists l. split; [done|]. split; [|done]. apply prov_bound in Hl. lia. }
  unfold buildConnectedComponents in *.
  destruct (resolve_spec rec prov) as (_ & _ & _ & Hnd & _ & Hids).
  unfold recorded, provisional in *.
  rewrite mapGet_Some by done. rewrite Hids, Hreg. split; intros [H1 H2]; (split; [done|]).
  - intros r' c' Hb. rewrite <- Hreg. by apply H2.
  - intros r' c' Hb. rewrite Hreg. by apply H2.
Qed.

Lemma result_ids_total r c k :
  readCell result.1 r c = Some k -> is_Some (mapGet result.2 k).
Proof.
  intros Hk. unfold buildConnectedComponents in *.
  destruct (resolve_spec rec prov) as (_ & _ & Hread & Hnd & Hall & _).
  unfold recorded, provisional in *.
  assert (k ∈ (resolve (equiv (scan dotsMask invert conn))
                       (components (scan dotsMask invert conn))).2.*1) as Hin.
  { apply (Hall k r c). rewrite Hread in Hk.
    destruct (readCell (components (scan dotsMask invert conn)) r c) as [l|] eqn:Hl; [|done].
    exists l. split; [done|]. pose proof (prov_bound r c l Hl) as [? _].
    simpl in Hk. rewrite bool_decide_eq_false_2 in Hk by lia. injection Hk as <-.
    split; [lia|done]. }
  apply list_elem_of_fmap in Hin as ([k' pos] & -> & Hin). exists pos.
  destruct pos as [r0 c0]. by apply mapGet_Some.
Qed.

Lemma result_ids_nodup : NoDup result.2.*1.
Proof.
  unfold buildConnectedComponents.
  by destruct (resolve_spec rec prov) as (_ & _ & _ & Hnd & _).
Qed.

Lemma result_ids_elem k r c : (k, (r, c)) ∈ result.2 <-> mapGet result.2 k = Some (r, c).
Proof. symmetry. apply mapGet_Some, result_ids_nodup. Qed.

End Labelling.


Lemma edgeAdjacent_scanned r c r' c' :
  edgeAdjacent r c r' c' ->
  (scannedNeighbour Conn4 r c r' c' /\ c' <> S c)
  \/ (scannedNeighbour Conn4 r' c' r c /\ c <> S c').
Proof. unfold edgeAdjacent, scannedNeighbour. lia. Qed.

Lemma result_edgeAdjacent dotsMask invert r c r' c' :
  ofPolarity dotsMask invert r c -> ofPolarity dotsMask invert r' c' ->
  edgeAdjacent r c r' c' ->
  readCell (buildConnectedComponents dotsMask invert Conn4).1 r c
  = readCell (buildConnectedComponents dotsMask invert Conn4).1 r' c'.
Proof.
  intros Hp Hp' Ha. apply edgeAdjacent_scanned in Ha as [[Hn Hc]|[Hn Hc]].
  - by apply result_neighbour.
  - symmetry. by apply result_neighbour.
Qed.

Lemma result_labelled dotsMask invert conn r c :
  ofPolarity dotsMask invert r c ->
  is_Some (readCell (buildConnectedComponents dotsMask invert conn).1 r c).
Proof.
  intros [Hin Hne].
  destruct (readCell (buildConnectedComponents dotsMask invert conn).1 r c) eqn:E; [done|].
  apply result_null in E; done.
Qed.

(** C1.  On a square mask, for either polarity and connectivity:
    - the scan leaves [null] exactly on the cells of the other polarity,
      and the label of every other cell follows the rule on the valid ids of
      its already-labelled neighbours: none, a fresh id (at least 2 and
      greater than every label before it in raster order); one, that id;
      several, their minimum, and any two of them are in one recorded
      equivalence set;
    - the recorded sets are the classes of the equivalence generated by the
      ids met together at a cell (so they are closed transitively);
    - the resolution pass leaves [null] cells and replaces every label by
      the minimum id of its equivalence class;
    - with 4-connectivity, two labelled cells sharing an edge hold the same
      id after the resolution;
    - the registry maps an id to a cell exactly when that cell is the first
      one in raster order holding the id in the resolved map, and has an
      entry for every id of the resolved map. *)
Theorem C1_labelling (dotsMask : list (list bool)) (invert : bool) (conn : connectedness) :
  isSquare dotsMask ->
  let prov := provisional dotsMask invert conn in
  let result := buildConnectedComponents dotsMask invert conn in
  (forall r c, inGrid dotsMask r c ->
     (maskAt dotsMask r c = invert -> readCell prov r c = None)
     /\ (maskAt dotsMask r c <> invert ->
         followsRule dotsMask conn prov r c
         /\ (2 <= length (validIdsAt dotsMask conn prov r c) ->
             forall i j, i ∈ validIdsAt dotsMask conn prov r c ->
                         j ∈ validIdsAt dotsMask conn prov r c ->
                         sameClass (recorded dotsMask invert conn) i j)))
  /\ (forall i j, sameClass (recorded dotsMask invert conn) i j
                  <-> equivalent dotsMask invert conn prov i j)
  /\ (forall r c, readCell prov r c = None -> readCell result.1 r c = None)
  /\ (forall r c l, readCell prov r c = Some l ->
        exists k, readCell result.1 r c = Some k
                  /\ equivalent dotsMask invert conn prov l k
                  /\ forall j, equivalent dotsMask invert conn prov l j -> k <= j)
  /\ (conn = Conn4 ->
      forall r c r' c', ofPolarity dotsMask invert r c -> ofPolarity dotsMask invert r' c' ->
                        edgeAdjacent r c r' c' ->
                        exists k, readCell result.1 r c = Some k
                                  /\ readCell result.1 r' c' = Some k)
  /\ (forall k r c, mapGet result.2 k = Some (r, c)
                    <-> readCell result.1 r c = Some k
                        /\ forall r' c', before r c r' c' ->
                                         readCell result.1 r' c' <> Some k)
  /\ (forall r c k, readCell result.1 r c = Some k -> is_Some (mapGet result.2 k)).
Proof.
  intros _ prov result. subst prov result.
  split; [|split; [|split; [|split; [|split; [|split]]]]].
  - intros r c Hin. split.
    + intros Hm. by apply prov_null.
    + intros Hm. split; [by apply prov_rule|].
      intros Hlen i j Hi Hj. apply rec_classes, rtsc_lr. exists r, c. by split.
  - apply rec_classes.
  - intros r c H. by rewrite result_read, H.
  - apply result_minimum.
  - intros -> r c r' c' Hp Hp' Ha.
    destruct (result_labelled dotsMask invert Conn4 r c Hp) as [k Hk]. exists k.
    split; [done|]. by rewrite <- (result_edgeAdjacent dotsMask invert r c r' c').
  - apply result_ids.
  - apply result_ids_total.
Qed.

Lemma C1_labelling_witness :
  let dotsMask := [[true; false; true]; [true; true; true]; [false; false; false]] in
  exists k, readCell (buildConnectedComponents dotsMask false Conn4).1 0 2 = Some k
            /\ readCell (buildConnectedComponents dotsMask false Conn4).1 1 2 = Some k.
Proof.
  intros dotsMask.
  refine (proj1 (proj2 (proj2 (proj2 (proj2
    (C1_labelling dotsMask false Conn4 _))))) eq_refl 0 2 1 2 _ _ _).
  - repeat constructor.
  - split; [split; unfold rowLength; simpl; lia|done].
  - split; [split; unfold rowLength; simpl; lia|done].
  - right. split; [done|]. by right.
Defined.

Example scan_merges_labels :
  let dotsMask := [[true; false; true]; [true; true; true]; [false; false; false]] in
  provisional dotsMask false Conn4
    = [[Some 2; None; Some 3]; [Some 2; Some 2; Some 2]; [None; None; None]]
  /\ buildConnectedComponents dotsMask false Conn4
     = ([[Some 2; None; Some 2]; [Some 2; Some 2; Some 2]; [None; None; None]],
        [(2, (0, 0))]).
Proof. by vm_compute. Qed.


(** ** Labels and components *)

Section Components.
Variable dotsMask : list (list bool).
Variable invert : bool.
Variable conn : connectedness.

Local Abbreviation prov := (provisional dotsMask invert conn).
Local Abbreviation result := (buildConnectedComponents dotsMask invert conn).
Local Abbreviation conn_ := (connected dotsMask invert conn).
Local Abbreviation touches := (touchesBorder dotsMask invert conn).
Local Abbreviation joined_ := (joined dotsMask invert conn).

Lemma adjacent_sym r c r' c' : adjacent conn r c r' c' -> adjacent conn r' c' r c.
Proof.
  destruct conn; simpl; unfold edgeAdjacent, cornerAdjacent.
  - lia.
  - intros (H1 & H2 & H3). split; [lia|]. split; [lia|]. intros [= -> ->]. done.
Qed.

Lemma scannedNeighbour_adjacent r c r' c' :
  scannedNeighbour conn r c r' c' -> adjacent conn r c r' c'.
Proof.
  unfold scannedNeighbour. destruct conn; simpl; unfold edgeAdjacent, cornerAdjacent.
  - intros [H|[H|(H & _)]]; [lia|lia|done].
  - intros H. split; [lia|]. split; [lia|]. intros [= -> ->]. lia.
Qed.

Lemma connected_sym x y : conn_ x y -> conn_ y x.
Proof.
  intros H. induction H as [x|x y z Hxy _ IH]; [reflexivity|].
  eapply rtc_r; [exact IH|]. destruct Hxy as (H1 & H2 & H3).
  split; [done|]. split; [done|]. by apply adjacent_sym.
Qed.

Lemma connected_step r c r' c' :
  ofPolarity dotsMask invert r c -> ofPolarity dotsMask invert r' c' ->
  adjacent conn r c r' c' -> conn_ (r, c) (r', c').
Proof. intros H1 H2 H3. apply rtc_once. by split. Qed.

Lemma touches_connected x y : conn_ x y -> touches y -> touches x.
Proof.
  intros Hxy (b & H1 & H2 & H3). exists b. split; [done|]. split; [done|].
  by etrans.
Qed.

Lemma joined_refl x : joined_ x x.
Proof. left. reflexivity. Qed.

Lemma joined_sym x y : joined_ x y -> joined_ y x.
Proof. intros [H|[H1 H2]]; [left; by apply connected_sym|by right]. Qed.

Lemma joined_connected x y z : conn_ x y -> joined_ y z -> joined_ x z.
Proof.
  intros Hxy [H|[H1 H2]]; [left; by etrans|right].
  split; [by eapply touches_connected|done].
Qed.

Lemma joined_trans x y z : joined_ x y -> joined_ y z -> joined_ x z.
Proof.
  intros [H|[H1 H2]] Hyz; [by eapply joined_connected|].
  destruct Hyz as [H|[H3 H4]]; right; (split; [done|]); [|done].
  eapply touches_connected; [|exact H2]. by apply connected_sym.
Qed.

Lemma joined_touches x y : joined_ x y -> touches y -> touches x.
Proof. intros [H|[H _]] Hy; [by eapply touches_connected|done]. Qed.

(** A valid id of a labelled cell is the label of an adjacent labelled
    cell, or 1 on a border cell of the 8-connected pass. *)
Lemma validIds_source r c v :
  v ∈ validIdsAt dotsMask conn prov r c ->
  (exists r' c', before r c r' c' /\ adjacent conn r c r' c'
                 /\ readCell prov r' c' = Some v)
  \/ (v = 1 /\ onEdge dotsMask r c).
Proof.
  intros Hv. apply validIdsAt_elem in Hv as [(r' & c' & Hn & _ & Hread)|(_ & -> & He)].
  - left. exists r', c'. split; [by eapply scannedNeighbour_before|].
    split; [by apply scannedNeighbour_adjacent|done].
  - by right.
Qed.

Lemma label_in_validIds r c l :
  readCell prov r c = Some l ->
  (validIdsAt dotsMask conn prov r c = [] /\ 2 <= l
   /\ forall r' c' l', before r c r' c' -> readCell prov r' c' = Some l' -> l' < l)
  \/ l ∈ validIdsAt dotsMask conn prov r c.
Proof.
  intros Hl. pose proof (prov_rule dotsMask invert conn r c
                           (prov_labelled dotsMask invert conn r c l Hl)) as Hrule.
  unfold followsRule in Hrule.
  destruct (validIdsAt dotsMask conn prov r c) as [|x [|x' xs]] eqn:HV.
  - left. split; [done|]. destruct Hrule as (l0 & H0 & H2 & Hf).
    rewrite Hl in H0. injection H0 as <-. done.
  - right. rewrite Hl in Hrule. injection Hrule as ->. apply elem_of_cons. by left.
  - right. rewrite Hl in Hrule. injection Hrule as ->.
    by apply (mathMin_in (x :: x' :: xs)).
Qed.

(** Soundness of the labels: the cells labelled 1 are in components that
    reach the border, and two cells with one label are joined. *)
Lemma label_sound r c l :
  readCell prov r c = Some l ->
  (l = 1 -> touches (r, c))
  /\ (forall r' c', before r c r' c' -> readCell prov r' c' = Some l ->
                    joined_ (r, c) (r', c')).
Proof.
  revert c l. induction r as [r IHr] using lt_wf_ind.
  intros c. induction c as [c IHc] using lt_wf_ind. intros l Hl.
  assert (forall r' c' l', before r c r' c' -> readCell prov r' c' = Some l' ->
            (l' = 1 -> touches (r', c'))
            /\ (forall r'' c'', before r' c' r'' c'' -> readCell prov r'' c'' = Some l' ->
                                joined_ (r', c') (r'', c''))) as IH.
  { intros r' c' l' [Hb|[-> Hb]]; [by apply IHr|by apply IHc]. }
  clear IHr IHc.
  pose proof (prov_labelled dotsMask invert conn r c l Hl) as Hp.
  destruct (label_in_validIds r c l Hl) as [(_ & H2 & Hfresh)|Hin].
  { split; [intros ->; lia|].
    intros r' c' Hb Hl'. apply Hfresh in Hl'; [lia|done]. }
  apply validIds_source in Hin as [(ry & cy & Hby & Hady & Hly)|[-> Hedge]].
  - pose proof (prov_labelled dotsMask invert conn ry cy l Hly) as Hpy.
    assert (conn_ (r, c) (ry, cy)) as Hxy by (by apply connected_step).
    destruct (IH ry cy l Hby Hly) as [IHa IHb]. split.
    + intros ->. eapply touches_connected; [exact Hxy|]. by apply IHa.
    + intros r' c' Hb Hl'. eapply joined_connected; [exact Hxy|].
      destruct (decide ((r', c') = (ry, cy))) as [[= -> ->]|Hne]; [apply joined_refl|].
      assert (before ry cy r' c' \/ before r' c' ry cy) as [H|H].
      { unfold before. destruct (decide (r' = ry)) as [->|]; [|lia].
        destruct (decide (c' = cy)) as [->|]; [done|lia]. }
      * by apply IHb.
      * apply joined_sym. destruct (IH r' c' l Hb Hl') as [_ IHb']. by apply IHb'.
  - assert (touches (r, c)) as Ht.
    { exists (r, c). split; [done|]. split; [done|]. reflexivity. }
    split; [done|]. intros r' c' Hb Hl'. right. split; [done|].
    destruct (IH r' c' 1 Hb Hl') as [IHa _]. by apply IHa.
Qed.

Lemma same_label_joined r c r' c' l :
  readCell prov r c = Some l -> readCell prov r' c' = Some l -> joined_ (r, c) (r', c').
Proof.
  intros Hl Hl'.
  destruct (decide ((r', c') = (r, c))) as [[= -> ->]|Hne]; [apply joined_refl|].
  assert (before r c r' c' \/ before r' c' r c) as [H|H].
  { unfold before. destruct (decide (r' = r)) as [->|]; [|lia].
    destruct (decide (c' = c)) as [->|]; [done|lia]. }
  - by apply (label_sound r c l Hl).
  - apply joined_sym. by apply (label_sound r' c' l Hl').
Qed.

Lemma label_one_touches : labelTouches dotsMask invert conn 1.
Proof. intros r c Hl. by apply (label_sound r c 1 Hl). Qed.

(** Two ids met at one cell: the cells of one reach the border when those
    of the other do. *)
Lemma linked_touches i j :
  linked dotsMask invert conn prov i j ->
  labelTouches dotsMask invert conn i -> labelTouches dotsMask invert conn j.
Proof.
  intros (r & c & Hp & _ & Hi & Hj) Ti.
  assert (touches (r, c)) as Hx.
  { apply validIds_source in Hi as [(ry & cy & _ & Hady & Hly)|[-> Hedge]].
    - eapply touches_connected; [|by apply (Ti ry cy)].
      apply connected_step; [done| |done]. by eapply prov_labelled.
    - exists (r, c). split; [done|]. split; [done|]. reflexivity. }
  apply validIds_source in Hj as [(ry & cy & _ & Hady & Hly)|[-> Hedge]].
  - intros rz cz Hlz. eapply joined_touches; [by apply (same_label_joined rz cz ry cy j)|].
    eapply touches_connected; [|exact Hx]. apply connected_sym, connected_step; [done| |done].
    by eapply prov_labelled.
  - apply label_one_touches.
Qed.

Lemma linked_sym i j :
  linked dotsMask invert conn prov i j -> linked dotsMask invert conn prov j i.
Proof.
  intros (r & c & Hp & H1 & H2 & H3). exists r, c. split; [done|].
  unfold linkedAt. tauto.
Qed.

Lemma equivalent_touches i j :
  equivalent dotsMask invert conn prov i j ->
  (labelTouches dotsMask invert conn i <-> labelTouches dotsMask invert conn j).
Proof.
  intros H. induction H as [x|x y z Hxy _ IH]; [done|]. rewrite <- IH.
  destruct Hxy as [Hxy|Hxy]; split; apply linked_touches; (done || by apply linked_sym).
Qed.

(** A cell that resolves to 1 is in a component that reaches the border. *)
Lemma result_one_touches r c :
  readCell result.1 r c = Some 1 -> touches (r, c).
Proof.
  intros Hk. rewrite result_read in Hk.
  destruct (readCell prov r c) as [l|] eqn:Hl; [|done]. simpl in Hk.
  destruct (result_minimum dotsMask invert conn r c l Hl) as (k & Hk' & Heq & _).
  rewrite result_read, Hl in Hk'. simpl in Hk'.
  assert (k = 1) as -> by congruence.
  apply (proj2 (equivalent_touches l 1 Heq) label_one_touches r c Hl).
Qed.


Lemma adjacent_scanned r c r' c' :
  adjacent conn r c r' c' ->
  scannedNeighbour conn r c r' c' \/ scannedNeighbour conn r' c' r c.
Proof.
  unfold scannedNeighbour. destruct conn; simpl; unfold edgeAdjacent, cornerAdjacent.
  - lia.
  - intros (H1 & H2 & H3).
    assert (r' <> r \/ c' <> c) as Hne.
    { destruct (decide (r' = r)) as [->|]; [|by left].
      destruct (decide (c' = c)) as [->|]; [done|by right]. }
    destruct H1 as [-> | [<- | ->]], H2 as [-> | [<- | ->]];
      first [ lia | left; repeat split; lia | right; repeat split; lia
            | left; right; right; repeat split; (done || lia)
            | right; right; right; repeat split; (done || lia) ].
Qed.

Lemma isSquare_rowLength r :
  isSquare dotsMask -> r < length dotsMask -> rowLength dotsMask r = length dotsMask.
Proof.
  intros Hsq Hr. unfold rowLength.
  destruct (lookup_lt_is_Some_2 dotsMask r Hr) as [row Hrow]. rewrite Hrow.
  by eapply (Forall_lookup_1 _ _ _ _ Hsq).
Qed.

Lemma result_adjacent r c r' c' :
  isSquare dotsMask ->
  ofPolarity dotsMask invert r c -> ofPolarity dotsMask invert r' c' ->
  adjacent conn r c r' c' ->
  readCell result.1 r c = readCell result.1 r' c'.
Proof.
  intros Hsq Hp Hp' Ha. apply adjacent_scanned in Ha as [Hn|Hn].
  - apply result_neighbour; [done..|]. intros ->.
    destruct Hp' as [[Hr' Hc'] _]. rewrite isSquare_rowLength in Hc' by done. lia.
  - symmetry. apply result_neighbour; [done..|]. intros ->.
    destruct Hp as [[Hr Hc] _]. rewrite isSquare_rowLength in Hc by done. lia.
Qed.

(** Completeness: the cells of one component resolve to one id. *)
Lemma result_connected x y :
  isSquare dotsMask -> conn_ x y ->
  readCell result.1 x.1 x.2 = readCell result.1 y.1 y.2.
Proof.
  intros Hsq H. induction H as [x|x y z Hxy _ IH]; [done|]. rewrite <- IH.
  destruct Hxy as (H1 & H2 & H3). by apply result_adjacent.
Qed.

(** A labelled border cell of the 8-connected pass gets the label 1 and
    resolves to 1. *)
Lemma border_label r c :
  conn = Conn8 -> ofPolarity dotsMask invert r c -> onEdge dotsMask r c ->
  readCell prov r c = Some 1 /\ readCell result.1 r c = Some 1.
Proof.
  intros H8 Hp He.
  assert (1 ∈ validIdsAt dotsMask conn prov r c) as Hin.
  { apply validIdsAt_elem. by right. }
  assert (readCell prov r c = Some 1) as Hl.
  { pose proof (prov_rule dotsMask invert conn r c Hp) as Hrule. unfold followsRule in Hrule.
    pose proof (validIds_bound dotsMask invert conn r c) as Hb.
    destruct (validIdsAt dotsMask conn prov r c) as [|x [|x' xs]] eqn:HV.
    - by apply elem_of_nil in Hin.
    - apply list_elem_of_singleton in Hin as <-. done.
    - rewrite Hrule. f_equal.
      pose proof (mathMin_le (x :: x' :: xs) 1 Hin).
      pose proof (mathMin_in (x :: x' :: xs) ltac:(done)) as Hm.
      apply Hb in Hm as [Hm _]. lia. }
  split; [done|].
  destruct (result_minimum dotsMask invert conn r c 1 Hl) as (k & Hk & _ & Hmin).
  rewrite Hk. f_equal. pose proof (result_bound dotsMask invert conn r c k Hk) as [? _].
  specialize (Hmin 1 ltac:(reflexivity)). lia.
Qed.

Lemma touches_result_one x :
  isSquare dotsMask -> conn = Conn8 -> touches x -> readCell result.1 x.1 x.2 = Some 1.
Proof.
  intros Hsq H8 (b & Hb & He & Hxb).
  rewrite (result_connected x b Hsq Hxb). by apply border_label.
Qed.

End Components.

(** C5.  On a square mask, in the inverted 8-connected pass: a background
    cell resolves to the id 1 exactly when its component (background cells
    joined through edges and corners) contains a cell on the border of the
    grid; an id allocated for a cell without valid neighbour ids is at
    least 2; and a background cell whose component does not reach the
    border resolves to an id that is at least 2. *)
Theorem C5_outside_component (dotsMask : list (list bool)) :
  isSquare dotsMask ->
  let prov := provisional dotsMask true Conn8 in
  let result := buildConnectedComponents dotsMask true Conn8 in
  (forall r c, ofPolarity dotsMask true r c ->
     (readCell result.1 r c = Some 1 <-> touchesBorder dotsMask true Conn8 (r, c)))
  /\ (forall r c, ofPolarity dotsMask true r c ->
        validIdsAt dotsMask Conn8 prov r c = [] ->
        exists l, readCell prov r c = Some l /\ 2 <= l)
  /\ (forall r c, ofPolarity dotsMask true r c ->
        ~ touchesBorder dotsMask true Conn8 (r, c) ->
        exists k, readCell result.1 r c = Some k /\ 2 <= k).
Proof.
  intros Hsq prov result. subst prov result.
  assert (forall r c, ofPolarity dotsMask true r c ->
     (readCell (buildConnectedComponents dotsMask true Conn8).1 r c = Some 1
      <-> touchesBorder dotsMask true Conn8 (r, c))) as Hiff.
  { intros r c Hp. split; [apply result_one_touches|].
    intros Ht. by apply (touches_result_one dotsMask true Conn8 (r, c)). }
  split; [done|]. split.
  - intros r c Hp HV. pose proof (prov_rule dotsMask true Conn8 r c Hp) as Hrule.
    unfold followsRule in Hrule. rewrite HV in Hrule.
    destruct Hrule as (l & Hl & H2 & _). by exists l.
  - intros r c Hp Hnt. destruct (result_labelled dotsMask true Conn8 r c Hp) as [k Hk].
    exists k. split; [done|].
    pose proof (result_bound dotsMask true Conn8 r c k Hk) as [H1 _].
    destruct (decide (k = 1)) as [->|]; [|lia]. exfalso. by apply Hnt, Hiff.
Qed.

Lemma C5_outside_component_witness :
  let dotsMask := [[true; true; true; true];
                   [true; false; true; false];
                   [true; true; true; true];
                   [true; true; true; true]] in
  (readCell (buildConnectedComponents dotsMask true Conn8).1 1 3 = Some 1
   <-> touchesBorder dotsMask true Conn8 (1, 3))
  /\ (readCell (buildConnectedComponents dotsMask true Conn8).1 1 1 = Some 1
      <-> touchesBorder dotsMask true Conn8 (1, 1)).
Proof.
  intros dotsMask.
  assert (isSquare dotsMask) as Hsq by (repeat constructor).
  split.
  - refine (proj1 (C5_outside_component dotsMask Hsq) 1 3 _).
    split; [split; unfold rowLength; simpl; lia|done].
  - refine (proj1 (C5_outside_component dotsMask Hsq) 1 1 _).
    split; [split; unfold rowLength; simpl; lia|done].
Defined.

Example enclosed_cell_is_not_outside :
  buildConnectedComponents
    [[true; true; true; true];
     [true; false; true; false];
     [true; true; true; true];
     [true; true; true; true]] true Conn8
  = ([[None; None; None; None];
      [None; Some 2; None; Some 1];
      [None; None; None; None];
      [None; None; None; None]],
     [(2, (1, 1)); (1, (1, 3))]).
Proof. by vm_compute. Qed.

(** C10.  On a square mask, every entry of the registry of the inverted
    8-connected pass with an id greater than 1 has a start coordinate that
    is not in the first column, and the cell to its left is a foreground
    cell of the grid, which the 4-connected foreground pass labels. *)
Theorem C10_hole_left_neighbour (dotsMask : list (list bool)) (k r c : nat) :
  isSquare dotsMask ->
  1 < k ->
  mapGet (buildConnectedComponents dotsMask true Conn8).2 k = Some (r, c) ->
  1 <= c
  /\ inGrid dotsMask r (c - 1)
  /\ maskAt dotsMask r (c - 1) = true
  /\ is_Some (readCell (buildConnectedComponents dotsMask false Conn4).1 r (c - 1)).
Proof.
  intros Hsq Hk Hget. apply result_ids in Hget as [Hread Hfirst].
  pose proof (result_inGrid _ _ _ _ _ _ Hread) as Hin.
  assert (ofPolarity dotsMask true r c) as Hp.
  { split; [done|]. intros Hm.
    apply (proj2 (result_null dotsMask true Conn8 r c Hin)) in Hm. congruence. }
  assert (~ onEdge dotsMask r c) as Hne.
  { intros He. destruct (border_label dotsMask true Conn8 r c eq_refl Hp He) as [_ H1].
    rewrite H1 in Hread. injection Hread as <-. lia. }
  assert (1 <= c) as Hc by (unfold onEdge in Hne; lia).
  assert (inGrid dotsMask r (c - 1)) as Hin' by (destruct Hin; split; [done|lia]).
  assert (maskAt dotsMask r (c - 1) = true) as Hm.
  { destruct (maskAt dotsMask r (c - 1)) eqn:Hm; [done|]. exfalso.
    assert (ofPolarity dotsMask true r (c - 1)) as Hp' by (split; [done|congruence]).
    apply (Hfirst r (c - 1)); [right; lia|].
    rewrite <- Hread. symmetry. apply result_neighbour; [done|done| |lia].
    left. split; [done|lia]. }
  split; [done|]. split; [done|]. split; [done|].
  apply result_labelled. split; [done|]. congruence.
Qed.

Lemma C10_hole_left_neighbour_witness :
  let dotsMask := [[true; true; true; true];
                   [true; false; true; false];
                   [true; true; true; true];
                   [true; true; true; true]] in
  1 <= 1
  /\ inGrid dotsMask 1 (1 - 1)
  /\ maskAt dotsMask 1 (1 - 1) = true
  /\ is_Some (readCell (buildConnectedComponents dotsMask false Conn4).1 1 (1 - 1)).
Proof.
  intros dotsMask.
  refine (C10_hole_left_neighbour dotsMask 2 1 1 _ _ _).
  - repeat constructor.
  - lia.
  - reflexivity.
Defined.


(** ** The compound paths *)

Lemma mapM_lookup_keys {V B} (m : list (nat * V)) (f : V -> option B) (l : list (nat * V)) :
  (forall h, h ∈ l -> mapGet m h.1 = Some h.2) ->
  mapM (fun k => match mapGet m k with Some v => f v | None => None end) l.*1
  = mapM (fun h => f h.2) l.
Proof.
  induction l as [|h l IH]; intros H; [done|]. cbn.
  rewrite H by (apply elem_of_cons; by left).
  rewrite IH; [done|]. intros h' Hh'. apply H, elem_of_cons. by right.
Qed.

Lemma isHoleOf_true components k entry :
  isHoleOf components k entry = true
  <-> 1 < entry.1 /\ 0 < entry.2.2
      /\ readCell components entry.2.1 (entry.2.2 - 1) = Some k.
Proof.
  unfold isHoleOf. rewrite andb_true_iff, !bool_decide_eq_true. tauto.
Qed.

Section Compositor.
Variable str : Q -> string.
Variable dotSize : Q.

Lemma drawComponents_eq (fuel : nat) (dotsMask : list (list bool)) (offset : Q * Q)
    (drawer : drawer) :
  let components := (buildConnectedComponents dotsMask false Conn4).1 in
  let ids := (buildConnectedComponents dotsMask false Conn4).2 in
  let backgroundIds := (buildConnectedComponents dotsMask true Conn8).2 in
  drawComponents str dotSize fuel dotsMask offset drawer
  = mapM (fun '(id, start) =>
            path ← renderComponentToPath str dotSize fuel id components offset
                     (Z.of_nat start.1, Z.of_nat start.2) drawer false;
            holes ← holePaths str dotSize fuel components offset drawer backgroundIds id
                      (default [] (mapGet (backgroundPathsFor components backgroundIds) id));
            Some (id, path +:+ String.concat "" holes)) ids.
Proof.
  intros components ids backgroundIds. subst components ids backgroundIds.
  unfold drawComponents.
  destruct (buildConnectedComponents dotsMask false Conn4) as [components ids].
  destruct (buildConnectedComponents dotsMask true Conn8) as [bg backgroundIds].
  simpl.
  rewrite (mapM_fuse
    (fun '(id, start) =>
       path ← renderComponentToPath str dotSize fuel id components offset
                (Z.of_nat start.1, Z.of_nat start.2) drawer false;
       Some (id, path))
    (fun '(id, path) =>
       holes ← holePaths str dotSize fuel components offset drawer backgroundIds id
                 (default [] (mapGet (backgroundPathsFor components backgroundIds) id));
       Some (id, path +:+ String.concat "" holes))).
  apply mapM_ext. intros [id start].
  by destruct (renderComponentToPath str dotSize fuel id components offset
                 (Z.of_nat start.1, Z.of_nat start.2) drawer false).
Qed.

Lemma holesOf_elem dotsMask entry k :
  let components := (buildConnectedComponents dotsMask false Conn4).1 in
  let backgroundIds := (buildConnectedComponents dotsMask true Conn8).2 in
  entry ∈ holesOf components backgroundIds k
  <-> entry ∈ backgroundIds
      /\ 1 < entry.1 /\ 0 < entry.2.2
      /\ readCell components entry.2.1 (entry.2.2 - 1) = Some k.
Proof.
  intros components backgroundIds.
  unfold holesOf. rewrite list_elem_of_filter, isHoleOf_true. tauto.
Qed.

Lemma foreground_id_pos dotsMask r c k :
  readCell (buildConnectedComponents dotsMask false Conn4).1 r c = Some k -> k <> 0.
Proof. intros Hk. apply result_bound in Hk as [? _]. lia. Qed.

(** The paths of [drawComponents], in terms of the holes. *)
Lemma drawComponents_spec (fuel : nat) (dotsMask : list (list bool)) (offset : Q * Q)
    (drawer : drawer) :
  let components := (buildConnectedComponents dotsMask false Conn4).1 in
  let ids := (buildConnectedComponents dotsMask false Conn4).2 in
  let backgroundIds := (buildConnectedComponents dotsMask true Conn8).2 in
  drawComponents str dotSize fuel dotsMask offset drawer
  = mapM (fun '(id, start) =>
            path ← renderComponentToPath str dotSize fuel id components offset
                     (Z.of_nat start.1, Z.of_nat start.2) drawer false;
            holes ← mapM (fun hole =>
                            renderComponentToPath str dotSize fuel id components offset
                              (upLeftOf hole.2) drawer true)
                         (holesOf components backgroundIds id);
            Some (id, path +:+ String.concat "" holes)) ids.
Proof.
  intros components ids backgroundIds.
  rewrite drawComponents_eq. fold components ids backgroundIds.
  apply Forall_mapM_ext, Forall_forall. intros [id start] Hin.
  destruct (renderComponentToPath str dotSize fuel id components offset
              (Z.of_nat start.1, Z.of_nat start.2) drawer false) as [path|]; [|done].
  cbn. f_equal.
  assert (id <> 0) as Hid.
  { destruct start as [r c]. apply result_ids_elem, result_ids in Hin as [Hin _].
    by eapply foreground_id_pos. }
  unfold holePaths. rewrite backgroundPathsFor_get by done.
  apply (mapM_lookup_keys backgroundIds
           (fun start => renderComponentToPath str dotSize fuel id components offset
                           (upLeftOf start) drawer true)).
  intros [b s] Hh. apply holesOf_elem in Hh as [Hh _].
  apply mapGet_Some; [apply result_ids_nodup|done].
Qed.

(** C6.  On a square mask, with [components] the resolved foreground label
    map and [backgroundIds] the registry of the inverted 8-connected pass:
    - the id of a background entry is pushed on the list kept for the
      foreground id [k] exactly when the id is greater than 1, the start
      coordinate is not in the first column and the foreground map holds
      [k] at the cell to its left; so an entry is the hole of some
      foreground component exactly when its id is greater than 1 and that
      cell is not [null];
    - the path drawn for a foreground component is its own contour followed
      by the contours of its holes, in registry order, each traced with the
      foreground id from the hole's start coordinate moved one cell up and
      one cell left, with the start forced to the bottom;
      [drawComponents] returns these paths when all the walks return, and
      nothing when some walk does not within the bound;
    - an entry that fails the test is the hole of no component, so it
      contributes to no path. *)
Theorem C6_hole_compositor (fuel : nat) (dotsMask : list (list bool)) (offset : Q * Q)
    (drawer : drawer) :
  isSquare dotsMask ->
  let components := (buildConnectedComponents dotsMask false Conn4).1 in
  let ids := (buildConnectedComponents dotsMask false Conn4).2 in
  let backgroundIds := (buildConnectedComponents dotsMask true Conn8).2 in
  (forall entry k, entry ∈ backgroundIds -> k <> 0 ->
     (entry.1 ∈ default [] (mapGet (backgroundPathsFor components backgroundIds) k)
      <-> 1 < entry.1 /\ 0 < entry.2.2
          /\ readCell components entry.2.1 (entry.2.2 - 1) = Some k))
  /\ (forall entry, entry ∈ backgroundIds ->
        ((exists k, entry ∈ holesOf components backgroundIds k)
         <-> 1 < entry.1 /\ 0 < entry.2.2
             /\ readCell components entry.2.1 (entry.2.2 - 1) <> None))
  /\ drawComponents str dotSize fuel dotsMask offset drawer
     = mapM (fun '(id, start) =>
               path ← renderComponentToPath str dotSize fuel id components offset
                        (Z.of_nat start.1, Z.of_nat start.2) drawer false;
               holes ← mapM (fun hole =>
                               renderComponentToPath str dotSize fuel id components offset
                                 (Z.of_nat hole.2.1 - 1, Z.of_nat hole.2.2 - 1)%Z drawer true)
                            (holesOf components backgroundIds id);
               Some (id, path +:+ String.concat "" holes)) ids.
Proof.
  intros _ components ids backgroundIds.
  assert (NoDup backgroundIds.*1) as Hnd by apply result_ids_nodup.
  pose proof (holesOf_elem dotsMask) as Hholes. simpl in Hholes.
  fold components backgroundIds in Hholes.
  split; [|split].
  - intros entry k Hin Hk.
    rewrite backgroundPathsFor_get by done. rewrite list_elem_of_fmap. split.
    + intros (h & Hh1 & Hh). apply Hholes in Hh as (Hh & H1 & H2 & H3).
      assert (h = entry) as ->; [|done].
      destruct h as [b s], entry as [b' s']. simpl in *. subst b'.
      apply mapGet_Some in Hh; [|done]. apply mapGet_Some in Hin; [|done]. congruence.
    + intros H. exists entry. split; [done|]. apply Hholes. by split.
  - intros entry Hin. split.
    + intros (k & Hk). apply Hholes in Hk as (_ & H1 & H2 & H3).
      split; [done|]. split; [done|]. congruence.
    + intros (H1 & H2 & H3).
      destruct (readCell components entry.2.1 (entry.2.2 - 1)) as [k|] eqn:Hk; [|done].
      exists k. apply Hholes. by repeat split.
  - exact (drawComponents_spec fuel dotsMask offset drawer).
Qed.

End Compositor.

Lemma C6_hole_compositor_witness :
  let dotsMask := [[true; true; true]; [true; false; true]; [true; true; true]] in
  drawComponents showNumber 4 20 dotsMask (0, 0)%Q (drawerFactory square 4)
  = mapM (fun '(id, start) =>
            path ← renderComponentToPath showNumber 4 20 id
                     (buildConnectedComponents dotsMask false Conn4).1 (0, 0)%Q
                     (Z.of_nat start.1, Z.of_nat start.2) (drawerFactory square 4) false;
            holes ← mapM (fun hole =>
                            renderComponentToPath showNumber 4 20 id
                              (buildConnectedComponents dotsMask false Conn4).1 (0, 0)%Q
                              (Z.of_nat hole.2.1 - 1, Z.of_nat hole.2.2 - 1)%Z (drawerFactory square 4) true)
                         (holesOf (buildConnectedComponents dotsMask false Conn4).1
                            (buildConnectedComponents dotsMask true Conn8).2 id);
            Some (id, path +:+ String.concat "" holes))
         (buildConnectedComponents dotsMask false Conn4).2.
Proof.
  intros dotsMask.
  refine (proj2 (proj2
    (C6_hole_compositor showNumber 4 20 dotsMask (0, 0)%Q (drawerFactory square 4) _))).
  repeat constructor.
Defined.

Example ring_with_hole :
  let dotsMask := [[true; true; true]; [true; false; true]; [true; true; true]] in
  holesOf (buildConnectedComponents dotsMask false Conn4).1
    (buildConnectedComponents dotsMask true Conn8).2 2 = [(2, (1, 1))]
  /\ drawComponents showNumber 4 20 dotsMask (0, 0)%Q (drawerFactory square 4)
     = Some [(2, "M 0 0 m 4 0h -4v 4v 4v 4h 4h 4h 4v -4v -4v -4h -4h -4"
                 +:+ "M 0 0 m 4 4h 4v 4h -4v -4")].
Proof. by vm_compute. Qed.


(** ** Termination of the contour walk *)

(** *** Directions *)

Lemma opposite_afterOrigin o : opposite o = afterOrigin (afterOrigin o).
Proof. by destruct o. Qed.

Lemma afterOrigin_four o : afterOrigin (afterOrigin (afterOrigin (afterOrigin o))) = o.
Proof. by destruct o. Qed.

Lemma afterOrigin_inj o o' : afterOrigin o = afterOrigin o' -> o = o'.
Proof. destruct o, o'; simpl; congruence. Qed.

Lemma opposite_inj o o' : opposite o = opposite o' -> o = o'.
Proof. destruct o, o'; simpl; congruence. Qed.

Lemma move_comm (x : Z * Z) d1 d2 : move (move x d1) d2 = move (move x d2) d1.
Proof. destruct x, d1, d2; simpl; f_equal; lia. Qed.

Lemma move_inj (x y : Z * Z) d : move x d = move y d -> x = y.
Proof. destruct x, y, d; simpl; intros [= ? ?]; f_equal; lia. Qed.

Lemma firstNeighbour_cases o (has : Directions -> bool) :
  firstNeighbour o has
  = if has (afterOrigin o) then Some (afterOrigin o)
    else if has (afterOrigin (afterOrigin o)) then Some (afterOrigin (afterOrigin o))
    else if has (afterOrigin (afterOrigin (afterOrigin o)))
         then Some (afterOrigin (afterOrigin (afterOrigin o)))
    else if has o then Some o else None.
Proof. by destruct o. Qed.

(** Among the sides with a neighbour, the next direction determines the
    arrival side. *)
Lemma firstNeighbour_inj o o' (has : Directions -> bool) :
  has o = true -> has o' = true ->
  firstNeighbour o has = firstNeighbour o' has -> o = o'.
Proof.
  rewrite !firstNeighbour_cases.
  destruct o, o'; simpl; try done;
    destruct (has Left), (has Bottom), (has Right), (has Top); simpl; congruence.
Qed.

(** *** The step on valid states *)

Section Walk.
Variable components : list (list (option nat)).
Variable componentId : nat.

Local Abbreviation has := (hasNeighbour components componentId).
Local Abbreviation inC := (fun x : Z * Z => isComponent components x.1 x.2 componentId).
Local Abbreviation step := (stepState components componentId).
Local Abbreviation valid := (validState components componentId).
Local Abbreviation corner := (cornerState components componentId).

Lemma valid_next s :
  valid s -> exists d, nextDirectionAt components componentId s.1 s.2 = Some d
                       /\ has s.1 d = true.
Proof.
  intros [_ Hn]. rewrite nextDirectionAt_spec.
  destruct (firstNeighbour s.2 (has s.1)) as [d|] eqn:E.
  - exists d. split; [done|]. by eapply firstNeighbour_Some.
  - pose proof (proj1 (firstNeighbour_None _ _) E s.2). congruence.
Qed.

Lemma step_valid s : valid s -> valid (step s).
Proof.
  intros Hv. destruct (valid_next s Hv) as (d & Hd & Hhas).
  unfold stepState. rewrite Hd. split; simpl.
  - exact Hhas.
  - unfold hasNeighbour. rewrite move_opposite. apply Hv.
Qed.

Lemma step_inj s s' : valid s -> valid s' -> step s = step s' -> s = s'.
Proof.
  intros Hv Hv' Heq.
  destruct (valid_next s Hv) as (d & Hd & _).
  destruct (valid_next s' Hv') as (d' & Hd' & _).
  unfold stepState in Heq. rewrite Hd, Hd' in Heq. injection Heq as Hm Ho.
  apply opposite_inj in Ho as <-. apply move_inj in Hm.
  destruct s as [x o], s' as [x' o']. simpl in *. subst x'. f_equal.
  rewrite !nextDirectionAt_spec in *.
  apply (firstNeighbour_inj o o' (has x)); [apply Hv|apply Hv'|congruence].
Qed.

Lemma step_corner s : corner s -> corner (step s).
Proof.
  intros [Hv Hc]. split; [by apply step_valid|].
  destruct (valid_next s Hv) as (d & Hd & Hhas).
  unfold stepState. rewrite Hd. simpl.
  rewrite nextDirectionAt_spec, firstNeighbour_cases in Hd.
  destruct s as [x o]. simpl in *.
  destruct (has x (afterOrigin o)) eqn:H1.
  - injection Hd as <-.
    replace (afterOrigin (opposite (afterOrigin o))) with o by (by destruct o).
    intros Hp. exfalso. specialize (Hc eq_refl).
    unfold hasNeighbour in Hp, Hc. rewrite move_comm in Hp. congruence.
  - intros _. unfold hasNeighbour. rewrite move_opposite.
    destruct (has x (afterOrigin (afterOrigin o))) eqn:H2.
    { injection Hd as <-.
      replace (afterOrigin (opposite (afterOrigin (afterOrigin o))))
        with (afterOrigin o) by (by destruct o). exact H1. }
    destruct (has x (afterOrigin (afterOrigin (afterOrigin o)))) eqn:H3.
    { injection Hd as <-.
      replace (afterOrigin (opposite (afterOrigin (afterOrigin (afterOrigin o)))))
        with (afterOrigin (afterOrigin o)) by (by destruct o). exact H2. }
    destruct (has x o) eqn:H4; [|done]. injection Hd as <-.
    replace (afterOrigin (opposite o))
      with (afterOrigin (afterOrigin (afterOrigin o))) by (by destruct o). exact H3.
Qed.

(** After a step that turns at once, the next one does not. *)
Lemma step_after_turn s :
  corner s -> turnsAtOnce components componentId s = true ->
  turnsAtOnce components componentId (step s) = false.
Proof.
  intros [Hv Hc] Ht. unfold turnsAtOnce in *.
  destruct (valid_next s Hv) as (d & Hd & Hhas).
  unfold stepState. rewrite Hd. simpl.
  rewrite nextDirectionAt_spec, firstNeighbour_cases in Hd. rewrite Ht in Hd.
  injection Hd as <-.
  replace (afterOrigin (opposite (afterOrigin s.2))) with s.2 by (by destruct s.2).
  unfold hasNeighbour in *. rewrite move_comm. by apply Hc.
Qed.

Lemma iter_step_valid n s : valid s -> valid (Nat.iter n step s).
Proof. intros Hv. induction n as [|n IH]; [done|]. simpl. by apply step_valid. Qed.

Lemma iter_step_corner n s : corner s -> corner (Nat.iter n step s).
Proof. intros Hv. induction n as [|n IH]; [done|]. simpl. by apply step_corner. Qed.

End Walk.

(** *** Orbits of an injective map on a finite set *)

Section Orbit.
Context {A : Type} `{EqDecision A}.
Variable f : A -> A.
Variable S : A -> Prop.
Hypothesis S_closed : forall y, S y -> S (f y).
Hypothesis f_inj : forall y z, S y -> S z -> f y = f z -> y = z.

Lemma iter_in n x : S x -> S (Nat.iter n f x).
Proof. intros Hx. induction n as [|n IH]; [done|]. simpl. by apply S_closed. Qed.

Lemma iter_back i k x :
  S x -> Nat.iter (i + k) f x = Nat.iter i f x -> Nat.iter k f x = x.
Proof.
  intros Hx. induction i as [|i IH]; [done|]. simpl. intros H. apply IH.
  apply f_inj; [by apply iter_in|by apply iter_in|done].
Qed.

Lemma repeated_index (l : list A) :
  ~ NoDup l -> exists i j x, i < j /\ l !! i = Some x /\ l !! j = Some x.
Proof.
  induction l as [|x l IH]; intros Hnd; [destruct Hnd; constructor|].
  destruct (decide (x ∈ l)) as [Hin|Hnin].
  - apply list_elem_of_lookup in Hin as [j Hj]. exists 0, (Datatypes.S j), x.
    split; [lia|]. by split.
  - destruct IH as (i & j & y & Hij & Hi & Hj).
    { intros Hl. apply Hnd. by constructor. }
    exists (Datatypes.S i), (Datatypes.S j), y. split; [lia|]. by split.
Qed.

(** The orbit of a point of [S] comes back to it within [length carrier]
    steps, when [carrier] lists [S]. *)
Lemma orbit_returns (carrier : list A) x :
  (forall y, S y -> y ∈ carrier) -> S x ->
  exists n, 0 < n <= length carrier /\ Nat.iter n f x = x.
Proof.
  intros Hcar Hx.
  set (l := (fun i => Nat.iter i f x) <$> seq 0 (Datatypes.S (length carrier))).
  assert (~ NoDup l) as Hnd.
  { intros Hnd. apply (NoDup_submseteq _ carrier) in Hnd.
    - apply submseteq_length in Hnd. unfold l in Hnd.
      rewrite length_fmap, length_seq in Hnd. lia.
    - intros y Hy. apply list_elem_of_fmap in Hy as (i & -> & _).
      by apply Hcar, iter_in. }
  destruct (repeated_index l Hnd) as (i & j & y & Hij & Hi & Hj).
  unfold l in Hi, Hj. rewrite list_lookup_fmap in Hi, Hj.
  destruct (seq 0 (Datatypes.S (length carrier)) !! i) as [i'|] eqn:Ei; [|done].
  destruct (seq 0 (Datatypes.S (length carrier)) !! j) as [j'|] eqn:Ej; [|done].
  apply lookup_seq in Ei as [-> Hi']. apply lookup_seq in Ej as [-> Hj'].
  simpl in Hi, Hj. injection Hi as Hi. injection Hj as Hj.
  exists (j - i). split; [lia|]. apply (iter_back i); [done|].
  replace (i + (j - i)) with j by lia. congruence.
Qed.

(** The first return. *)
Lemma first_return x n :
  0 < n -> Nat.iter n f x = x ->
  exists m, 0 < m <= n /\ Nat.iter m f x = x
            /\ forall k, 0 < k < m -> Nat.iter k f x <> x.
Proof.
  intros Hn Hret.
  assert (forall b, (forall k, 0 < k <= b -> Nat.iter k f x <> x)
                    \/ exists m, 0 < m <= b /\ Nat.iter m f x = x
                                 /\ forall k, 0 < k < m -> Nat.iter k f x <> x) as Hsearch.
  { induction b as [|b [IH|(m & Hm & Hr & Hl)]].
    - left. intros k Hk. lia.
    - destruct (decide (Nat.iter (Datatypes.S b) f x = x)) as [Hb|Hb].
      + right. exists (Datatypes.S b). split; [lia|]. split; [done|].
        intros k Hk. apply IH. lia.
      + left. intros k Hk. destruct (decide (k = Datatypes.S b)) as [->|]; [done|].
        apply IH. lia.
    - right. exists m. split; [lia|]. by split. }
  destruct (Hsearch n) as [Hno|H]; [|done]. exfalso. by apply (Hno n).
Qed.

(** Before the first return the orbit does not repeat. *)
Lemma orbit_NoDup x m :
  S x -> (forall k, 0 < k < m -> Nat.iter k f x <> x) ->
  NoDup ((fun i => Nat.iter i f x) <$> seq 0 m).
Proof.
  intros Hx Hfirst. apply NoDup_fmap_2_strong; [|apply NoDup_seq].
  intros i j Hi Hj Heq. apply elem_of_seq in Hi, Hj.
  destruct (decide (i = j)) as [|Hne]; [done|]. exfalso.
  destruct (decide (i < j)).
  - apply (Hfirst (j - i)); [lia|]. apply (iter_back i); [done|].
    replace (i + (j - i)) with j by lia. congruence.
  - apply (Hfirst (i - j)); [lia|]. apply (iter_back j); [done|].
    replace (j + (i - j)) with i by lia. congruence.
Qed.

End Orbit.

Lemma length_filter_split {A} (P : A -> bool) (l : list A) :
  length (filter (fun x => P x = true) l) + length (filter (fun x => P x = false) l)
  = length l.
Proof.
  induction l as [|x l IH]; [done|]. rewrite !filter_cons.
  destruct (decide (P x = true)) as [Ht|Ht], (decide (P x = false)) as [Hf|Hf];
    simpl; [congruence|lia|lia|by destruct (P x)].
Qed.

(** *** Counting the steps of a closed walk *)

Section WalkBound.
Variable components : list (list (option nat)).
Variable componentId : nat.

Local Abbreviation has := (hasNeighbour components componentId).
Local Abbreviation step := (stepState components componentId).
Local Abbreviation valid := (validState components componentId).
Local Abbreviation corner := (cornerState components componentId).
Local Abbreviation turns := (turnsAtOnce components componentId).

Lemma isComponent_gridCells (x : Z * Z) :
  isComponent components x.1 x.2 componentId = true -> x ∈ gridCells components.
Proof.
  unfold isComponent. destruct x as [r c]. simpl.
  destruct (bool_decide (0 <= r)%Z) eqn:Hr; [|done].
  destruct (bool_decide (0 <= c)%Z) eqn:Hc; [|done]. simpl.
  apply bool_decide_eq_true in Hr, Hc.
  destruct (readCell components (Z.to_nat r) (Z.to_nat c)) as [v|] eqn:Hv; [|done].
  intros _. apply readCell_Some_inGrid in Hv as [H1 H2].
  unfold gridCells. apply list_elem_of_bind. exists (Z.to_nat r). split; [|by apply elem_of_seq; lia].
  apply list_elem_of_bind. exists (Z.to_nat c). split; [|by apply elem_of_seq; lia].
  apply list_elem_of_singleton. f_equal; lia.
Qed.

Lemma boundaryEdges_elem (x : Z * Z) d :
  isComponent components x.1 x.2 componentId = true -> has x d = false ->
  (x, d) ∈ boundaryEdges components componentId.
Proof.
  intros Hx Hd. unfold boundaryEdges. apply list_elem_of_bind. exists x.
  split; [|by apply isComponent_gridCells].
  apply list_elem_of_bind. exists d. split; [|destruct d; set_solver].
  rewrite Hx, Hd. simpl. by apply list_elem_of_singleton.
Qed.

Lemma innerStates_elem s : valid s -> s ∈ innerStates components componentId.
Proof.
  intros [Hx Hd]. destruct s as [x d]. simpl in *.
  unfold innerStates. apply list_elem_of_bind. exists x.
  split; [|by apply isComponent_gridCells].
  apply list_elem_of_bind. exists d. split; [|destruct d; set_solver].
  rewrite Hx, Hd. simpl. by apply list_elem_of_singleton.
Qed.

(** A walk from a valid state returns to it, and before the first return
    it passes through no state twice. *)
Lemma walk_returns s0 :
  valid s0 ->
  exists n, 0 < n /\ Nat.iter n step s0 = s0
            /\ forall k, 0 < k < n -> Nat.iter k step s0 <> s0.
Proof.
  intros Hv.
  destruct (orbit_returns step valid (step_valid components componentId)
              (step_inj components componentId)
              (innerStates components componentId) s0 innerStates_elem Hv)
    as (n & Hn & Hret).
  destruct (first_return step s0 n ltac:(lia) Hret) as (m & Hm & Hr & Hf).
  exists m. split; [lia|]. by split.
Qed.

(** The first return of a walk from a corner state comes after at most
    twice as many steps as the component has boundary edges: the steps that
    do not turn at once each start along a boundary edge of their own, and
    every step that turns at once is followed by one that does not. *)
Lemma walk_bound s0 n :
  corner s0 -> 0 < n -> Nat.iter n step s0 = s0 ->
  (forall k, 0 < k < n -> Nat.iter k step s0 <> s0) ->
  n <= 2 * boundaryLength components componentId.
Proof.
  intros Hc Hn Hret Hfirst. pose proof Hc as [Hv _].
  set (orbit := (fun i => Nat.iter i step s0) <$> seq 0 n).
  assert (NoDup orbit) as Hnd.
  { apply (orbit_NoDup step valid (step_valid components componentId)
             (step_inj components componentId)); done. }
  assert (forall s, s ∈ orbit -> corner s /\ step s ∈ orbit) as Horb.
  { intros s Hs. apply list_elem_of_fmap in Hs as (i & -> & Hi). apply elem_of_seq in Hi.
    split; [by apply iter_step_corner|].
    apply list_elem_of_fmap. destruct (decide (S i = n)) as [Hl|Hl].
    - exists 0. split; [|apply elem_of_seq; lia]. simpl.
      change (step (Nat.iter i step s0)) with (Nat.iter (S i) step s0). by rewrite Hl.
    - exists (S i). split; [done|]. apply elem_of_seq. lia. }
  set (straight := filter (fun s => turns s = false) orbit).
  set (sharp := filter (fun s => turns s = true) orbit).
  assert (length sharp + length straight = n) as Hsplit.
  { unfold sharp, straight. rewrite (length_filter_split turns orbit).
    unfold orbit. by rewrite length_fmap, length_seq. }
  assert (length straight <= boundaryLength components componentId) as H1.
  { unfold boundaryLength.
    rewrite <- (length_fmap (fun s : (Z * Z) * Directions => (s.1, afterOrigin s.2))).
    apply submseteq_length, NoDup_submseteq.
    - apply NoDup_fmap_2_strong; [|by apply NoDup_filter].
      intros [x o] [x' o'] _ _ [= -> Ho]. by apply afterOrigin_inj in Ho as ->.
    - intros e He. apply list_elem_of_fmap in He as (s & -> & Hs).
      apply list_elem_of_filter in Hs as [Ht Hs].
      apply Horb in Hs as [[[Hx _] _] _]. by apply boundaryEdges_elem. }
  assert (length sharp <= length straight) as H2.
  { rewrite <- (length_fmap step sharp).
    apply submseteq_length, NoDup_submseteq.
    - apply NoDup_fmap_2_strong; [|by apply NoDup_filter].
      intros s s' Hs Hs' Heq.
      apply list_elem_of_filter in Hs as [_ Hs]. apply list_elem_of_filter in Hs' as [_ Hs'].
      apply (step_inj components componentId); [apply Horb, Hs|apply Horb, Hs'|done].
    - intros e He. apply list_elem_of_fmap in He as (s & -> & Hs).
      apply list_elem_of_filter in Hs as [Ht Hs]. apply Horb in Hs as [Hcs Hin].
      apply list_elem_of_filter. split; [|done]. by apply step_after_turn. }
  lia.
Qed.

End WalkBound.


(** *** The loop follows the orbit *)

Section LoopOrbit.
Variable str : Q -> string.
Variable dotSize : Q.
Variable components : list (list (option nat)).
Variable componentId : nat.
Variable start : Z * Z.
Variable drawer : drawer.
Variable o0 : Directions.

Local Abbreviation has := (hasNeighbour components componentId).
Local Abbreviation step := (stepState components componentId).
Local Abbreviation valid := (validState components componentId).
Local Abbreviation corner := (cornerState components componentId).

Lemma walkLoop_orbit (n : nat) :
  forall (st : walkState) (fuel : nat),
    0 < n -> n <= fuel ->
    valid (current st, origin st) ->
    Nat.iter n step (current st, origin st) = (start, o0) ->
    (forall k, 0 < k < n -> Nat.iter k step (current st, origin st) <> (start, o0)) ->
    exists st', walkLoop str fuel componentId components start drawer o0 st = Some st'
                /\ length (moves st') = length (moves st) + n
                /\ current st' = start /\ origin st' = o0.
Proof.
  induction n as [|n IH]; intros st fuel Hn Hfuel Hv Hret Hfirst; [lia|].
  destruct fuel as [|fuel]; [lia|]. simpl.
  destruct (valid_next components componentId _ Hv) as (d & Hd & _). simpl in Hd.
  rewrite Hd.
  assert (step (current st, origin st) = (move (current st) d, opposite d)) as Hstep.
  { unfold stepState. simpl. by rewrite Hd. }
  rewrite Nat.iter_succ_r, Hstep in Hret.
  destruct n as [|n].
  - simpl in Hret. injection Hret as Hc Ho.
    assert (continueWalk start o0 (move (current st) d) (opposite d) = false) as ->.
    { by apply continueWalk_false. }
    eexists. split; [done|]. simpl. rewrite length_app. simpl. split; [lia|done].
  - assert (continueWalk start o0 (move (current st) d) (opposite d) = true) as ->.
    { destruct (continueWalk start o0 (move (current st) d) (opposite d)) eqn:E; [done|].
      apply continueWalk_false in E as [E1 E2]. exfalso. apply (Hfirst 1); [lia|].
      simpl. rewrite Hstep. by rewrite E1, E2. }
    set (st1 := WalkState _ _ _ _).
    destruct (IH st1 fuel) as (st' & Hrun & Hlen & Hcur & Horig).
    + lia.
    + lia.
    + unfold st1. simpl. rewrite <- Hstep. by apply step_valid.
    + exact Hret.
    + intros k Hk. unfold st1. simpl. rewrite <- Hstep, <- Nat.iter_succ_r.
      apply Hfirst. lia.
    + exists st'. split; [done|]. split; [|done].
      rewrite Hlen. unfold st1. simpl. rewrite length_app. simpl. lia.
Qed.

End LoopOrbit.

Section Termination.
Variable str : Q -> string.
Variable dotSize : Q.

Lemma walkInit_fields components componentId offset (start : Z * Z) moveRight :
  current (walkInit str dotSize componentId components offset start moveRight) = start
  /\ moves (walkInit str dotSize componentId components offset start moveRight) = [].
Proof. unfold walkInit. by repeat case_match. Qed.

(** A walk that starts on an isolated cell or in a corner state returns,
    after at most twice the boundary length of the component in moves, to
    its start cell with its starting orientation. *)
Lemma renderWalk_terminates components componentId offset (start : Z * Z) drawer moveRight :
  let o0 := origin (walkInit str dotSize componentId components offset start moveRight) in
  (forall d, hasNeighbour components componentId start d = false)
  \/ cornerState components componentId (start, o0) ->
  exists n, n <= 2 * boundaryLength components componentId
            /\ forall fuel, n < fuel ->
                 exists st, renderWalk str dotSize fuel componentId components offset start
                              drawer moveRight = Some st
                            /\ length (moves st) = n
                            /\ current st = start /\ origin st = o0.
Proof.
  intros o0 Hcase. unfold renderWalk. fold o0.
  destruct (walkInit_fields components componentId offset start moveRight) as [Hcur Hmoves].
  set (st0 := walkInit str dotSize componentId components offset start moveRight) in *.
  destruct Hcase as [Hiso|Hc].
  - exists 0. split; [lia|]. intros [|fuel] Hf; [lia|]. simpl.
    rewrite nextDirectionAt_spec, Hcur.
    rewrite (proj2 (firstNeighbour_None (origin st0)
                      (hasNeighbour components componentId start)) Hiso).
    eexists. split; [done|]. simpl. by rewrite Hmoves.
  - pose proof Hc as [Hv _].
    destruct (walk_returns components componentId (start, o0) Hv) as (n & Hn & Hret & Hfirst).
    exists n. split; [by apply (walk_bound components componentId (start, o0))|].
    intros fuel Hf.
    destruct (walkLoop_orbit str components componentId start drawer o0 n st0 fuel)
      as (st' & Hrun & Hlen & Hc' & Ho'); try (rewrite ?Hcur; done || lia).
    exists st'. split; [done|]. rewrite Hlen, Hmoves. simpl. by split.
Qed.

End Termination.

(** *** The walks that [drawComponents] starts *)

Lemma isComponent_true components (zr zc : Z) componentId :
  isComponent components zr zc componentId = true
  <-> exists r c, zr = Z.of_nat r /\ zc = Z.of_nat c
                  /\ readCell components r c = Some componentId.
Proof.
  unfold isComponent. split.
  - destruct (bool_decide (0 <= zr)%Z) eqn:Hr; [|done].
    destruct (bool_decide (0 <= zc)%Z) eqn:Hc; [|done]. simpl.
    apply bool_decide_eq_true in Hr, Hc.
    destruct (readCell components (Z.to_nat zr) (Z.to_nat zc)) as [v|] eqn:Hv; [|done].
    intros Hid. apply bool_decide_eq_true in Hid as ->.
    exists (Z.to_nat zr), (Z.to_nat zc). split; [lia|]. split; [lia|done].
  - intros (r & c & -> & -> & Hread).
    rewrite !bool_decide_eq_true_2 by lia. simpl. rewrite !Nat2Z.id, Hread.
    by apply bool_decide_eq_true.
Qed.

Lemma isComponent_false components (r c : nat) componentId :
  readCell components r c <> Some componentId ->
  isComponent components (Z.of_nat r) (Z.of_nat c) componentId = false.
Proof.
  intros Hne. destruct (isComponent _ _ _ _) eqn:E; [|done].
  apply isComponent_true in E as (r' & c' & Hr & Hc & Hread).
  apply Nat2Z.inj in Hr, Hc. by subst.
Qed.

Section Starts.
Variable str : Q -> string.
Variable dotSize : Q.
Variable dotsMask : list (list bool).
Hypothesis Hsquare : isSquare dotsMask.

Local Abbreviation components := (buildConnectedComponents dotsMask false Conn4).1.
Local Abbreviation ids := (buildConnectedComponents dotsMask false Conn4).2.
Local Abbreviation backgroundIds := (buildConnectedComponents dotsMask true Conn8).2.

(** The registered start of a foreground component is isolated or starts
    the walk in a corner state. *)
Lemma foreground_start id r c offset :
  mapGet ids id = Some (r, c) ->
  let start := (Z.of_nat r, Z.of_nat c) in
  let o0 := origin (walkInit str dotSize id components offset start false) in
  (forall d, hasNeighbour components id start d = false)
  \/ cornerState components id (start, o0).
Proof.
  intros Hget start o0. apply result_ids in Hget as [Hread Hfirst].
  assert (isComponent components start.1 start.2 id = true) as Hin.
  { apply isComponent_true. by exists r, c. }
  assert (hasNeighbour components id start Top = false) as HT.
  { unfold hasNeighbour. simpl.
    destruct (isComponent components (Z.of_nat r - 1) (Z.of_nat c) id) eqn:E; [|done].
    apply isComponent_true in E as (r' & c' & Hr & Hc & Hr').
    apply Nat2Z.inj in Hc as <-. exfalso. apply (Hfirst r' c); [left; lia|done]. }
  assert (hasNeighbour components id start Left = false) as HL.
  { unfold hasNeighbour. simpl.
    destruct (isComponent components (Z.of_nat r) (Z.of_nat c - 1) id) eqn:E; [|done].
    apply isComponent_true in E as (r' & c' & Hr & Hc & Hr').
    apply Nat2Z.inj in Hr as <-. exfalso. apply (Hfirst r c'); [right; lia|done]. }
  subst o0. unfold walkInit. simpl.
  destruct (isComponent components (Z.of_nat r) (Z.of_nat c + 1) id) eqn:HR; simpl.
  { right. split; [by split|]. simpl. rewrite HT. done. }
  destruct (isComponent components (Z.of_nat r + 1) (Z.of_nat c) id) eqn:HB; simpl.
  { right. split; [by split|]. simpl. unfold hasNeighbour at 1. simpl. rewrite HR. done. }
  left. intros d. destruct d; [done| | |done]; unfold hasNeighbour; simpl; done.
Qed.

(** The walk around a hole starts, on the cell up and left of the start of
    the hole, in a corner state. *)
Lemma hole_start id hole offset :
  hole ∈ holesOf components backgroundIds id ->
  let start := upLeftOf hole.2 in
  let o0 := origin (walkInit str dotSize id components offset start true) in
  o0 = Bottom /\ cornerState components id (start, o0).
Proof.
  intros Hh start o0. destruct hole as [b [r c]].
  unfold holesOf in Hh. apply list_elem_of_filter in Hh as [Htest Hin].
  apply isHoleOf_true in Htest as (Hb & Hc & Hleft). simpl in *.
  apply result_ids_elem, result_ids in Hin as [Hread Hfirst].
  pose proof (result_inGrid _ _ _ _ _ _ Hread) as Hgrid.
  assert (ofPolarity dotsMask true r c) as Hp.
  { split; [done|]. intros Hm.
    apply (proj2 (result_null dotsMask true Conn8 r c Hgrid)) in Hm. congruence. }
  assert (~ onEdge dotsMask r c) as Hne.
  { intros He. destruct (border_label dotsMask true Conn8 r c eq_refl Hp He) as [_ H1].
    rewrite H1 in Hread. injection Hread as <-. lia. }
  assert (1 <= r) as Hr by (unfold onEdge in Hne; lia).
  assert (inGrid dotsMask (r - 1) (c - 1)) as Hg1.
  { destruct Hgrid as [G1 G2]. rewrite isSquare_rowLength in G2 by done.
    split; [lia|]. rewrite isSquare_rowLength by (done || lia). lia. }
  assert (maskAt dotsMask (r - 1) (c - 1) = true) as Hm1.
  { destruct (maskAt dotsMask (r - 1) (c - 1)) eqn:Hm; [done|]. exfalso.
    assert (ofPolarity dotsMask true (r - 1) (c - 1)) as Hp' by (split; [done|congruence]).
    apply (Hfirst (r - 1) (c - 1)); [left; lia|].
    rewrite <- Hread. symmetry. apply result_neighbour; [done|done| |lia].
    right. right. split; [done|]. lia. }
  assert (ofPolarity dotsMask false r (c - 1)) as Hpl.
  { split; [eapply result_inGrid; exact Hleft|]. intros Hm.
    apply (proj2 (result_null dotsMask false Conn4 r (c - 1)
                    (result_inGrid _ _ _ _ _ _ Hleft))) in Hm. congruence. }
  assert (readCell components (r - 1) (c - 1) = Some id) as Hul.
  { rewrite <- Hleft. apply result_edgeAdjacent; [by split; [|congruence]|done|].
    right. split; [done|]. right. lia. }
  assert (readCell components r c = None) as Hhole.
  { apply result_null; [done|]. destruct Hp as [_ Hp].
    by destruct (maskAt dotsMask r c). }
  assert (start = (Z.of_nat (r - 1), Z.of_nat (c - 1))) as Hstart.
  { unfold start, upLeftOf. simpl. f_equal; lia. }
  assert (isComponent components (start.1 + 1) start.2 id = true) as HB.
  { rewrite Hstart. simpl. apply isComponent_true. exists r, (c - 1).
    split; [lia|]. split; [done|done]. }
  assert (o0 = Bottom) as Ho.
  { subst o0. unfold walkInit. rewrite andb_false_r, HB. done. }
  split; [done|]. rewrite Ho. clear Ho o0. rewrite Hstart in HB |- *.
  split; [split|]; simpl.
  - apply isComponent_true. by exists (r - 1), (c - 1).
  - exact HB.
  - intros _. unfold hasNeighbour. simpl.
    replace (Z.of_nat (r - 1) + 1)%Z with (Z.of_nat r) by lia.
    replace (Z.of_nat (c - 1) + 1)%Z with (Z.of_nat c) by lia.
    apply isComponent_false. rewrite Hhole. done.
Qed.

End Starts.

(** C4.  On a square mask, with [components] the resolved foreground label
    map: the walk of [renderComponentToPath] from the registered start of a
    foreground component, and the walk around each of its holes from the
    cell up and left of the hole's start, return for every bound on the
    iterations that exceeds the number [n] of their moves; they end on the
    start cell with the starting orientation, and [n] is at most twice the
    boundary length of the component, counted in unit edges between a cell
    of the component and a cell outside it. *)
Theorem C4_walk_terminates (str : Q -> string) (dotSize : Q)
    (dotsMask : list (list bool)) (offset : Q * Q) (drawer : drawer) :
  isSquare dotsMask ->
  let components := (buildConnectedComponents dotsMask false Conn4).1 in
  (forall id r c,
     mapGet (buildConnectedComponents dotsMask false Conn4).2 id = Some (r, c) ->
     let start := (Z.of_nat r, Z.of_nat c) in
     exists n, n <= 2 * boundaryLength components id
               /\ forall fuel, n < fuel ->
                    exists st, renderWalk str dotSize fuel id components offset start
                                 drawer false = Some st
                               /\ length (moves st) = n
                               /\ current st = start
                               /\ origin st
                                  = origin (walkInit str dotSize id components offset
                                              start false))
  /\ (forall id hole,
        hole ∈ holesOf components (buildConnectedComponents dotsMask true Conn8).2 id ->
        let start := upLeftOf hole.2 in
        exists n, n <= 2 * boundaryLength components id
                  /\ forall fuel, n < fuel ->
                       exists st, renderWalk str dotSize fuel id components offset start
                                    drawer true = Some st
                                  /\ length (moves st) = n
                                  /\ current st = start
                                  /\ origin st = Bottom).
Proof.
  intros Hsq components. split.
  - intros id r c Hget start.
    apply renderWalk_terminates. by apply foreground_start.
  - intros id hole Hh start.
    destruct (hole_start str dotSize dotsMask Hsq id hole offset Hh) as [Ho Hc].
    rewrite <- Ho. apply renderWalk_terminates. by right.
Qed.

(** The boundary has at most four edges per cell of the map. *)
Lemma boundaryLength_le components componentId :
  boundaryLength components componentId <= 4 * length (gridCells components).
Proof.
  unfold boundaryLength, boundaryEdges. generalize (gridCells components) as cells.
  induction cells as [|x cells IH]; [done|].
  cbn [mbind list_bind]. rewrite length_app. cbn [length].
  assert (length (allDirections ≫= fun d =>
                    if isComponent components x.1 x.2 componentId
                       && negb (hasNeighbour components componentId x d)
                    then [(x, d)] else []) <= 4) as Hx.
  { unfold allDirections. cbn. repeat case_match; simpl; lia. }
  unfold mbind in *. lia.
Qed.

Section Total.
Variable str : Q -> string.
Variable dotSize : Q.

(** On a square mask every walk that [drawComponents] starts returns:
    [drawComponents] yields its paths for a bound on the iterations that is
    linear in the number of cells. *)
Lemma drawComponents_total (dotsMask : list (list bool)) (offset : Q * Q) (drawer : drawer) :
  isSquare dotsMask ->
  forall fuel,
    8 * length (gridCells (buildConnectedComponents dotsMask false Conn4).1) < fuel ->
    is_Some (drawComponents str dotSize fuel dotsMask offset drawer).
Proof.
  intros Hsq fuel Hfuel. rewrite drawComponents_spec.
  apply mapM_is_Some, Forall_forall. intros [id [r c]] Hin. simpl.
  apply result_ids_elem in Hin.
  pose proof (boundaryLength_le (buildConnectedComponents dotsMask false Conn4).1 id) as Hb.
  destruct (renderWalk_terminates str dotSize
              (buildConnectedComponents dotsMask false Conn4).1 id offset
              (Z.of_nat r, Z.of_nat c) drawer false
              (foreground_start str dotSize dotsMask id r c offset Hin))
    as (n & Hn & Hrun).
  destruct (Hrun fuel ltac:(lia)) as (st & Hst & _).
  assert (renderComponentToPath str dotSize fuel id
            (buildConnectedComponents dotsMask false Conn4).1 offset
            (Z.of_nat r, Z.of_nat c) drawer false = Some (path st)) as ->.
  { unfold renderComponentToPath. by rewrite Hst. }
  cbn.
  assert (is_Some (mapM (fun hole =>
            renderComponentToPath str dotSize fuel id
              (buildConnectedComponents dotsMask false Conn4).1 offset
              (upLeftOf hole.2) drawer true)
            (holesOf (buildConnectedComponents dotsMask false Conn4).1
               (buildConnectedComponents dotsMask true Conn8).2 id))) as [holes Hholes].
  { apply mapM_is_Some, Forall_forall. intros hole Hh. simpl.
    destruct (hole_start str dotSize dotsMask Hsq id hole offset Hh) as [_ Hc].
    destruct (renderWalk_terminates str dotSize
                (buildConnectedComponents dotsMask false Conn4).1 id offset
                (upLeftOf hole.2) drawer true (or_intror Hc)) as (m & Hm & Hrun').
    destruct (Hrun' fuel ltac:(lia)) as (st' & Hst' & _).
    unfold renderComponentToPath. by rewrite Hst'. }
  rewrite Hholes. done.
Qed.

End Total.

Lemma C4_walk_terminates_witness :
  let dotsMask := [[true; true; true]; [true; false; true]; [true; true; true]] in
  let components := (buildConnectedComponents dotsMask false Conn4).1 in
  exists n, n <= 2 * boundaryLength components 2
            /\ forall fuel, n < fuel ->
                 exists st, renderWalk showNumber 4 fuel 2 components (0, 0)%Q (0, 0)%Z
                              (drawerFactory square 4) false = Some st
                            /\ length (moves st) = n
                            /\ current st = (0, 0)%Z
                            /\ origin st
                               = origin (walkInit showNumber 4 2 components (0, 0)%Q
                                           (0, 0)%Z false).
Proof.
  intros dotsMask components.
  refine (proj1 (C4_walk_terminates showNumber 4 dotsMask (0, 0)%Q
                   (drawerFactory square 4) _) 2 0 0 _).
  - repeat constructor.
  - reflexivity.
Defined.

Example ring_walks :
  let components := [[Some 2; Some 2; Some 2]; [Some 2; None; Some 2];
                     [Some 2; Some 2; Some 2]] in
  boundaryLength components 2 = 16
  /\ (moves <$> renderWalk showNumber 4 9 2 components (0, 0)%Q (0, 0)%Z
                  (drawerFactory square 4) false)
     = Some [Bottom; Bottom; Right; Right; Top; Top; Left; Left]
  /\ (moves <$> renderWalk showNumber 4 9 2 components (0, 0)%Q (0, 0)%Z
                  (drawerFactory square 4) true)
     = Some [Right; Right; Bottom; Bottom; Left; Left; Top; Top].
Proof. by vm_compute. Qed.


(** Both kinds of walk that [drawComponents] starts begin on a cell that
    holds the id they trace. *)
Lemma drawComponents_starts (dotsMask : list (list bool)) :
  isSquare dotsMask ->
  let components := (buildConnectedComponents dotsMask false Conn4).1 in
  (forall id r c,
     mapGet (buildConnectedComponents dotsMask false Conn4).2 id = Some (r, c) ->
     isComponent components (Z.of_nat r) (Z.of_nat c) id = true)
  /\ (forall id hole,
        hole ∈ holesOf components (buildConnectedComponents dotsMask true Conn8).2 id ->
        isComponent components (upLeftOf hole.2).1 (upLeftOf hole.2).2 id = true).
Proof.
  intros Hsq components. split.
  - intros id r c Hget. apply result_ids in Hget as [Hread _].
    apply isComponent_true. by exists r, c.
  - intros id hole Hh.
    destruct (hole_start showNumber 1 dotsMask Hsq id hole (0, 0)%Q Hh) as [_ [[Hin _] _]].
    exact Hin.
Qed.

(** ** Scenarios *)

(** A 3 x 3 block drawn with the square style: one region, a rectangle. *)
Example scenario_block_square :
  drawComponents showNumber 4 20
    [[true; true; true]; [true; true; true]; [true; true; true]] (0, 0)%Q
    (drawerFactory square 4)
  = Some [(2, "M 0 0 m 4 0h -4v 4v 4v 4h 4h 4h 4v -4v -4v -4h -4h -4")].
Proof. by vm_compute. Qed.

(** The same block with the rounded style: the four corners become
    quarter arcs of radius half a module. *)
Example scenario_block_rounded :
  drawComponents showNumber 4 20
    [[true; true; true]; [true; true; true]; [true; true; true]] (0, 0)%Q
    (drawerFactory rounded 4)
  = Some [(2, "M 0 0 m 4 0h -2a 2 2 0 0 0 -2 2v 2v 4v 2a 2 2 0 0 0 2 2h 2h 4"
                 +:+ "h 2a 2 2 0 0 0 2 -2v -2v -4v -2a 2 2 0 0 0 -2 -2h -2h -4")].
Proof. by vm_compute. Qed.

(** Two cells touching at a corner are two components under
    4-connectivity and give two single-dot glyphs. *)
Example scenario_diagonal_cells :
  buildConnectedComponents [[true; false]; [false; true]] false Conn4
  = ([[Some 2; None]; [None; Some 3]], [(2, (0, 0)); (3, (1, 1))])
  /\ drawComponents showNumber 4 20 [[true; false]; [false; true]] (0, 0)%Q
       (drawerFactory square 4)
     = Some [(2, "M 0 0 " +:+ "m 4 0h -4v 4h 4v -4");
             (3, "M 4 4 " +:+ "m 4 0h -4v 4h 4v -4")].
Proof. by vm_compute. Qed.

(** A 5 x 5 ring: the enclosed background is a hole of the single
    foreground component, and the compound path has two sub-paths. *)
Example scenario_ring :
  let dotsMask := [[true; true; true; true; true];
                   [true; false; false; false; true];
                   [true; false; false; false; true];
                   [true; false; false; false; true];
                   [true; true; true; true; true]] in
  holesOf (buildConnectedComponents dotsMask false Conn4).1
    (buildConnectedComponents dotsMask true Conn8).2 2 = [(2, (1, 1))]
  /\ drawComponents showNumber 4 40 dotsMask (0, 0)%Q (drawerFactory square 4)
     = Some [(2, "M 0 0 m 4 0h -4v 4v 4v 4v 4v 4h 4h 4h 4h 4h 4v -4v -4v -4v -4v -4h -4h -4h -4h -4"
                 +:+ "M 0 0 m 4 4h 4h 4h 4v 4v 4v 4h -4h -4h -4v -4v -4v -4")].
Proof. by vm_compute. Qed.

(** An L-shaped tromino with the classy style: the turns drawn through
    [leftDown] and [rightUp] carry an arc, [downRight] is sharp. *)
Example scenario_tromino_classy :
  drawComponents showNumber 4 20 [[true; false]; [true; true]] (0, 0)%Q
    (drawerFactory classy 4)
  = Some [(2, "M 0 0 m 4 4v -4h -2a 2 2 0 0 0 -2 2v 2v 4h 4h 2a 2 2 0 0 0 2 -2v -2h -4")].
Proof. by vm_compute. Qed.


(** * Further properties of the labelling *)

Section Regions.
Variable dotsMask : list (list bool).
Variable invert : bool.
Variable conn : connectedness.

Local Abbreviation prov := (provisional dotsMask invert conn).
Local Abbreviation result := (buildConnectedComponents dotsMask invert conn).
Local Abbreviation conn_ := (connected dotsMask invert conn).
Local Abbreviation touches := (touchesBorder dotsMask invert conn).
Local Abbreviation region := (sameRegion dotsMask invert conn).

Lemma region_refl x : region x x.
Proof. left. reflexivity. Qed.

Lemma region_sym x y : region x y -> region y x.
Proof.
  intros [H|(H8 & H1 & H2)]; [left; by apply connected_sym|by right].
Qed.

Lemma region_connected x y z : conn_ x y -> region y z -> region x z.
Proof.
  intros Hxy [H|(H8 & H1 & H2)]; [left; by etrans|right].
  split; [done|]. split; [by eapply touches_connected|done].
Qed.

Lemma region_trans x y z : region x y -> region y z -> region x z.
Proof.
  intros [H|(H8 & H1 & H2)] Hyz; [by eapply region_connected|].
  destruct Hyz as [H|(_ & H3 & H4)]; right; (split; [done|]); (split; [done|]); [|done].
  eapply touches_connected; [|exact H2]. by apply connected_sym.
Qed.

(** A cell labelled by the scan: what its label says about the cells
    labelled before it. *)
Lemma label_region r c l :
  readCell prov r c = Some l ->
  (l = 1 -> conn = Conn8 /\ touches (r, c))
  /\ (forall r' c', before r c r' c' -> readCell prov r' c' = Some l ->
                    region (r, c) (r', c')).
Proof.
  revert c l. induction r as [r IHr] using lt_wf_ind.
  intros c. induction c as [c IHc] using lt_wf_ind. intros l Hl.
  assert (forall r' c' l', before r c r' c' -> readCell prov r' c' = Some l' ->
            (l' = 1 -> conn = Conn8 /\ touches (r', c'))
            /\ (forall r'' c'', before r' c' r'' c'' -> readCell prov r'' c'' = Some l' ->
                                region (r', c') (r'', c''))) as IH.
  { intros r' c' l' [Hb|[-> Hb]]; [by apply IHr|by apply IHc]. }
  clear IHr IHc.
  pose proof (prov_labelled dotsMask invert conn r c l Hl) as Hp.
  destruct (label_in_validIds dotsMask invert conn r c l Hl) as [(_ & H2 & Hfresh)|Hin].
  { split; [intros ->; lia|].
    intros r' c' Hb Hl'. apply Hfresh in Hl'; [lia|done]. }
  apply validIdsAt_elem in Hin as [(ry & cy & Hn & _ & Hly)|(H8 & -> & Hedge)].
  - pose proof (scannedNeighbour_before _ _ _ _ _ Hn) as Hby.
    pose proof (scannedNeighbour_adjacent conn _ _ _ _ Hn) as Hady.
    pose proof (prov_labelled dotsMask invert conn ry cy l Hly) as Hpy.
    assert (conn_ (r, c) (ry, cy)) as Hxy by (by apply connected_step).
    destruct (IH ry cy l Hby Hly) as [IHa IHb]. split.
    + intros ->. destruct (IHa eq_refl) as [H8 Ht]. split; [done|].
      by eapply touches_connected.
    + intros r' c' Hb Hl'. eapply region_connected; [exact Hxy|].
      destruct (decide ((r', c') = (ry, cy))) as [[= -> ->]|Hne]; [apply region_refl|].
      assert (before ry cy r' c' \/ before r' c' ry cy) as [H|H].
      { unfold before. destruct (decide (r' = ry)) as [->|]; [|lia].
        destruct (decide (c' = cy)) as [->|]; [done|lia]. }
      * by apply IHb.
      * apply region_sym. destruct (IH r' c' l Hb Hl') as [_ IHb']. by apply IHb'.
  - assert (touches (r, c)) as Ht.
    { exists (r, c). split; [done|]. split; [done|]. reflexivity. }
    split; [done|]. intros r' c' Hb Hl'. right. split; [done|]. split; [done|].
    destruct (IH r' c' 1 Hb Hl') as [IHa _]. by apply IHa.
Qed.

Lemma same_label_region r c r' c' l :
  readCell prov r c = Some l -> readCell prov r' c' = Some l -> region (r, c) (r', c').
Proof.
  intros Hl Hl'.
  destruct (decide ((r', c') = (r, c))) as [[= -> ->]|Hne]; [apply region_refl|].
  assert (before r c r' c' \/ before r' c' r c) as [H|H].
  { unfold before. destruct (decide (r' = r)) as [->|]; [|lia].
    destruct (decide (c' = c)) as [->|]; [done|lia]. }
  - by apply (label_region r c l Hl).
  - apply region_sym. by apply (label_region r' c' l Hl').
Qed.

(** A valid id of a labelled cell is the label of a cell of the region of
    that cell. *)
Lemma validId_region r c v :
  ofPolarity dotsMask invert r c ->
  v ∈ validIdsAt dotsMask conn prov r c ->
  exists a, readCell prov a.1 a.2 = Some v /\ region (r, c) a.
Proof.
  intros Hp Hv. pose proof Hv as Hv'.
  apply validIdsAt_elem in Hv as [(ry & cy & Hn & _ & Hly)|(H8 & -> & Hedge)].
  - exists (ry, cy). split; [done|]. left. apply connected_step; [done| |].
    + by eapply prov_labelled.
    + by apply scannedNeighbour_adjacent.
  - exists (r, c). split; [|apply region_refl]. simpl.
    by apply (border_label dotsMask invert conn r c H8 Hp Hedge).
Qed.

Lemma linked_region i j :
  linked dotsMask invert conn prov i j ->
  exists a b, readCell prov a.1 a.2 = Some i /\ readCell prov b.1 b.2 = Some j
              /\ region a b.
Proof.
  intros (r & c & Hp & _ & Hi & Hj).
  destruct (validId_region r c i Hp Hi) as (a & Ha & Hxa).
  destruct (validId_region r c j Hp Hj) as (b & Hb & Hxb).
  exists a, b. split; [done|]. split; [done|].
  eapply region_trans; [apply region_sym; exact Hxa|exact Hxb].
Qed.

Lemma equivalent_region l l' x y :
  equivalent dotsMask invert conn prov l l' ->
  readCell prov x.1 x.2 = Some l -> readCell prov y.1 y.2 = Some l' -> region x y.
Proof.
  intros H. revert x. induction H as [l|l m l' Hlm _ IH]; intros x Hx Hy.
  - destruct x as [r c], y as [r' c']. by eapply same_label_region.
  - assert (exists a b, readCell prov a.1 a.2 = Some l /\ readCell prov b.1 b.2 = Some m
                        /\ region a b) as (a & b & Ha & Hb & Hab).
    { destruct Hlm as [Hlm|Hlm].
      - by apply linked_region.
      - destruct (linked_region m l Hlm) as (b & a & Hb & Ha & Hba).
        exists a, b. split; [done|]. split; [done|]. by apply region_sym. }
    eapply region_trans; [|eapply region_trans; [exact Hab|by apply IH]].
    destruct x as [r c], a as [ra ca]. by eapply same_label_region.
Qed.

Lemma result_region r c r' c' :
  ofPolarity dotsMask invert r c -> ofPolarity dotsMask invert r' c' ->
  readCell result.1 r c = readCell result.1 r' c' -> region (r, c) (r', c').
Proof.
  intros Hp Hp' Heq.
  destruct (readCell prov r c) as [l|] eqn:Hl.
  2:{ apply prov_null in Hl; [|by destruct Hp]. by destruct Hp. }
  destruct (readCell prov r' c') as [l'|] eqn:Hl'.
  2:{ apply prov_null in Hl'; [|by destruct Hp']. by destruct Hp'. }
  apply (equivalent_region l l' (r, c) (r', c')); [|done|done].
  by apply (result_same_class dotsMask invert conn r c r' c' l l').
Qed.

Lemma region_result x y :
  isSquare dotsMask -> region x y ->
  readCell result.1 x.1 x.2 = readCell result.1 y.1 y.2.
Proof.
  intros Hsq [H|(H8 & H1 & H2)]; [by apply result_connected|].
  rewrite (touches_result_one dotsMask invert conn x) by done.
  by rewrite (touches_result_one dotsMask invert conn y).
Qed.

End Regions.

(** The labels are the components.  On a square mask, two cells that a
    pass labels resolve to the same id exactly when they are in one region:
    joined by a chain of labelled cells adjacent for the pass's
    connectivity, or, in the 8-connected pass, both in components that
    reach the border.  For the 4-connected pass this is: exactly when a
    chain of edge-adjacent labelled cells joins them. *)
Theorem labels_are_components (dotsMask : list (list bool)) (invert : bool)
    (conn : connectedness) (r c r' c' : nat) :
  isSquare dotsMask ->
  ofPolarity dotsMask invert r c -> ofPolarity dotsMask invert r' c' ->
  let result := buildConnectedComponents dotsMask invert conn in
  (readCell result.1 r c = readCell result.1 r' c'
   <-> sameRegion dotsMask invert conn (r, c) (r', c'))
  /\ (conn = Conn4 ->
      (readCell result.1 r c = readCell result.1 r' c'
       <-> connected dotsMask invert Conn4 (r, c) (r', c'))).
Proof.
  intros Hsq Hp Hp' result. subst result.
  assert (readCell (buildConnectedComponents dotsMask invert conn).1 r c
          = readCell (buildConnectedComponents dotsMask invert conn).1 r' c'
          <-> sameRegion dotsMask invert conn (r, c) (r', c')) as Hiff.
  { split; [by apply result_region|].
    intros H. by apply (region_result dotsMask invert conn (r, c) (r', c')). }
  split; [done|]. intros ->. rewrite Hiff. unfold sameRegion. split; [|by left].
  intros [H|(H8 & _)]; [done|discriminate].
Qed.

Lemma labels_are_components_witness :
  let dotsMask := [[true; false; true]; [false; false; true]; [true; true; true]] in
  (readCell (buildConnectedComponents dotsMask false Conn4).1 0 0
   = readCell (buildConnectedComponents dotsMask false Conn4).1 2 0
   <-> connected dotsMask false Conn4 (0, 0) (2, 0))
  /\ (readCell (buildConnectedComponents dotsMask false Conn4).1 0 2
      = readCell (buildConnectedComponents dotsMask false Conn4).1 2 0
      <-> connected dotsMask false Conn4 (0, 2) (2, 0)).
Proof.
  intros dotsMask.
  assert (isSquare dotsMask) as Hsq by (repeat constructor).
  split.
  - refine (proj2 (labels_are_components dotsMask false Conn4 0 0 2 0 Hsq _ _) eq_refl);
      (split; [split; unfold rowLength; simpl; lia|done]).
  - refine (proj2 (labels_are_components dotsMask false Conn4 0 2 2 0 Hsq _ _) eq_refl);
      (split; [split; unfold rowLength; simpl; lia|done]).
Defined.

Example separate_components :
  buildConnectedComponents [[true; false; true]; [false; false; true]; [true; true; true]]
    false Conn4
  = ([[Some 2; None; Some 3]; [None; None; Some 3]; [Some 3; Some 3; Some 3]],
     [(2, (0, 0)); (3, (0, 2))]).
Proof. by vm_compute. Qed.


(** ** The order of the registry *)

Lemma resolveCell_ids e row acc col :
  (resolveCell e row acc col).2 = acc.2
  \/ exists id, (resolveCell e row acc col).2 = acc.2 ++ [(id, (row, col))].
Proof.
  unfold resolveCell. destruct (readCell acc.1 row col) as [value|]; [|by left].
  case_bool_decide; [by left|]. simpl.
  destruct (mapHas acc.2 _); [by left|right]. by eexists.
Qed.

Lemma orderFacts_snoc r c ids id :
  orderFacts r c ids -> orderFacts r (S c) (ids ++ [(id, (r, c))]).
Proof.
  intros [Hs Hb]. split.
  - intros i j x y Hij Hi Hj.
    assert (j < length (ids ++ [(id, (r, c))])) as Hlen by (by eapply lookup_lt_Some).
    rewrite length_app in Hlen. simpl in Hlen.
    rewrite lookup_app_l in Hi by lia.
    destruct (decide (j < length ids)) as [Hj'|Hj'].
    + rewrite lookup_app_l in Hj by done. exact (Hs i j x y Hij Hi Hj).
    + rewrite lookup_app_r in Hj by lia.
      replace (j - length ids) with 0 in Hj by lia. injection Hj as <-. simpl.
      apply Hb. by eapply list_elem_of_lookup_2.
  - intros x Hx. apply elem_of_app in Hx as [Hx|Hx].
    + specialize (Hb x Hx). unfold before in *. lia.
    + apply list_elem_of_singleton in Hx as ->. simpl. unfold before. lia.
Qed.

Lemma orderFacts_next r c ids : orderFacts r c ids -> orderFacts r (S c) ids.
Proof.
  intros [Hs Hb]. split; [done|]. intros x Hx. specialize (Hb x Hx).
  unfold before in *. lia.
Qed.

Lemma resolveRow_order e acc row :
  orderFacts row 0 acc.2 -> orderFacts (S row) 0 (resolveRow e acc row).2.
Proof.
  intros H. unfold resolveRow.
  assert (orderFacts row (rowLength acc.1 row)
            (foldl (resolveCell e row) acc (seq 0 (rowLength acc.1 row))).2) as [Hs Hb].
  { apply (foldl_seq_inv (fun c a => orderFacts row c a.2)); [done|].
    intros c a _ Ha. destruct (resolveCell_ids e row a c) as [->|[id ->]].
    - by apply orderFacts_next.
    - by apply orderFacts_snoc. }
  split; [done|]. intros x Hx. specialize (Hb x Hx). unfold before in *. lia.
Qed.

Lemma resolve_order e components : rasterSorted (resolve e components).2.
Proof.
  unfold resolve.
  apply (foldl_seq_inv (fun r a => orderFacts r 0 a.2)).
  - simpl. split.
    + intros i j x y _ Hi. by rewrite lookup_nil in Hi.
    + intros x Hx. by apply elem_of_nil in Hx.
  - intros r a _ Ha. by apply resolveRow_order.
Qed.

(** The registry of a square mask lists every id once, in the raster
    order of the start cells, and it is empty exactly when the pass has no
    cell to label (so also on the empty mask). *)
Theorem registry_order (dotsMask : list (list bool)) (invert : bool)
    (conn : connectedness) :
  isSquare dotsMask ->
  let result := buildConnectedComponents dotsMask invert conn in
  NoDup result.2.*1
  /\ rasterSorted result.2
  /\ (result.2 = []
      <-> forall r c, inGrid dotsMask r c -> maskAt dotsMask r c = invert).
Proof.
  intros _ result. subst result. split; [apply result_ids_nodup|].
  split; [apply resolve_order|]. split.
  - intros Hnil r c Hin. destruct (decide (maskAt dotsMask r c = invert)) as [|Hne]; [done|].
    exfalso.
    destruct (result_labelled dotsMask invert conn r c (conj Hin Hne)) as [k Hk].
    destruct (result_ids_total dotsMask invert conn r c k Hk) as [[r0 c0] Hget].
    apply result_ids_elem in Hget. rewrite Hnil in Hget. by apply elem_of_nil in Hget.
  - intros Hall.
    destruct (buildConnectedComponents dotsMask invert conn).2 as [|[k [r c]] ids] eqn:Hids;
      [done|exfalso].
    assert ((k, (r, c)) ∈ (buildConnectedComponents dotsMask invert conn).2) as Hin.
    { rewrite Hids. apply elem_of_cons. by left. }
    apply result_ids_elem, result_ids in Hin as [Hread _].
    pose proof (result_inGrid dotsMask invert conn r c k Hread) as Hg.
    apply (proj2 (result_null dotsMask invert conn r c Hg)) in Hall; [|done].
    congruence.
Qed.

Lemma registry_order_witness :
  let ids := (buildConnectedComponents [[true; false]; [false; true]] false Conn4).2 in
  NoDup ids.*1 /\ rasterSorted ids.
Proof.
  intros ids.
  destruct (registry_order [[true; false]; [false; true]] false Conn4
              ltac:(repeat constructor)) as (H1 & H2 & _).
  split; [exact H1|exact H2].
Defined.

(** The label map of a square mask has the dimensions of the mask, row by
    row; a cell of the grid is [null] exactly when the mask holds [invert]
    there; and an id is never 0 (it is at least 1, and at least 2 in the
    4-connected pass), so that the test [if (value)] of the resolution
    pass skips the [null] cells only. *)
Theorem label_map_mirrors_mask (dotsMask : list (list bool)) (invert : bool)
    (conn : connectedness) :
  isSquare dotsMask ->
  let result := buildConnectedComponents dotsMask invert conn in
  length result.1 = length dotsMask
  /\ (forall r, r < length dotsMask -> rowLength result.1 r = rowLength dotsMask r)
  /\ (forall r c, inGrid dotsMask r c ->
                  (readCell result.1 r c = None <-> maskAt dotsMask r c = invert))
  /\ (forall r c k, readCell result.1 r c = Some k ->
                    inGrid dotsMask r c /\ 1 <= k /\ (conn = Conn4 -> 2 <= k))
  /\ (forall r c l, readCell (provisional dotsMask invert conn) r c = Some l -> l <> 0).
Proof.
  intros _ result. subst result.
  destruct (result_shape dotsMask invert conn) as [H1 H2].
  split; [done|]. split; [done|]. split; [apply result_null|]. split.
  - intros r c k Hk. split; [by eapply result_inGrid|]. by eapply result_bound.
  - intros r c l Hl. apply prov_bound in Hl. lia.
Qed.

Lemma label_map_mirrors_mask_witness :
  let dotsMask := [[true; false]; [false; true]] in
  length (buildConnectedComponents dotsMask true Conn8).1 = length dotsMask
  /\ (readCell (buildConnectedComponents dotsMask true Conn8).1 0 1 = None
      <-> maskAt dotsMask 0 1 = true).
Proof.
  intros dotsMask.
  destruct (label_map_mirrors_mask dotsMask true Conn8 ltac:(repeat constructor))
    as (H1 & _ & H3 & _).
  split; [exact H1|]. apply H3. split; vm_compute; lia.
Defined.

Example empty_mask :
  buildConnectedComponents [] false Conn4 = ([], [])
  /\ buildConnectedComponents [[false; false]; [false; false]] false Conn4
     = ([[None; None]; [None; None]], []).
Proof. by vm_compute. Qed.


(** * Further properties of the contour walk *)

Lemma string_app_assoc (a b c : string) : (a +:+ b) +:+ c = a +:+ (b +:+ c).
Proof.
  induction a as [|x a IH]; [done|].
  change ((String x a +:+ b) +:+ c) with (String x ((a +:+ b) +:+ c)).
  change (String x a +:+ (b +:+ c)) with (String x (a +:+ (b +:+ c))).
  by rewrite IH.
Qed.

Lemma string_app_empty_r (a : string) : a +:+ "" = a.
Proof.
  induction a as [|x a IH]; [done|].
  change (String x a +:+ "") with (String x (a +:+ "")). by rewrite IH.
Qed.

Lemma string_concat_cons (x : string) (l : list string) :
  String.concat "" (x :: l) = x +:+ String.concat "" l.
Proof. destruct l; simpl; [by rewrite string_app_empty_r|done]. Qed.

Lemma stateAfter_cons (c : Z * Z) d l o :
  stateAfter c (d :: l) o = stateAfter (move c d) l (opposite d).
Proof.
  unfold stateAfter. simpl. f_equal.
  destruct l as [|x l]; [done|]. rewrite last_cons_cons.
  destruct (last (x :: l)) eqn:E; [done|]. by apply last_None in E.
Qed.

Section Trace.
Variable str : Q -> string.
Variable dotSize : Q.
Variable components : list (list (option nat)).
Variable componentId : nat.
Variable start : Z * Z.
Variable drawer : drawer.
Variable o0 : Directions.

Local Abbreviation has := (hasNeighbour components componentId).
Local Abbreviation step := (stepState components componentId).
Local Abbreviation valid := (validState components componentId).
Local Abbreviation inC := (fun x : Z * Z => isComponent components x.1 x.2 componentId).

Lemma step_inside s : inC s.1 = true -> inC (step s).1 = true.
Proof.
  intros H. unfold stepState.
  destruct (nextDirectionAt components componentId s.1 s.2) as [d|] eqn:Hd; [|done].
  simpl. rewrite nextDirectionAt_spec in Hd. by apply firstNeighbour_Some in Hd.
Qed.

Lemma iter_step_inside n s : inC s.1 = true -> inC (Nat.iter n step s).1 = true.
Proof. intros H. induction n as [|n IH]; [done|]. simpl. by apply step_inside. Qed.

(** What a run of the loop that returns has done: it appended the
    single-dot glyph at once, or it made moves, each the next direction
    at the state reached, appended one glyph for each, and stopped the
    first time it was back on [start] with the orientation [o0]. *)
Lemma walkLoop_trace (fuel : nat) (st0 st : walkState) :
  inC (current st0) = true ->
  walkLoop str fuel componentId components start drawer o0 st0 = Some st ->
  (nextDirectionAt components componentId (current st0) (origin st0) = None
   /\ st = WalkState (path st0 +:+ singleDot str drawer) (origin st0) (current st0)
             (moves st0))
  \/ exists ms, ms <> [] /\ moves st = moves st0 ++ ms
       /\ path st
          = path st0 +:+ String.concat "" (glyphsAlong str drawer (origin st0) ms)
       /\ (forall k, k <= length ms ->
             stateAfter (current st0) (take k ms) (origin st0)
             = Nat.iter k step (current st0, origin st0))
       /\ nextDirectionAt components componentId (current st0) (origin st0) = head ms
       /\ (current st, origin st) = (start, o0)
       /\ Nat.iter (length ms) step (current st0, origin st0) = (start, o0)
       /\ (forall k, 0 < k < length ms ->
             Nat.iter k step (current st0, origin st0) <> (start, o0)).
Proof.
  revert st0. induction fuel as [|fuel IH]; intros st0 Hin Hrun; [done|].
  simpl in Hrun.
  destruct (nextDirectionAt components componentId (current st0) (origin st0))
    as [d|] eqn:Hd.
  2:{ left. split; [done|]. by injection Hrun as <-. }
  right.
  assert (step (current st0, origin st0) = (move (current st0) d, opposite d)) as Hstep.
  { unfold stepState. simpl. by rewrite Hd. }
  assert (inC (move (current st0) d) = true) as Hin'.
  { rewrite nextDirectionAt_spec in Hd. by apply firstNeighbour_Some in Hd. }
  destruct (continueWalk start o0 (move (current st0) d) (opposite d)) eqn:Hc.
  - set (st1 := WalkState _ _ _ _) in Hrun.
    destruct (IH st1 Hin' Hrun) as [[Hnone _]|(ms & Hne & Hms & Hpath & Hst & _ & Hfin & Hret & Hfirst)].
    { exfalso. unfold st1 in Hnone. simpl in Hnone.
      destruct (valid_next components componentId (move (current st0) d, opposite d))
        as (d' & Hd' & _).
      - split; [done|]. unfold hasNeighbour. simpl. by rewrite move_opposite.
      - simpl in Hd'. congruence. }
    unfold st1 in Hms, Hpath, Hst, Hret, Hfirst. simpl in Hms, Hpath, Hst, Hret, Hfirst.
    exists (d :: ms). split; [done|]. split; [by rewrite Hms, <- app_assoc|]. split.
    { cbn [glyphsAlong]. by rewrite string_concat_cons, Hpath, string_app_assoc. }
    split.
    { intros [|k] Hk; [done|]. simpl in Hk. rewrite firstn_cons, stateAfter_cons.
      rewrite Nat.iter_succ_r, Hstep. apply Hst. lia. }
    split; [done|]. split; [done|]. split.
    { simpl length. by rewrite Nat.iter_succ_r, Hstep. }
    intros [|k] Hk; [lia|]. simpl in Hk. rewrite Nat.iter_succ_r, Hstep.
    destruct k as [|k].
    + simpl. intros [= E1 E2].
      assert (continueWalk start o0 (move (current st0) d) (opposite d) = false) as Hf
        by (by apply continueWalk_false).
      congruence.
    + apply Hfirst. lia.
  - injection Hrun as <-. apply continueWalk_false in Hc as [Hc1 Hc2].
    exists [d]. split; [done|]. split; [done|]. split; [done|]. split.
    { intros [|[|k]] Hk; simpl in Hk; [done| |lia].
      simpl. rewrite Hstep. unfold stateAfter. done. }
    split; [done|]. simpl. split; [by rewrite Hc1, Hc2|]. split; [by rewrite Hstep, Hc1, Hc2|].
    intros k Hk. lia.
Qed.

End Trace.


Section WalkFacts.
Variable str : Q -> string.
Variable dotSize : Q.
Variable components : list (list (option nat)).
Variable componentId : nat.

Local Abbreviation has := (hasNeighbour components componentId).
Local Abbreviation step := (stepState components componentId).
Local Abbreviation valid := (validState components componentId).
Local Abbreviation inC := (fun x : Z * Z => isComponent components x.1 x.2 componentId).

Lemma renderWalk_trace offset (start : Z * Z) drawer moveRight fuel st :
  inC start = true ->
  renderWalk str dotSize fuel componentId components offset start drawer moveRight
    = Some st ->
  let st0 := walkInit str dotSize componentId components offset start moveRight in
  (nextDirectionAt components componentId start (origin st0) = None
   /\ moves st = [] /\ path st = path st0 +:+ singleDot str drawer)
  \/ (moves st <> []
      /\ path st
         = path st0 +:+ String.concat "" (glyphsAlong str drawer (origin st0) (moves st))
      /\ (forall k, k <= length (moves st) ->
            stateAfter start (take k (moves st)) (origin st0)
            = Nat.iter k step (start, origin st0))
      /\ nextDirectionAt components componentId start (origin st0) <> None
      /\ Nat.iter (length (moves st)) step (start, origin st0) = (start, origin st0)
      /\ (forall k, 0 < k < length (moves st) ->
            Nat.iter k step (start, origin st0) <> (start, origin st0))).
Proof.
  intros Hin Hrun st0. unfold renderWalk in Hrun. fold st0 in Hrun.
  destruct (walkInit_fields str dotSize components componentId offset start moveRight)
    as [Hcur Hmoves]. fold st0 in Hcur, Hmoves.
  apply walkLoop_trace in Hrun; [|by rewrite Hcur].
  rewrite Hcur, Hmoves in Hrun.
  destruct Hrun as [[Hnone ->]|(ms & Hne & Hms & Hpath & Hst & Hhd & _ & Hret & Hfirst)].
  - left. done.
  - right. simpl in Hms. subst ms. repeat (split; [done|]). split; [|done].
    rewrite Hhd. by destruct (moves st).
Qed.

(** A state that the walk comes back to was entered from a cell of the
    component. *)
Lemma return_valid s0 n :
  inC s0.1 = true -> nextDirectionAt components componentId s0.1 s0.2 <> None ->
  0 < n -> Nat.iter n step s0 = s0 -> valid s0.
Proof.
  intros Hin Hnext Hn Hret. split; [done|].
  destruct n as [|n]; [lia|]. simpl in Hret.
  pose proof (iter_step_inside components componentId n s0 Hin) as Hp.
  set (p := Nat.iter n step s0) in *. unfold stepState in Hret.
  destruct (nextDirectionAt components componentId p.1 p.2) as [d|] eqn:Hd.
  - rewrite <- Hret. unfold hasNeighbour. simpl. by rewrite move_opposite.
  - rewrite <- Hret in Hnext. done.
Qed.

End WalkFacts.

(** The [d] attribute of a contour: the move-to prefix, then the
    single-dot glyph when the start cell has no neighbour in the component
    and no move is made, and otherwise one glyph for every move, in the
    order of the moves, each chosen by the side of arrival and the
    direction of the move. *)
Theorem path_is_glyph_sequence (str : Q -> string) (dotSize : Q) (fuel componentId : nat)
    (components : list (list (option nat))) (offset : Q * Q) (start : Z * Z)
    (drawer : drawer) (moveRight : bool) (st : walkState) :
  isComponent components start.1 start.2 componentId = true ->
  renderWalk str dotSize fuel componentId components offset start drawer moveRight
    = Some st ->
  let st0 := walkInit str dotSize componentId components offset start moveRight in
  path st
  = path st0 +:+ match moves st with
                 | [] => singleDot str drawer
                 | _ => String.concat "" (glyphsAlong str drawer (origin st0) (moves st))
                 end
  /\ length (glyphsAlong str drawer (origin st0) (moves st)) = length (moves st)
  /\ (moves st = [] <-> forall d, hasNeighbour components componentId start d = false).
Proof.
  intros Hin Hrun st0. subst st0.
  assert (forall o ms, length (glyphsAlong str drawer o ms) = length ms) as Hlen.
  { intros o ms. revert o. induction ms as [|d ms IH]; intros o; [done|].
    simpl. by rewrite IH. }
  split; [|split; [apply Hlen|]].
  - destruct (renderWalk_trace str dotSize components componentId offset start drawer
                moveRight fuel st Hin Hrun) as [(_ & -> & Hp)|(Hne & Hp & _)]; [done|].
    by destruct (moves st).
  - destruct (renderWalk_trace str dotSize components componentId offset start drawer
                moveRight fuel st Hin Hrun)
      as [(Hnone & Hm & _)|(Hne & _ & _ & Hnext & _)].
    + rewrite nextDirectionAt_spec in Hnone.
      pose proof (proj1 (firstNeighbour_None _ _) Hnone) as Hall. done.
    + split; [done|]. intros Hno. exfalso. apply Hnext.
      rewrite nextDirectionAt_spec. by apply firstNeighbour_None.
Qed.

Lemma path_is_glyph_sequence_witness :
  let components := [[Some 2; Some 2]; [Some 2; None]] in
  let st := WalkState "M 0 0 m 4 0h -4v 4v 4h 4v -4h 4v -4h -4" Right (0, 0)%Z
              [Bottom; Top; Right; Left] in
  path st
  = path (walkInit showNumber 4 2 components (0, 0)%Q (0, 0)%Z false)
    +:+ String.concat ""
          (glyphsAlong showNumber (drawerFactory square 4)
             (origin (walkInit showNumber 4 2 components (0, 0)%Q (0, 0)%Z false))
             (moves st)).
Proof.
  intros components st.
  exact (proj1 (path_is_glyph_sequence showNumber 4 20 2 components (0, 0)%Q (0, 0)%Z
                  (drawerFactory square 4) false st eq_refl eq_refl)).
Defined.

(** The walk stays in the component: the start cell moved along any
    prefix of the moves of a returned walk is a cell that holds the
    component id. *)
Theorem walk_stays_in_component (str : Q -> string) (dotSize : Q) (fuel componentId : nat)
    (components : list (list (option nat))) (offset : Q * Q) (start : Z * Z)
    (drawer : drawer) (moveRight : bool) (st : walkState) (k : nat) :
  isComponent components start.1 start.2 componentId = true ->
  renderWalk str dotSize fuel componentId components offset start drawer moveRight
    = Some st ->
  let cell := foldl move start (take k (moves st)) in
  isComponent components cell.1 cell.2 componentId = true.
Proof.
  intros Hin Hrun cell. subst cell.
  destruct (renderWalk_trace str dotSize components componentId offset start drawer
              moveRight fuel st Hin Hrun) as [(_ & Hm & _)|(Hne & _ & Hst & _)].
  - rewrite Hm. by rewrite take_nil.
  - destruct (decide (k <= length (moves st))) as [Hk|Hk].
    + specialize (Hst k Hk). unfold stateAfter in Hst.
      change (foldl move start (take k (moves st)))
        with ((foldl move start (take k (moves st)),
               default (origin (walkInit str dotSize componentId components offset
                                  start moveRight))
                 (opposite <$> last (take k (moves st)))).1).
      rewrite Hst. by apply iter_step_inside.
    + rewrite take_ge by lia. specialize (Hst (length (moves st)) ltac:(lia)).
      rewrite firstn_all in Hst. unfold stateAfter in Hst.
      change (foldl move start (moves st))
        with ((foldl move start (moves st),
               default (origin (walkInit str dotSize componentId components offset
                                  start moveRight))
                 (opposite <$> last (moves st))).1).
      rewrite Hst. by apply iter_step_inside.
Qed.

Lemma walk_stays_in_component_witness :
  let components := [[Some 2; Some 2]; [Some 2; None]] in
  let cell := foldl move (0, 0)%Z (take 3 [Bottom; Top; Right; Left]) in
  isComponent components cell.1 cell.2 2 = true.
Proof.
  intros components.
  exact (walk_stays_in_component showNumber 4 20 2 components (0, 0)%Q (0, 0)%Z
           (drawerFactory square 4) false
           (WalkState "M 0 0 m 4 0h -4v 4v 4h 4v -4h 4v -4h -4" Right (0, 0)%Z
              [Bottom; Top; Right; Left]) 3 eq_refl eq_refl).
Defined.


(** When the walk comes back.  For a start cell of the component with a
    neighbour in it, [renderComponentToPath] returns exactly when the
    neighbour on the side of the initial orientation is in the component;
    otherwise the loop runs for ever (no number of iterations is enough).
    The latter is the case exactly when the bottom and the top neighbour
    are outside and the right neighbour is outside or skipped by
    [moveRight]: the orientation is then the default ["top"], a side the
    walk can never arrive from. *)
Theorem walk_terminates_iff (str : Q -> string) (dotSize : Q) (componentId : nat)
    (components : list (list (option nat))) (offset : Q * Q) (start : Z * Z)
    (drawer : drawer) (moveRight : bool) :
  isComponent components start.1 start.2 componentId = true ->
  (exists d, hasNeighbour components componentId start d = true) ->
  let o0 := origin (walkInit str dotSize componentId components offset start moveRight) in
  ((exists fuel st, renderWalk str dotSize fuel componentId components offset start
                      drawer moveRight = Some st)
   <-> hasNeighbour components componentId start o0 = true)
  /\ (hasNeighbour components componentId start o0 = false ->
      forall fuel, renderComponentToPath str dotSize fuel componentId components offset
                     start drawer moveRight = None)
  /\ (hasNeighbour components componentId start o0 = false
      <-> hasNeighbour components componentId start Bottom = false
          /\ hasNeighbour components componentId start Top = false
          /\ (moveRight = true
              \/ hasNeighbour components componentId start Right = false)).
Proof.
  intros Hin [d0 Hd0] o0.
  assert (nextDirectionAt components componentId start o0 <> None) as Hnext.
  { rewrite nextDirectionAt_spec. intros Hn.
    pose proof (proj1 (firstNeighbour_None _ _) Hn d0). congruence. }
  assert ((exists fuel st, renderWalk str dotSize fuel componentId components offset start
                             drawer moveRight = Some st)
          <-> hasNeighbour components componentId start o0 = true) as Hiff.
  { split.
    - intros (fuel & st & Hrun).
      destruct (renderWalk_trace str dotSize components componentId offset start drawer
                  moveRight fuel st Hin Hrun) as [(Hnone & _)|(Hne & _ & _ & _ & Hret & _)].
      + done.
      + apply (return_valid components componentId (start, o0) (length (moves st)));
          [done|done| |done].
        destruct (moves st); [done|simpl; lia].
    - intros Hhas.
      assert (validState components componentId (start, o0)) as Hv by (by split).
      destruct (walk_returns components componentId (start, o0) Hv) as (n & Hn & Hret & Hfirst).
      destruct (walkInit_fields str dotSize components componentId offset start moveRight)
        as [Hcur Hmoves].
      destruct (walkLoop_orbit str components componentId start drawer o0 n
                  (walkInit str dotSize componentId components offset start moveRight) n)
        as (st' & Hrun & _); [done|done|by rewrite Hcur|by rewrite Hcur|by rewrite Hcur|].
      by exists n, st'. }
  split; [done|]. split.
  - intros Hno fuel. unfold renderComponentToPath.
    destruct (renderWalk str dotSize fuel componentId components offset start drawer
                moveRight) as [st|] eqn:Hrun; [|done].
    exfalso. assert (hasNeighbour components componentId start o0 = true) as Hyes.
    { apply Hiff. by exists fuel, st. }
    congruence.
  - subst o0. unfold walkInit, hasNeighbour. destruct start as [r c]. simpl.
    destruct (isComponent components r (c + 1) componentId) eqn:HR,
             (isComponent components (r + 1) c componentId) eqn:HB,
             moveRight; simpl; rewrite ?HR, ?HB;
      destruct (isComponent components (r - 1) c componentId); intuition congruence.
Qed.

Lemma walk_terminates_iff_witness :
  renderComponentToPath showNumber 4 1000 2 [[Some 2; Some 2]] (0, 0)%Q (0, 1)%Z
    (drawerFactory square 4) false = None.
Proof.
  exact (proj1 (proj2 (walk_terminates_iff showNumber 4 2 [[Some 2; Some 2]] (0, 0)%Q
                         (0, 1)%Z (drawerFactory square 4) false eq_refl
                         (ex_intro _ Left eq_refl)))
           eq_refl 1000).
Defined.

(** The walk passes no state twice: the pairs of the current cell and the
    side of arrival before each move of a returned walk are pairwise
    distinct, and so the walk makes at most as many moves as there are
    pairs of a cell of the component and a side on which its neighbour is
    in the component. *)
Theorem walk_never_repeats_state (str : Q -> string) (dotSize : Q)
    (fuel componentId : nat) (components : list (list (option nat))) (offset : Q * Q)
    (start : Z * Z) (drawer : drawer) (moveRight : bool) (st : walkState) :
  isComponent components start.1 start.2 componentId = true ->
  renderWalk str dotSize fuel componentId components offset start drawer moveRight
    = Some st ->
  let o0 := origin (walkInit str dotSize componentId components offset start moveRight) in
  NoDup (statesAlong start o0 (moves st))
  /\ length (moves st) <= length (innerStates components componentId).
Proof.
  intros Hin Hrun o0. subst o0.
  destruct (renderWalk_trace str dotSize components componentId offset start drawer
              moveRight fuel st Hin Hrun)
    as [(_ & -> & _)|(Hne & _ & Hst & Hnext & Hret & Hfirst)].
  { split; [constructor|simpl; lia]. }
  set (o0 := origin (walkInit str dotSize componentId components offset start moveRight))
    in *.
  set (n := length (moves st)) in *.
  assert (0 < n) as Hn by (subst n; destruct (moves st); [done|simpl; lia]).
  assert (validState components componentId (start, o0)) as Hv.
  { by apply (return_valid components componentId (start, o0) n). }
  set (orbit := (fun i => Nat.iter i (stepState components componentId) (start, o0))
                  <$> seq 0 n).
  assert (statesAlong start o0 (moves st) = orbit) as ->.
  { unfold statesAlong, orbit. fold n. apply list_fmap_ext.
    intros i x Hx. apply lookup_seq in Hx as [-> Hi]. apply Hst. lia. }
  assert (NoDup orbit) as Hnd.
  { apply (orbit_NoDup (stepState components componentId)
             (validState components componentId)
             (step_valid components componentId) (step_inj components componentId));
      done. }
  split; [done|].
  replace n with (length orbit) by (unfold orbit; by rewrite length_fmap, length_seq).
  apply submseteq_length, NoDup_submseteq; [done|].
  intros s Hs. apply list_elem_of_fmap in Hs as (i & -> & _).
  apply innerStates_elem. by apply iter_step_valid.
Qed.

Lemma walk_never_repeats_state_witness :
  let components := [[Some 2; Some 2]; [Some 2; None]] in
  NoDup (statesAlong (0, 0)%Z Right [Bottom; Top; Right; Left])
  /\ 4 <= length (innerStates components 2).
Proof.
  intros components.
  exact (walk_never_repeats_state showNumber 4 20 2 components (0, 0)%Q (0, 0)%Z
           (drawerFactory square 4) false
           (WalkState "M 0 0 m 4 0h -4v 4v 4h 4v -4h 4v -4h -4" Right (0, 0)%Z
              [Bottom; Top; Right; Left]) eq_refl eq_refl).
Defined.

Example walk_that_never_returns :
  origin (walkInit showNumber 4 2 [[Some 2; Some 2]] (0, 0)%Q (0, 1)%Z false) = Top
  /\ Nat.iter 2 (stepState [[Some 2; Some 2]] 2) ((0, 1)%Z, Top) = ((0, 1)%Z, Left)
  /\ Nat.iter 4 (stepState [[Some 2; Some 2]] 2) ((0, 1)%Z, Top) = ((0, 1)%Z, Left).
Proof. by vm_compute. Qed.


(** * The pen along the contour *)

Lemma string_concat_app (l1 l2 : list string) :
  String.concat "" (l1 ++ l2) = String.concat "" l1 +:+ String.concat "" l2.
Proof.
  induction l1 as [|x l1 IH]; [done|].
  change ((x :: l1) ++ l2) with (x :: (l1 ++ l2)).
  by rewrite !string_concat_cons, IH, string_app_assoc.
Qed.

Section PenText.
Variable str : Q -> string.

Lemma text_app (a b : list Pen.command) :
  Pen.text str (a ++ b) = Pen.text str a +:+ Pen.text str b.
Proof. unfold Pen.text. by rewrite fmap_app, string_concat_app. Qed.

(** The printed commands of a method are the string that the method
    returns. *)
Lemma call_text (d : drawer) (m : method) : Pen.text str (Pen.call d m) = call str d m.
Proof.
  destruct d as [c s].
  destruct c, m; cbv -[String.append Qdiv]; rewrite ?string_app_assoc; reflexivity.
Qed.

End PenText.

Section PenFacts.
Variable str : Q -> string.

Lemma glyph_text (d : drawer) (o n : Directions) :
  Pen.text str (Pen.glyph d o n) = glyph str d o n.
Proof.
  unfold Pen.glyph, glyph. destruct (getDrawDirections o n); [apply call_text|done].
Qed.

Lemma glyphsAlong_text (d : drawer) (o : Directions) (ms : list Directions) :
  String.concat "" (glyphsAlong str d o ms) = Pen.text str (Pen.glyphsAlong d o ms).
Proof.
  revert o. induction ms as [|n ms IH]; intros o; [done|].
  cbn [glyphsAlong Pen.glyphsAlong].
  by rewrite string_concat_cons, text_app, IH, glyph_text.
Qed.

End PenFacts.

Lemma penShift_app (a b : list Pen.command) :
  (Pen.penShift (a ++ b)).1 == (Pen.penShift a).1 + (Pen.penShift b).1
  /\ (Pen.penShift (a ++ b)).2 == (Pen.penShift a).2 + (Pen.penShift b).2.
Proof.
  induction a as [|c a [IH1 IH2]]; simpl.
  - split; ring.
  - rewrite IH1, IH2. split; ring.
Qed.

(** The way of the pen from one state to the next does not depend on the
    cell. *)
Lemma penPoint_step (x : Z * Z) (o n : Directions) :
  ((penPoint (move x n, opposite n)).1 - (penPoint (x, o)).1
   = (penPoint (move (0, 0) n, opposite n)).1 - (penPoint ((0, 0), o)).1)%Z
  /\ ((penPoint (move x n, opposite n)).2 - (penPoint (x, o)).2
      = (penPoint (move (0, 0) n, opposite n)).2 - (penPoint ((0, 0), o)).2)%Z.
Proof. destruct x as [r c], o, n; simpl; lia. Qed.

Lemma glyph_shift_origin (c : drawerClass) (s : Q) (o n : Directions) :
  (Pen.penShift (Pen.glyph (Drawer c s) o n)).1
  == s * inject_Z ((penPoint (move (0, 0)%Z n, opposite n)).1
                   - (penPoint ((0, 0)%Z, o)).1)%Z
  /\ (Pen.penShift (Pen.glyph (Drawer c s) o n)).2
     == s * inject_Z ((penPoint (move (0, 0)%Z n, opposite n)).2
                      - (penPoint ((0, 0)%Z, o)).2)%Z.
Proof.
  destruct c, o, n; cbv -[Qeq Qplus Qmult Qdiv Qopp inject_Z Qminus]; split; field.
Qed.

Lemma glyph_shift (d : drawer) (x : Z * Z) (o n : Directions) :
  (Pen.penShift (Pen.glyph d o n)).1
  == size d * inject_Z ((penPoint (move x n, opposite n)).1 - (penPoint (x, o)).1)%Z
  /\ (Pen.penShift (Pen.glyph d o n)).2
     == size d * inject_Z ((penPoint (move x n, opposite n)).2 - (penPoint (x, o)).2)%Z.
Proof.
  destruct d as [c s]. destruct (penPoint_step x o n) as [-> ->].
  apply glyph_shift_origin.
Qed.

Lemma glyphsAlong_shift (d : drawer) (ms : list Directions) :
  forall (x : Z * Z) (o : Directions),
    (Pen.penShift (Pen.glyphsAlong d o ms)).1
    == size d * inject_Z ((penPoint (stateAfter x ms o)).1 - (penPoint (x, o)).1)%Z
    /\ (Pen.penShift (Pen.glyphsAlong d o ms)).2
       == size d * inject_Z ((penPoint (stateAfter x ms o)).2 - (penPoint (x, o)).2)%Z.
Proof.
  induction ms as [|n ms IH]; intros x o.
  - unfold stateAfter. simpl. rewrite !Z.sub_diag. split; ring.
  - cbn [Pen.glyphsAlong]. rewrite stateAfter_cons.
    destruct (penShift_app (Pen.glyph d o n) (Pen.glyphsAlong d (opposite n) ms))
      as [-> ->].
    destruct (glyph_shift d x o n) as [-> ->].
    destruct (IH (move x n) (opposite n)) as [-> ->].
    set (p0 := penPoint (x, o)). set (p1 := penPoint (move x n, opposite n)).
    set (p2 := penPoint (stateAfter (move x n) ms (opposite n))).
    replace (p2.1 - p0.1)%Z with ((p1.1 - p0.1) + (p2.1 - p1.1))%Z by lia.
    replace (p2.2 - p0.2)%Z with ((p1.2 - p0.2) + (p2.2 - p1.2))%Z by lia.
    rewrite !inject_Z_plus. split; ring.
Qed.

(** Where a glyph takes the pen.  For each of the five classes and every
    transition, the commands of the glyph, which print as the string that
    [directions[origin][next]] yields (the empty string for a [null]
    entry), move the pen from the corner of the current cell that belongs
    to the side of arrival to the corner of the next cell that belongs to
    its side of arrival, in units of the drawer's size: the displacement
    is the same for all classes, which differ in the shape of the stroke
    only.  The entry of the table is [null] exactly for the transitions on
    which these two corners are one point. *)
Theorem glyph_joins_pen_corners (c : drawerClass) (s : Q) (x : Z * Z)
    (o n : Directions) :
  let g := Pen.glyph (Drawer c s) o n in
  (forall str, Pen.text str g = glyph str (Drawer c s) o n)
  /\ (Pen.penShift g).1
     == s * inject_Z ((penPoint (move x n, opposite n)).1 - (penPoint (x, o)).1)%Z
  /\ (Pen.penShift g).2
     == s * inject_Z ((penPoint (move x n, opposite n)).2 - (penPoint (x, o)).2)%Z
  /\ (getDrawDirections o n = None
      <-> penPoint (move x n, opposite n) = penPoint (x, o)).
Proof.
  intros g. subst g. split; [intros str; apply glyph_text|].
  destruct (glyph_shift (Drawer c s) x o n) as [H1 H2].
  split; [exact H1|]. split; [exact H2|].
  destruct x as [r col], o, n; unfold penPoint; simpl; split; intros H; try done;
    try (injection H; lia); f_equal; lia.
Qed.

Example glyphs_of_one_turn :
  Pen.glyph (drawerFactory square 4) Left Top = [Pen.Ch (Pen.Plus 4); Pen.Cv (Pen.Minus 4)]
  /\ Pen.glyph (drawerFactory extra_rounded 4) Left Top
     = [Pen.Ca 4 4 (Pen.Plus 4) (Pen.Minus 4)]
  /\ Pen.text showNumber (Pen.glyph (drawerFactory extra_rounded 4) Left Top)
     = "a 4 4 0 0 0 4 -4"
  /\ Pen.glyph (drawerFactory square 4) Left Bottom = [].
Proof. by vm_compute. Qed.


(** * The drawers and the step rule *)

Section GlyphFacts.
Variable str : Q -> string.

Lemma call_nonempty (d : drawer) (m : method) : call str d m <> "".
Proof. destruct d as [c s]. destruct c, m; simpl; discriminate. Qed.

Lemma glyph_call (d : drawer) (o n : Directions) (m : method) :
  getDrawDirections o n = Some m -> glyph str d o n = call str d m.
Proof. intros H. unfold glyph. by rewrite H. Qed.

End GlyphFacts.

(** C7 (amended).  For each of the five drawer classes the table of
    [getDrawDirections] has a method for twelve of the sixteen transitions:
    the four straight continuations ([right], [left], [down], [up]), the four
    U-turns ([rightU], [leftU], [downU], [upU]) and four of the eight quarter
    turns ([rightUp], [leftDown], [downRight], [upLeft]).  For each of these
    twelve the tracer appends what the method returns, which is not the
    empty string: it is the text of path commands that move the pen by one
    module along one axis for a straight continuation and for a U-turn, and
    by one module along each of the two axes for a quarter turn.  The
    single-dot glyph is not empty either.  The other four quarter turns,
    those that leave toward the direction following the origin in the order
    left, bottom, right, top, have a [null] entry and the tracer emits the
    empty string for them. *)
Theorem C7_transition_table (str : Q -> string) (d : drawer) (o n : Directions) :
  let shift := Pen.penShift (Pen.glyph d o n) in
  let oneAxis :=
    ((shift.1 == 0 /\ shift.2 * shift.2 == size d * size d)
     \/ (shift.2 == 0 /\ shift.1 * shift.1 == size d * size d))%Q in
  let bothAxes :=
    (shift.1 * shift.1 == size d * size d /\ shift.2 * shift.2 == size d * size d)%Q in
  (length allTransitions = 16
   /\ length (filter (fun t => classify t.1 t.2 = Straight) allTransitions) = 4
   /\ length (filter (fun t => classify t.1 t.2 = Turn) allTransitions) = 8
   /\ length (filter (fun t => classify t.1 t.2 = UTurn) allTransitions) = 4)
  /\ match classify o n with
     | Straight =>
         exists m, getDrawDirections o n = Some m
                   /\ m ∈ [m_right; m_left; m_down; m_up]
                   /\ glyph str d o n = call str d m
                   /\ glyph str d o n <> ""
                   /\ glyph str d o n = Pen.text str (Pen.glyph d o n)
                   /\ oneAxis
     | UTurn =>
         exists m, getDrawDirections o n = Some m
                   /\ m ∈ [m_rightU; m_leftU; m_downU; m_upU]
                   /\ glyph str d o n = call str d m
                   /\ glyph str d o n <> ""
                   /\ glyph str d o n = Pen.text str (Pen.glyph d o n)
                   /\ oneAxis
     | Turn =>
         if decide (n = afterOrigin o)
         then getDrawDirections o n = None /\ glyph str d o n = ""
         else exists m, getDrawDirections o n = Some m
                        /\ m ∈ [m_rightUp; m_leftDown; m_downRight; m_upLeft]
                        /\ glyph str d o n = call str d m
                        /\ glyph str d o n <> ""
                        /\ glyph str d o n = Pen.text str (Pen.glyph d o n)
                        /\ bothAxes
     end
  /\ singleDot str d <> "".
Proof.
  intros shift oneAxis bothAxes.
  split; [by vm_compute|].
  split; [|apply call_nonempty].
  assert (forall m, getDrawDirections o n = Some m ->
            glyph str d o n = call str d m /\ glyph str d o n <> ""
            /\ glyph str d o n = Pen.text str (Pen.glyph d o n)) as Hout.
  { intros m Hm. rewrite (glyph_call str d o n m Hm).
    split; [done|]. split; [apply call_nonempty|].
    rewrite glyph_text. symmetry. by apply glyph_call. }
  destruct (glyph_shift d (0, 0)%Z o n) as [H1 H2]. fold shift in H1, H2.
  subst oneAxis bothAxes.
  destruct o, n; simpl in *;
    first [ done
          | eexists; split; [reflexivity|]; split; [rewrite !elem_of_cons; eauto 10|];
            destruct (Hout _ eq_refl) as (Ha & Hb & Hc);
            split; [exact Ha|]; split; [exact Hb|]; split; [exact Hc|];
            match type of H1 with
            | context [inject_Z ?z] =>
                let z' := eval vm_compute in z in change z with z' in H1
            end;
            match type of H2 with
            | context [inject_Z ?z] =>
                let z' := eval vm_compute in z in change z with z' in H2
            end;
            unfold inject_Z in H1, H2; rewrite H1, H2;
            first [ split; ring | left; split; ring | right; split; ring ] ].
Qed.

(** C8, as stated, fails in its last part: the single-dot glyph of the
    classy drawer is no small diamond.  For a module of size 4 the pen,
    taken from the top left corner of the module, goes to the top right
    corner (4, 0) and from there through (2, 0), (0, 2), (0, 4), (2, 4) and
    (4, 2) back to (4, 0): the outline spans the whole module, reaches its
    bottom left and top right corners with right angles, and four of its
    six strokes run along the sides of the module. *)
Lemma C8_single_dot_no_diamond :
  let d := drawerFactory classy 4 in
  singleDot showNumber d = "m 4 0h -2a 2 2 0 0 0 -2 2v 2h 2a 2 2 0 0 0 2 -2v -2"
  /\ Pen.text showNumber (Pen.singleDot d) = singleDot showNumber d
  /\ (fun p : Q * Q => (Qred p.1, Qred p.2)) <$> penTrail (0, 0)%Q (Pen.singleDot d)
     = [(4, 0); (2, 0); (0, 2); (0, 4); (2, 4); (4, 2); (4, 0)]%Q
  /\ length (filter (fun c => axisParallel c = true) (Pen.singleDot d)) = 4
  /\ diamondLike (Pen.singleDot d) = false.
Proof. by vm_compute. Qed.

(** C8 (amended).  The classy drawer renders the two quarter turns
    [rightUp] (arrived from the left, leaves toward the top) and
    [leftDown] (arrived from the right, leaves toward the bottom) as half a
    module straight, a quarter arc of radius half a module, and half a
    module straight; its other two quarter turns, [downRight] and
    [upLeft], are two straight strokes of a full module at a right angle,
    without an arc.  Its single-dot glyph is the closed outline of the
    whole module with the top left and the bottom right corner rounded by
    quarter arcs of radius half a module and the other two corners
    sharp. *)
Theorem C8_classy_drawer (str : Q -> string) (size : Q) :
  let d := drawerFactory classy size in
  let h := (size / 2)%Q in
  (getDrawDirections Left Top = Some m_rightUp
   /\ call str d m_rightUp
      = ("h " +:+ str h)
        +:+ ("a " +:+ str h +:+ " " +:+ str h +:+ " 0 0 0 " +:+ str h +:+ " -" +:+ str h)
        +:+ ("v -" +:+ str h)
   /\ Pen.call d m_rightUp
      = [Pen.Ch (Pen.Plus h); Pen.Ca h h (Pen.Plus h) (Pen.Minus h); Pen.Cv (Pen.Minus h)]
   /\ quarterArc h (Pen.Ca h h (Pen.Plus h) (Pen.Minus h)))
  /\ (getDrawDirections Right Bottom = Some m_leftDown
      /\ call str d m_leftDown
         = ("h -" +:+ str h)
           +:+ ("a " +:+ str h +:+ " " +:+ str h +:+ " 0 0 0 -" +:+ str h +:+ " " +:+ str h)
           +:+ ("v " +:+ str h)
      /\ Pen.call d m_leftDown
         = [Pen.Ch (Pen.Minus h); Pen.Ca h h (Pen.Minus h) (Pen.Plus h); Pen.Cv (Pen.Plus h)]
      /\ quarterArc h (Pen.Ca h h (Pen.Minus h) (Pen.Plus h)))
  /\ (getDrawDirections Top Right = Some m_downRight
      /\ call str d m_downRight = ("v " +:+ str size) +:+ ("h " +:+ str size)
      /\ Pen.call d m_downRight = [Pen.Cv (Pen.Plus size); Pen.Ch (Pen.Plus size)])
  /\ (getDrawDirections Bottom Left = Some m_upLeft
      /\ call str d m_upLeft = ("v -" +:+ str size) +:+ ("h -" +:+ str size)
      /\ Pen.call d m_upLeft = [Pen.Cv (Pen.Minus size); Pen.Ch (Pen.Minus size)])
  /\ (forall m, m ∈ [m_rightUp; m_leftDown; m_downRight; m_upLeft] ->
        Pen.text str (Pen.call d m) = call str d m
        /\ (existsb isArc (Pen.call d m) = true <-> m = m_rightUp \/ m = m_leftDown))
  /\ singleDot str d
     = ("m " +:+ str size +:+ " 0")
       +:+ (("h -" +:+ str h)
            +:+ ("a " +:+ str h +:+ " " +:+ str h +:+ " 0 0 0 -" +:+ str h +:+ " " +:+ str h)
            +:+ ("v " +:+ str h))
       +:+ (("h " +:+ str h)
            +:+ ("a " +:+ str h +:+ " " +:+ str h +:+ " 0 0 0 " +:+ str h +:+ " -" +:+ str h)
            +:+ ("v -" +:+ str h))
  /\ Pen.singleDot d
     = [Pen.Cm (Pen.Plus size) Pen.Zero;
        Pen.Ch (Pen.Minus h); Pen.Ca h h (Pen.Minus h) (Pen.Plus h); Pen.Cv (Pen.Plus h);
        Pen.Ch (Pen.Plus h); Pen.Ca h h (Pen.Plus h) (Pen.Minus h); Pen.Cv (Pen.Minus h)]
  /\ Pen.text str (Pen.singleDot d) = singleDot str d
  /\ samePoints (penTrail (0, 0)%Q (Pen.singleDot d))
       [(size, 0); (h, 0); (0, h); (0, size); (h, size); (size, h); (size, 0)]%Q.
Proof.
  intros d h. subst d h.
  split; [repeat split; auto|]. split; [repeat split; auto|].
  split; [repeat split|]. split; [repeat split|].
  split.
  { intros m Hm. split; [apply call_text|].
    rewrite !elem_of_cons in Hm.
    destruct Hm as [->|[->|[->|[->|Hm]]]]; [| | | |by apply elem_of_nil in Hm];
      simpl; (split; intros H; first [done | by left | by right | by destruct H]). }
  split; [reflexivity|]. split; [reflexivity|]. split; [apply call_text|].
  unfold samePoints. simpl. repeat constructor; simpl; field.
Qed.

(** * The step rule along the walk *)

Section StepRule.
Variable str : Q -> string.
Variable dotSize : Q.
Variable components : list (list (option nat)).
Variable componentId : nat.
Variable start : Z * Z.
Variable drawer : drawer.
Variable o0 : Directions.


End StepRule.



Example moves_follow_the_rule :
  let components := [[Some 2; Some 2]; [Some 2; None]] in
  moves <$> renderWalk showNumber 4 20 2 components (0, 0)%Q (0, 0)%Z
              (drawerFactory square 4) false
  = Some [Bottom; Top; Right; Left]
  /\ firstNeighbour Right (hasNeighbour components 2 (0, 0)%Z) = Some Bottom
  /\ firstNeighbour Top (hasNeighbour components 2 (1, 0)%Z) = Some Top
  /\ firstNeighbour Bottom (hasNeighbour components 2 (0, 0)%Z) = Some Right
  /\ firstNeighbour Left (hasNeighbour components 2 (0, 1)%Z) = Some Left.
Proof. by vm_compute. Qed.


Lemma singleDot_outline (c : drawerClass) (s : Q) :
  exists dx outline,
    Pen.singleDot (Drawer c s) = Pen.Cm (Pen.Plus dx) Pen.Zero :: outline
    /\ (Pen.penShift outline).1 == 0 /\ (Pen.penShift outline).2 == 0.
Proof.
  destruct c; eexists _, _; (split; [reflexivity|]);
    cbv -[Qeq Qplus Qmult Qdiv Qopp inject_Z Qminus]; split; field.
Qed.

(** Every contour is closed on the page.  The [d] attribute of a returned
    walk is the move-to prefix followed by the printed commands of the
    glyphs; when the walk made moves, these commands bring the pen back to
    the point where the first of them began; when it made none, they are
    the single-dot glyph: one relative move-to and an outline that brings
    the pen back to where the outline began.  This holds for each of the
    five drawers. *)
Theorem contour_is_closed (str : Q -> string) (dotSize : Q) (fuel componentId : nat)
    (components : list (list (option nat))) (offset : Q * Q) (start : Z * Z)
    (drawer : drawer) (moveRight : bool) (st : walkState) :
  isComponent components start.1 start.2 componentId = true ->
  renderWalk str dotSize fuel componentId components offset start drawer moveRight
    = Some st ->
  let st0 := walkInit str dotSize componentId components offset start moveRight in
  (moves st = []
   /\ path st = path st0 +:+ Pen.text str (Pen.singleDot drawer)
   /\ exists dx outline,
        Pen.singleDot drawer = Pen.Cm (Pen.Plus dx) Pen.Zero :: outline
        /\ (Pen.penShift outline).1 == 0 /\ (Pen.penShift outline).2 == 0)
  \/ (moves st <> []
      /\ path st = path st0 +:+ Pen.text str (Pen.glyphsAlong drawer (origin st0) (moves st))
      /\ (Pen.penShift (Pen.glyphsAlong drawer (origin st0) (moves st))).1 == 0
      /\ (Pen.penShift (Pen.glyphsAlong drawer (origin st0) (moves st))).2 == 0).
Proof.
  intros Hin Hrun st0. subst st0.
  destruct (renderWalk_trace str dotSize components componentId offset start drawer
              moveRight fuel st Hin Hrun)
    as [(_ & Hm & Hp)|(Hne & Hp & Hst & _ & Hret & _)].
  - left. split; [done|]. split.
    + rewrite Hp. unfold Pen.singleDot, singleDot. by rewrite call_text.
    + destruct drawer as [c s]. apply singleDot_outline.
  - right. split; [done|]. split; [by rewrite Hp, glyphsAlong_text|].
    specialize (Hst (length (moves st)) ltac:(lia)). rewrite firstn_all, Hret in Hst.
    set (o0 := origin (walkInit str dotSize componentId components offset start moveRight))
      in *.
    destruct (glyphsAlong_shift drawer (moves st) start o0) as [-> ->].
    rewrite Hst, !Z.sub_diag. split; ring.
Qed.

Lemma contour_is_closed_witness :
  let components := [[Some 2; Some 2]; [Some 2; None]] in
  let drawer := drawerFactory rounded 4 in
  let st := WalkState
              ("M 0 0 m 4 0h -2a 2 2 0 0 0 -2 2v 2v 2a 2 2 0 0 0 4 0v -2h 2"
               +:+ "a 2 2 0 0 0 0 -4h -2")
              Right (0, 0)%Z [Bottom; Top; Right; Left] in
  path st
  = path (walkInit showNumber 4 2 components (0, 0)%Q (0, 0)%Z false)
    +:+ Pen.text showNumber (Pen.glyphsAlong drawer Right (moves st))
  /\ (Pen.penShift (Pen.glyphsAlong drawer Right (moves st))).1 == 0
  /\ (Pen.penShift (Pen.glyphsAlong drawer Right (moves st))).2 == 0.
Proof.
  intros components drawer st.
  destruct (contour_is_closed showNumber 4 20 2 components (0, 0)%Q (0, 0)%Z drawer
              false st eq_refl eq_refl) as [(Hm & _)|(_ & H)].
  - discriminate Hm.
  - exact H.
Defined.

(** The pen stands on a corner of the current cell.  The prefix of the
    path is the absolute move-to to the top left corner of the start cell
    followed by a relative one that takes the pen to the corner that
    belongs to the initial orientation; and along any list of moves the
    glyphs take the pen from the corner for the state it began in to the
    corner for the state reached, in units of the drawer's size. *)
Theorem pen_stands_on_cell_corner (str : Q -> string) (dotSize : Q) (componentId : nat)
    (components : list (list (option nat))) (offset : Q * Q) (start : Z * Z)
    (drawer : drawer) (moveRight : bool) (ms : list Directions) :
  let st0 := walkInit str dotSize componentId components offset start moveRight in
  let o0 := origin st0 in
  path st0
  = ("M " +:+ str (inject_Z start.2 * dotSize + offset.1)%Q +:+ " "
          +:+ str (inject_Z start.1 * dotSize + offset.2)%Q +:+ " ")
    +:+ Pen.text str (Pen.startMove dotSize o0)
  /\ (Pen.penShift (Pen.startMove dotSize o0)).1 == dotSize * inject_Z (penCorner o0).1
  /\ (Pen.penShift (Pen.startMove dotSize o0)).2 == dotSize * inject_Z (penCorner o0).2
  /\ (Pen.penShift (Pen.glyphsAlong drawer o0 ms)).1
     == size drawer * inject_Z ((penPoint (stateAfter start ms o0)).1
                                - (penPoint (start, o0)).1)%Z
  /\ (Pen.penShift (Pen.glyphsAlong drawer o0 ms)).2
     == size drawer * inject_Z ((penPoint (stateAfter start ms o0)).2
                                - (penPoint (start, o0)).2)%Z.
Proof.
  intros st0 o0.
  destruct (glyphsAlong_shift drawer ms start o0) as [H1 H2].
  split; [|split; [|split; [|by split]]].
  - subst o0 st0. unfold walkInit.
    destruct (isComponent components start.1 (start.2 + 1) componentId && negb moveRight);
      [done|].
    destruct (isComponent components (start.1 + 1) start.2 componentId); [done|].
    simpl. by rewrite string_app_empty_r.
  - subst o0 st0. unfold walkInit.
    destruct (isComponent components start.1 (start.2 + 1) componentId && negb moveRight);
      [|destruct (isComponent components (start.1 + 1) start.2 componentId)];
      cbv -[Qeq Qplus Qmult Qdiv Qopp Qminus]; ring.
  - subst o0 st0. unfold walkInit.
    destruct (isComponent components start.1 (start.2 + 1) componentId && negb moveRight);
      [|destruct (isComponent components (start.1 + 1) start.2 componentId)];
      cbv -[Qeq Qplus Qmult Qdiv Qopp Qminus]; ring.
Qed.


(** * Further properties of the compositor *)

(** More iterations do not change what a walk returns. *)
Lemma walkLoop_mono str componentId components (start : Z * Z) drawer o0 fuel fuel' st r :
  fuel <= fuel' ->
  walkLoop str fuel componentId components start drawer o0 st = Some r ->
  walkLoop str fuel' componentId components start drawer o0 st = Some r.
Proof.
  revert fuel' st. induction fuel as [|fuel IH]; intros fuel' st Hle Hrun; [done|].
  destruct fuel' as [|fuel']; [lia|]. simpl in Hrun |- *.
  destruct (nextDirectionAt components componentId (current st) (origin st)); [|done].
  destruct (continueWalk _ _ _ _); [|done]. apply IH; [lia|done].
Qed.

Lemma renderComponentToPath_mono str dotSize componentId components offset (start : Z * Z)
    drawer moveRight fuel fuel' p :
  fuel <= fuel' ->
  renderComponentToPath str dotSize fuel componentId components offset start drawer
    moveRight = Some p ->
  renderComponentToPath str dotSize fuel' componentId components offset start drawer
    moveRight = Some p.
Proof.
  intros Hle. unfold renderComponentToPath, renderWalk.
  destruct (walkLoop str fuel _ _ _ _ _ _) as [r|] eqn:Hrun; [|done].
  intros [= <-]. by rewrite (walkLoop_mono _ _ _ _ _ _ fuel fuel' _ r Hle Hrun).
Qed.

Lemma mapM_mono {A B} (f g : A -> option B) (l : list A) (k : list B) :
  (forall x y, x ∈ l -> f x = Some y -> g x = Some y) ->
  mapM f l = Some k -> mapM g l = Some k.
Proof.
  intros H Hf. apply mapM_Some in Hf. apply mapM_Some.
  induction Hf as [|x y l k Hxy _ IH]; [constructor|].
  constructor.
  - apply H; [apply elem_of_cons; by left|done].
  - apply IH. intros x' y' Hin. apply H, elem_of_cons. by right.
Qed.

Section Output.
Variable str : Q -> string.
Variable dotSize : Q.

Lemma drawComponents_mono (dotsMask : list (list bool)) (offset : Q * Q) (drawer : drawer)
    (fuel fuel' : nat) paths :
  fuel <= fuel' ->
  drawComponents str dotSize fuel dotsMask offset drawer = Some paths ->
  drawComponents str dotSize fuel' dotsMask offset drawer = Some paths.
Proof.
  intros Hle. rewrite !drawComponents_spec. apply mapM_mono.
  intros [id start] y _. simpl.
  destruct (renderComponentToPath str dotSize fuel id _ offset _ drawer false)
    as [p|] eqn:Hp; [|done].
  rewrite (renderComponentToPath_mono _ _ _ _ _ _ _ _ fuel fuel' p Hle Hp). cbn.
  destruct (mapM _ (holesOf _ _ id)) as [holes|] eqn:Hh; [|done].
  erewrite mapM_mono; [done| |exact Hh].
  intros hole q _. by apply renderComponentToPath_mono.
Qed.

Lemma drawComponents_keys (dotsMask : list (list bool)) (offset : Q * Q) (drawer : drawer)
    (fuel : nat) paths :
  drawComponents str dotSize fuel dotsMask offset drawer = Some paths ->
  paths.*1 = (buildConnectedComponents dotsMask false Conn4).2.*1.
Proof.
  rewrite drawComponents_spec. intros H. apply mapM_Some in H.
  induction H as [|[id start] y l k Hxy _ IH]; [done|].
  simpl in Hxy. cbn. f_equal; [|done].
  destruct (renderComponentToPath _ _ _ _ _ _ _ _ _); [|done]. cbn in Hxy.
  destruct (mapM _ _); [|done]. by injection Hxy as <-.
Qed.

End Output.

(** The output of [drawComponents].  On a square mask the function
    returns (for every bound on the iterations of a walk above eight times
    the number of cells, and with the same result for all of them): one
    [path] for every foreground component, in the order of the registry,
    that is, in the raster order of the first cells of the components; no
    id twice; and every dark cell of the mask bears the id of one of the
    paths. *)
Theorem drawComponents_one_path_per_component (str : Q -> string) (dotSize : Q)
    (dotsMask : list (list bool)) (offset : Q * Q) (drawer : drawer) (fuel : nat) :
  isSquare dotsMask ->
  8 * length (gridCells (buildConnectedComponents dotsMask false Conn4).1) < fuel ->
  exists paths,
    drawComponents str dotSize fuel dotsMask offset drawer = Some paths
    /\ (forall fuel',
          8 * length (gridCells (buildConnectedComponents dotsMask false Conn4).1) < fuel' ->
          drawComponents str dotSize fuel' dotsMask offset drawer = Some paths)
    /\ paths.*1 = (buildConnectedComponents dotsMask false Conn4).2.*1
    /\ NoDup paths.*1
    /\ rasterSorted (buildConnectedComponents dotsMask false Conn4).2
    /\ (forall r c, inGrid dotsMask r c -> maskAt dotsMask r c = true ->
          exists id, readCell (buildConnectedComponents dotsMask false Conn4).1 r c = Some id
                     /\ id ∈ paths.*1).
Proof.
  intros Hsq Hfuel.
  destruct (drawComponents_total str dotSize dotsMask offset drawer Hsq fuel Hfuel)
    as [paths Hp].
  pose proof (drawComponents_keys str dotSize dotsMask offset drawer fuel paths Hp) as Hk.
  exists paths. split; [done|]. split; [|split; [done|split; [|split]]].
  - intros fuel' Hfuel'.
    destruct (decide (fuel <= fuel')) as [Hle|Hgt].
    + by apply (drawComponents_mono str dotSize dotsMask offset drawer fuel fuel').
    + destruct (drawComponents_total str dotSize dotsMask offset drawer Hsq fuel' Hfuel')
        as [paths' Hp'].
      pose proof (drawComponents_mono str dotSize dotsMask offset drawer fuel' fuel paths'
                    ltac:(lia) Hp') as Hp''.
      congruence.
  - rewrite Hk. apply result_ids_nodup.
  - apply resolve_order.
  - intros r c Hin Hm.
    destruct (result_labelled dotsMask false Conn4 r c) as [id Hid].
    { split; [done|]. by rewrite Hm. }
    exists id. split; [done|]. rewrite Hk.
    destruct (result_ids_total dotsMask false Conn4 r c id Hid) as [[r0 c0] Hget].
    apply result_ids_elem in Hget. apply list_elem_of_fmap. by exists (id, (r0, c0)).
Qed.

Lemma drawComponents_one_path_per_component_witness :
  let dotsMask := [[true; false]; [false; true]] in
  exists paths,
    drawComponents showNumber 4 40 dotsMask (0, 0)%Q (drawerFactory square 4) = Some paths
    /\ paths.*1 = (buildConnectedComponents dotsMask false Conn4).2.*1.
Proof.
  intros dotsMask.
  destruct (drawComponents_one_path_per_component showNumber 4 dotsMask (0, 0)%Q
              (drawerFactory square 4) 40)
    as (paths & H1 & _ & H2 & _).
  - repeat constructor.
  - vm_compute. lia.
  - by exists paths.
Defined.


(** The start of an enclosed background component has a foreground cell
    to its left. *)
Lemma background_start_left (dotsMask : list (list bool)) (k r c : nat) :
  isSquare dotsMask -> 1 < k ->
  mapGet (buildConnectedComponents dotsMask true Conn8).2 k = Some (r, c) ->
  1 <= c /\ is_Some (readCell (buildConnectedComponents dotsMask false Conn4).1 r (c - 1)).
Proof.
  intros Hsq Hk Hget. apply result_ids in Hget as [Hread Hfirst].
  pose proof (result_inGrid _ _ _ _ _ _ Hread) as Hin.
  assert (ofPolarity dotsMask true r c) as Hp.
  { split; [done|]. intros Hm.
    apply (proj2 (result_null dotsMask true Conn8 r c Hin)) in Hm. congruence. }
  assert (1 <= c) as Hc.
  { destruct (decide (c = 0)) as [->|]; [|lia]. exfalso.
    destruct (border_label dotsMask true Conn8 r 0 eq_refl Hp) as [_ H1]; [by left|].
    rewrite H1 in Hread. injection Hread as <-. lia. }
  split; [done|]. apply result_labelled.
  assert (inGrid dotsMask r (c - 1)) as Hin' by (destruct Hin; split; [done|lia]).
  split; [done|]. intros Hm.
  assert (ofPolarity dotsMask true r (c - 1)) as Hp' by (split; [done|congruence]).
  apply (Hfirst r (c - 1)); [right; lia|].
  rewrite <- Hread. symmetry. apply result_neighbour; [done|done| |lia].
  left. split; [done|lia].
Qed.

(** Every hole is cut once.  On a square mask, every background component
    that the inverted pass registers with an id greater than 1 is a hole
    of exactly one foreground component, which is registered, so that its
    contour is appended to exactly one emitted path; the component with
    the id 1 (the outside) is a hole of none; and no foreground component
    lists a hole twice. *)
Theorem every_hole_is_cut_once (dotsMask : list (list bool))
    (entry : nat * (nat * nat)) :
  isSquare dotsMask ->
  entry ∈ (buildConnectedComponents dotsMask true Conn8).2 ->
  let components := (buildConnectedComponents dotsMask false Conn4).1 in
  let ids := (buildConnectedComponents dotsMask false Conn4).2 in
  let backgroundIds := (buildConnectedComponents dotsMask true Conn8).2 in
  (1 < entry.1 ->
     exists k, entry ∈ holesOf components backgroundIds k
               /\ is_Some (mapGet ids k)
               /\ forall k', entry ∈ holesOf components backgroundIds k' -> k' = k)
  /\ (entry.1 <= 1 -> forall k, entry ∉ holesOf components backgroundIds k)
  /\ (forall k, NoDup (holesOf components backgroundIds k).*1).
Proof.
  intros Hsq Hin components ids backgroundIds. subst components ids backgroundIds.
  split; [|split].
  - intros Hk. destruct entry as [id [r c]]. simpl in Hk.
    pose proof Hin as Hget. apply result_ids_elem in Hget.
    destruct (background_start_left dotsMask id r c Hsq Hk Hget) as [Hc [k Hread]].
    exists k. split; [|split].
    + apply (proj2 (holesOf_elem (fun _ => "") 0%Q dotsMask (id, (r, c)) k)).
      split; [exact Hin|]. simpl. split; [exact Hk|]. split; [lia|exact Hread].
    + by eapply result_ids_total.
    + intros k' Hk'.
      apply (proj1 (holesOf_elem (fun _ => "") 0%Q dotsMask (id, (r, c)) k')) in Hk' as (_ & _ & _ & Hread').
      simpl in Hread'. congruence.
  - intros Hle k Hk. apply (proj1 (holesOf_elem (fun _ => "") 0%Q dotsMask entry k)) in Hk as (_ & H1 & _). lia.
  - intros k. eapply sublist_NoDup; [apply result_ids_nodup|].
    apply fmap_sublist. unfold holesOf. apply sublist_filter.
Qed.

Lemma every_hole_is_cut_once_witness :
  let dotsMask := [[true; true; true]; [true; false; true]; [true; true; true]] in
  exists k, (2, (1, 1)) ∈ holesOf (buildConnectedComponents dotsMask false Conn4).1
                            (buildConnectedComponents dotsMask true Conn8).2 k
            /\ is_Some (mapGet (buildConnectedComponents dotsMask false Conn4).2 k)
            /\ forall k', (2, (1, 1)) ∈ holesOf (buildConnectedComponents dotsMask false Conn4).1
                                         (buildConnectedComponents dotsMask true Conn8).2 k'
                          -> k' = k.
Proof.
  intros dotsMask.
  refine (proj1 (every_hole_is_cut_once dotsMask (2, (1, 1)) _ _) _).
  - repeat constructor.
  - vm_compute. apply elem_of_cons. by left.
  - simpl. lia.
Defined.


(** * The main mask *)

Lemma maskOrFalse_outside (m : list (list bool)) (a b : Z) :
  Forall (fun row => length row = length m) m ->
  (a < 0 \/ b < 0 \/ Z.of_nat (length m) <= a \/ Z.of_nat (length m) <= b)%Z ->
  maskOrFalse m a b = false.
Proof.
  intros Hsq H. unfold maskOrFalse.
  case_bool_decide; [|done]. case_bool_decide; [|done]. simpl.
  destruct (m !! Z.to_nat a) as [row|] eqn:Hrow; [|done].
  assert (length row = length m) as Hlen by (by eapply (Forall_lookup_1 _ _ _ _ Hsq)).
  apply lookup_lt_Some in Hrow.
  rewrite lookup_ge_None_2; [done|]. lia.
Qed.

(** The two corner masks together hold the frame and the centre of a
    finder pattern. *)
Lemma finder_masks (a b : Z) :
  maskOrFalse squareMask a b || maskOrFalse dotMask a b = finderModule a b.
Proof.
  destruct (decide (0 <= a <= 6 /\ 0 <= b <= 6)%Z) as [[Ha Hb]|Hout].
  - assert (a = 0 \/ a = 1 \/ a = 2 \/ a = 3 \/ a = 4 \/ a = 5 \/ a = 6)%Z
      as [->|[->|[->|[->|[->|[->| ->]]]]]] by lia;
    assert (b = 0 \/ b = 1 \/ b = 2 \/ b = 3 \/ b = 4 \/ b = 5 \/ b = 6)%Z
      as [->|[->|[->|[->|[->|[->| ->]]]]]] by lia; reflexivity.
  - rewrite !maskOrFalse_outside; [|repeat constructor|simpl; lia|repeat constructor|simpl; lia].
    unfold finderModule. simpl. symmetry. apply andb_false_iff. left.
    apply andb_false_iff. rewrite !bool_decide_eq_false. lia.
Qed.

Section MainMask.
Variable isDark : Q -> Q -> bool.
Variable count : Z.
Variable hideBackgroundDots : bool.
Variable centerImageSize : ImageSizeResult.

Local Abbreviation filter :=
  (DotsMask.filter count hideBackgroundDots centerImageSize).
Local Abbreviation plainMask :=
  (DotsMask.plainMask isDark count hideBackgroundDots centerImageSize).
Local Abbreviation buildDotsMask :=
  (DotsMask.buildDotsMask isDark count hideBackgroundDots centerImageSize).

Lemma filter_spec (row col : Z) :
  filter row col
  = negb (hideBackgroundDots && underImage count centerImageSize row col)
    && negb (finderModule row col
             || finderModule (row - count + 7) col
             || finderModule row (col - count + 7)).
Proof.
  rewrite <- !finder_masks. unfold DotsMask.filter, underImage.
  destruct hideBackgroundDots; simpl;
    repeat match goal with
           | |- context [Qle_bool ?a ?b] => destruct (Qle_bool a b); simpl
           end;
    repeat match goal with
           | |- context [maskOrFalse ?m ?a ?b] => destruct (maskOrFalse m a b); simpl
           end; reflexivity.
Qed.

Lemma plainMask_shape :
  length plainMask = Z.to_nat count
  /\ Forall (fun row => length row = Z.to_nat count) plainMask.
Proof.
  unfold DotsMask.plainMask. split; [by rewrite length_fmap, length_seq|].
  apply Forall_fmap, Forall_forall. intros r _. simpl.
  by rewrite length_fmap, length_seq.
Qed.

Lemma plainMask_cell (r c : nat) :
  r < Z.to_nat count -> c < Z.to_nat count ->
  maskAt plainMask r c
  = isDark (inject_Z (Z.of_nat r)) (inject_Z (Z.of_nat c))
    && filter (Z.of_nat r) (Z.of_nat c).
Proof.
  intros Hr Hc. unfold maskAt, DotsMask.plainMask.
  rewrite list_lookup_fmap, lookup_seq_lt by done. simpl.
  by rewrite list_lookup_fmap, lookup_seq_lt.
Qed.

Lemma buildDotsMask_square shape roundSize (padding : Q) :
  isSquare (buildDotsMask shape roundSize padding).
Proof.
  unfold isSquare. destruct shape; simpl.
  - destruct plainMask_shape as [-> H]. done.
  - destruct (expandDotsMaskWithCircle_shape isDark roundSize plainMask count
                padding) as [-> H]. done.
Qed.

End MainMask.

(** The cells of the main mask.  For the square shape, [buildDotsMask]
    returns [count] rows of [count] cells, and a cell is dark exactly when
    the module of the code is dark, it is not under the image (when
    [hideBackgroundDots] is set), and it is not a module of the frame or
    of the centre of one of the three finder patterns, which stand in the
    top left, bottom left and top right corners. *)
Theorem main_mask_cells (isDark : Q -> Q -> bool) (count : Z)
    (hideBackgroundDots : bool) (centerImageSize : ImageSizeResult)
    (roundSize : bool) (padding : Q) (r c : nat) :
  (Z.of_nat r < count)%Z -> (Z.of_nat c < count)%Z ->
  let mask := DotsMask.buildDotsMask isDark count hideBackgroundDots centerImageSize
                shape_square roundSize padding in
  let row := Z.of_nat r in
  let col := Z.of_nat c in
  length mask = Z.to_nat count
  /\ rowLength mask r = Z.to_nat count
  /\ maskAt mask r c
     = isDark (inject_Z row) (inject_Z col)
       && negb (hideBackgroundDots && underImage count centerImageSize row col)
       && negb (finderModule row col
                || finderModule (row - count + 7) col
                || finderModule row (col - count + 7)).
Proof.
  intros Hr Hc mask row col. subst mask row col. simpl.
  destruct (plainMask_shape isDark count hideBackgroundDots centerImageSize) as [Hlen Hrows].
  split; [done|]. split.
  - unfold rowLength.
    destruct (lookup_lt_is_Some_2
                (DotsMask.plainMask isDark count hideBackgroundDots centerImageSize) r)
      as [x Hx]; [lia|].
    rewrite Hx. by eapply (Forall_lookup_1 _ _ _ _ Hrows).
  - rewrite plainMask_cell by lia. by rewrite filter_spec, andb_assoc.
Qed.

Lemma main_mask_cells_witness :
  let mask := DotsMask.buildDotsMask (fun _ _ => true) 21 true
                {| hideXDots := 5; hideYDots := 5 |} shape_square true 0 in
  maskAt mask 14 2 = false /\ maskAt mask 7 7 = true /\ maskAt mask 10 10 = false.
Proof.
  intros mask.
  pose proof (proj2 (proj2 (main_mask_cells (fun _ _ => true) 21 true
                              {| hideXDots := 5; hideYDots := 5 |} true 0 14 2
                              ltac:(lia) ltac:(lia)))) as H1.
  pose proof (proj2 (proj2 (main_mask_cells (fun _ _ => true) 21 true
                              {| hideXDots := 5; hideYDots := 5 |} true 0 7 7
                              ltac:(lia) ltac:(lia)))) as H2.
  pose proof (proj2 (proj2 (main_mask_cells (fun _ _ => true) 21 true
                              {| hideXDots := 5; hideYDots := 5 |} true 0 10 10
                              ltac:(lia) ltac:(lia)))) as H3.
  split; [exact H1|]. split; [exact H2|exact H3].
Defined.

(** Every mask that is labelled and traced is square: the main mask that
    [buildDotsMask] returns, for the square and for the circle shape and
    whatever the padding, and the two corner masks that [drawCorners]
    passes to [drawComponents].  The side of the main mask is [count] for
    the square shape, and [count + 2 * p] for the circle shape when the
    padding that [_roundSize] returns is an integer [p], as it is when
    [dotsOptions.roundSize] is set. *)
Theorem traced_masks_are_square (isDark : Q -> Q -> bool) (count : Z)
    (hideBackgroundDots : bool) (centerImageSize : ImageSizeResult)
    (shape : shapeType) (roundSize : bool) (padding : Q) :
  let mask := DotsMask.buildDotsMask isDark count hideBackgroundDots centerImageSize
                shape roundSize padding in
  isSquare mask
  /\ (shape = shape_square -> length mask = Z.to_nat count)
  /\ (forall p : Z, shape = shape_circle -> _roundSize roundSize padding = inject_Z p ->
                    length mask = Z.to_nat (count + p * 2))
  /\ isSquare squareMask /\ isSquare dotMask.
Proof.
  intros mask. subst mask.
  split; [apply buildDotsMask_square|]. split; [|split].
  - intros ->. simpl.
    by destruct (plainMask_shape isDark count hideBackgroundDots centerImageSize).
  - intros p -> Hp. simpl.
    destruct (expandDotsMaskWithCircle_shape isDark roundSize
                (DotsMask.plainMask isDark count hideBackgroundDots centerImageSize)
                count padding) as [-> _].
    by rewrite Hp, Qceiling_fakeCount.
  - split; repeat constructor.
Qed.

Example circle_mask_of_21_modules :
  let mask roundSize :=
    DotsMask.buildDotsMask (fun _ _ => true) 21 false {| hideXDots := 0; hideYDots := 0 |}
      shape_circle roundSize (2448405809266301 # 562949953421312) in
  length (mask true) = 29 /\ length (mask false) = 30.
Proof. by vm_compute. Qed.


(** * Further properties of the circle padding *)

Lemma sampleIndex_range (count additionalDots x : Z) :
  (0 <= additionalDots)%Z -> (2 * additionalDots <= count)%Z ->
  (0 <= x < count + additionalDots * 2)%Z ->
  (0 <= sampleIndex count additionalDots x < count)%Z.
Proof.
  intros Hp H2p Hx. unfold sampleIndex. repeat case_bool_decide; lia.
Qed.

(** The number that the code passes to [isDark] for a position [x] of
    the padding, when the padding is the integer [p]. *)
Lemma sample_Z (count p x : Z) :
  (if negb (Qle_bool 0 (inject_Z x - 2 * inject_Z p)) then inject_Z x
   else if bool_decide (count <= x)%Z then (inject_Z x - 2 * inject_Z p)%Q
   else (inject_Z x - inject_Z p)%Q)
  = inject_Z (sampleIndex count p x).
Proof.
  rewrite inject_Z_sub_twice, inject_Z_sub.
  change 0%Q with (inject_Z 0). rewrite Qle_bool_Z. unfold sampleIndex.
  repeat case_bool_decide; simpl; (done || lia).
Qed.

Lemma band_Z (count p x : Z) :
  Qle_bool (inject_Z p - 1) (inject_Z x)
  && Qle_bool (inject_Z x) (inject_Z count + inject_Z p * 2 - inject_Z p)
  = inBand count p x.
Proof.
  unfold inBand. f_equal.
  - change 1%Q with (inject_Z 1). by rewrite inject_Z_sub, Qle_bool_Z.
  - rewrite <- Qle_bool_Z. apply Qle_bool_ext; [done|].
    change 2%Q with (inject_Z 2).
    by rewrite <- inject_Z_mult, <- inject_Z_plus, inject_Z_sub.
Qed.

Lemma expandedCell_cases isDark roundSize dotsMask (count p row col : Z) :
  expandedCell isDark roundSize dotsMask count (inject_Z p) row col
  = if inBand count p row && inBand count p col
    then maskOrFalse dotsMask (row - p) (col - p)
    else
      let center := _roundSize roundSize ((inject_Z count + inject_Z p * 2) / 2) in
      if sqrtExceeds ((inject_Z row - center) * (inject_Z row - center)
                      + (inject_Z col - center) * (inject_Z col - center)) center
      then false
      else isDark (inject_Z (sampleIndex count p col))
                  (inject_Z (sampleIndex count p row)).
Proof.
  unfold expandedCell. rewrite <- andb_assoc.
  rewrite (band_Z count p col), (band_Z count p row).
  rewrite !sample_Z.
  rewrite (maskOrFalseAt_Z dotsMask _ _ (row - p) (col - p)) by (by rewrite inject_Z_sub).
  reflexivity.
Qed.

(** The padding samples the code inside its bounds.  When the padding
    that [_roundSize] returns is an integer [p] (as it is when
    [dotsOptions.roundSize] is set) that is not negative and at most half
    the module count, every call of [isDark] that
    [expandDotsMaskWithCircle] makes is on two integers that are at least
    0 and less than [count]: a cell outside the copied band is [false] or
    the value of [isDark] on such a pair, and the result is the same for
    two codes that agree on these. *)
Theorem padding_samples_in_range (isDark isDark' : Q -> Q -> bool) (roundSize : bool)
    (dotsMask : list (list bool)) (count : Z) (padding : Q) (p : Z) :
  _roundSize roundSize padding = inject_Z p ->
  (0 <= p)%Z -> (2 * p <= count)%Z ->
  (forall row col, (0 <= row < count + p * 2)%Z -> (0 <= col < count + p * 2)%Z ->
     inBand count p row && inBand count p col = false ->
     exists a b, (0 <= a < count)%Z /\ (0 <= b < count)%Z
       /\ (expandedCell isDark roundSize dotsMask count (inject_Z p) row col = false
           \/ expandedCell isDark roundSize dotsMask count (inject_Z p) row col
              = isDark (inject_Z a) (inject_Z b)))
  /\ ((forall a b, (0 <= a < count)%Z -> (0 <= b < count)%Z ->
                   isDark (inject_Z a) (inject_Z b) = isDark' (inject_Z a) (inject_Z b)) ->
      expandDotsMaskWithCircle isDark roundSize dotsMask count padding
      = expandDotsMaskWithCircle isDark' roundSize dotsMask count padding).
Proof.
  intros Hpad Hp H2p. split.
  - intros row col Hrow Hcol Hband.
    exists (sampleIndex count p col), (sampleIndex count p row).
    split; [apply sampleIndex_range; lia|]. split; [apply sampleIndex_range; lia|].
    rewrite expandedCell_cases, Hband. simpl. destruct (sqrtExceeds _ _); [by left|by right].
  - intros Hagree. unfold expandDotsMaskWithCircle. rewrite Hpad, Qceiling_fakeCount.
    apply list_fmap_ext. intros i row Hrow. apply lookup_seq in Hrow as [-> Hi].
    apply list_fmap_ext. intros j col Hcol. apply lookup_seq in Hcol as [-> Hj].
    simpl. rewrite !expandedCell_cases.
    destruct (inBand count p (Z.of_nat i) && inBand count p (Z.of_nat j)); [done|].
    simpl. destruct (sqrtExceeds _ _); [done|].
    apply Hagree; apply sampleIndex_range; lia.
Qed.

Lemma padding_samples_in_range_witness :
  expandDotsMaskWithCircle
    (fun a b => bool_decide (Qnum a < 4)%Z) true
    [[true; false; true; true]; [false; true; true; true];
     [true; true; false; true]; [true; true; true; false]] 4 (5 # 2)
  = expandDotsMaskWithCircle (fun _ _ => true) true
      [[true; false; true; true]; [false; true; true; true];
       [true; true; false; true]; [true; true; true; false]] 4 (5 # 2).
Proof.
  apply (proj2 (padding_samples_in_range (fun a b => bool_decide (Qnum a < 4)%Z)
                  (fun _ _ => true) true
                  [[true; false; true; true]; [false; true; true; true];
                   [true; true; false; true]; [true; true; true; false]] 4 (5 # 2) 2
                  eq_refl ltac:(lia) ltac:(lia))).
  intros a b Ha Hb. simpl. apply bool_decide_eq_true. lia.
Defined.

(** With a larger padding the code is read outside its bounds: here
    [count] is 3 and the padding 2, and the cell in row 0, column 3 is the
    value of [isDark(3, 0)]. *)
Example padding_sample_out_of_range :
  sampleIndex 3 2 3 = 3%Z
  /\ expandDotsMaskWithCircle (fun a b => Qeq_bool a 3) true
       [[false; false; false]; [false; false; false]; [false; false; false]] 3 2
     !! 0 ≫= (.!! 3) = Some true
  /\ expandDotsMaskWithCircle (fun a b => false) true
       [[false; false; false]; [false; false; false]; [false; false; false]] 3 2
     !! 0 ≫= (.!! 3) = Some false.
Proof. by vm_compute. Qed.

(** The quiet ring.  When the padding that [_roundSize] returns is an
    integer [p] of at least 1 (as it is an integer when
    [dotsOptions.roundSize] is set), then around the footprint of the code
    in the expanded mask the positions at a distance of one module (the
    row or the column just before or just after the footprint, the other
    coordinate within or next to it) are light, whatever the code and the
    mask hold. *)
Theorem quiet_ring_is_light (isDark : Q -> Q -> bool) (roundSize : bool)
    (dotsMask : list (list bool)) (count : Z) (padding : Q) (p : Z) (row col : nat) :
  _roundSize roundSize padding = inject_Z p ->
  length dotsMask = Z.to_nat count ->
  Forall (fun r => length r = Z.to_nat count) dotsMask ->
  (0 <= count)%Z -> (1 <= p)%Z ->
  (p - 1 <= Z.of_nat row <= count + p)%Z ->
  (p - 1 <= Z.of_nat col <= count + p)%Z ->
  (Z.of_nat row = p - 1 \/ Z.of_nat row = count + p
   \/ Z.of_nat col = p - 1 \/ Z.of_nat col = count + p)%Z ->
  expandDotsMaskWithCircle isDark roundSize dotsMask count padding !! row
    ≫= (.!! col) = Some false.
Proof.
  intros Hpad Hlen Hrows Hcount Hp Hrow Hcol Hring.
  pose proof (expandDotsMaskWithCircle_lookup isDark roundSize dotsMask count padding
                row col) as Hlookup.
  simpl in Hlookup. rewrite Hpad, Qceiling_fakeCount in Hlookup.
  rewrite Hlookup by lia. f_equal.
  rewrite expandedCell_copy by lia.
  apply maskOrFalse_outside.
  - by rewrite Hlen.
  - rewrite Hlen. lia.
Qed.

Lemma quiet_ring_is_light_witness :
  expandDotsMaskWithCircle (fun _ _ => true) true [[true; true]; [true; true]] 2 (5 # 2) !! 1
    ≫= (.!! 2) = Some false.
Proof.
  apply (quiet_ring_is_light (fun _ _ => true) true [[true; true]; [true; true]] 2 (5 # 2)
           2 1 2);
    [reflexivity|reflexivity|repeat constructor|lia|lia|lia|lia|lia].
Defined.

Example padded_block :
  expandDotsMaskWithCircle (fun _ _ => true) true [[true; true]; [true; true]] 2 2
  = [[false; false; false; true; false; false];
     [false; false; false; false; false; true];
     [false; false; true; true; false; true];
     [true; false; true; true; false; true];
     [false; false; false; false; false; true];
     [false; true; true; true; true; true]].
Proof. by vm_compute. Qed.


(** * The single dots *)

Lemma foldl_append_bind {A B} (f : A -> list B) (l : list A) (acc : list B) :
  foldl (fun acc x => acc ++ f x) acc l = acc ++ (l ≫= f).
Proof.
  revert acc. induction l as [|x l IH]; intros acc; simpl.
  - by rewrite app_nil_r.
  - by rewrite IH, app_assoc.
Qed.

Lemma fmap_over_bind {A B C} (f : B -> C) (g : A -> list B) (l : list A) :
  f <$> (l ≫= g) = l ≫= (fun x => f <$> g x).
Proof.
  induction l as [|x l IH]; [done|]. cbn. by rewrite fmap_app, IH.
Qed.

Lemma foldl_ext_in {A B} (f g : B -> A -> B) (l : list A) (b : B) :
  (forall acc x, f acc x = g acc x) -> foldl f b l = foldl g b l.
Proof. intros H. revert b. induction l as [|x l IH]; intros b; [done|]. simpl. by rewrite H, IH. Qed.

Lemma drawSingleDots_eq (str : Q -> string) (dotSize : Q)
    (dotsMask : list (list bool)) (offset : Q * Q) (fillColor : string) :
  drawSingleDots str dotSize dotsMask offset fillColor
  = (fun cell : nat * nat =>
       Element "circle"
         [("cx", str (offset.1 + inject_Z (Z.of_nat cell.2) * dotSize + dotSize / 2)%Q);
          ("cy", str (offset.2 + inject_Z (Z.of_nat cell.1) * dotSize + dotSize / 2)%Q);
          ("r", str (dotSize / 2)%Q);
          ("fill", fillColor)])
    <$> darkCells dotsMask.
Proof.
  set (circle := fun cell : nat * nat => Element "circle" _).
  unfold drawSingleDots, darkCells.
  rewrite (foldl_ext_in _ (fun children row =>
             children ++ (seq 0 (rowLength dotsMask row) ≫=
                            (fun col => if maskAt dotsMask row col
                                        then [circle (row, col)] else [])))).
  - rewrite foldl_append_bind. simpl.
    rewrite fmap_over_bind. apply list_bind_ext; [|done]. intros r.
    rewrite fmap_over_bind. apply list_bind_ext; [|done]. intros c.
    by destruct (maskAt dotsMask r c).
  - intros acc row.
    rewrite (foldl_ext_in _ (fun children col =>
               children ++ (if maskAt dotsMask row col
                            then [circle (row, col)] else []))).
    + apply foldl_append_bind.
    + intros acc' col. unfold drawSingleDot.
      destruct (maskAt dotsMask row col); [done|by rewrite app_nil_r].
Qed.

(** One circle for every dark cell.  [drawSingleDots] appends, in raster
    order, one [circle] for every cell of the mask that holds [true] and
    nothing else: its centre is the centre of the cell in the grid of
    [dotSize] laid from [offset], its radius half of [dotSize], and its
    fill the given colour. *)
Theorem drawSingleDots_draws_dark_cells (str : Q -> string) (dotSize : Q)
    (dotsMask : list (list bool)) (offset : Q * Q) (fillColor : string) :
  drawSingleDots str dotSize dotsMask offset fillColor
  = (fun cell : nat * nat =>
       Element "circle"
         [("cx", str (offset.1 + inject_Z (Z.of_nat cell.2) * dotSize + dotSize / 2)%Q);
          ("cy", str (offset.2 + inject_Z (Z.of_nat cell.1) * dotSize + dotSize / 2)%Q);
          ("r", str (dotSize / 2)%Q);
          ("fill", fillColor)])
    <$> darkCells dotsMask
  /\ length (drawSingleDots str dotSize dotsMask offset fillColor)
     = length (darkCells dotsMask)
  /\ (forall r c, (r, c) ∈ darkCells dotsMask
                  <-> inGrid dotsMask r c /\ maskAt dotsMask r c = true).
Proof.
  split; [apply drawSingleDots_eq|].
  split; [by rewrite drawSingleDots_eq, length_fmap|].
  intros r c. unfold darkCells, inGrid.
  rewrite list_elem_of_bind. split.
  - intros (r' & Hc & Hr). apply elem_of_seq in Hr.
    apply list_elem_of_bind in Hc as (c' & Hcell & Hc). apply elem_of_seq in Hc.
    destruct (maskAt dotsMask r' c') eqn:Hm; [|by apply elem_of_nil in Hcell].
    apply list_elem_of_singleton in Hcell as [= -> ->]. split; [lia|done].
  - intros [[Hr Hc] Hm]. exists r. split; [|apply elem_of_seq; lia].
    apply list_elem_of_bind. exists c. split; [|apply elem_of_seq; lia].
    rewrite Hm. by apply list_elem_of_singleton.
Qed.

Example single_dots_of_a_diagonal :
  drawSingleDots showNumber 4 [[true; false]; [false; true]] (10, 20)%Q "#000"
  = [Element "circle" [("cx", "12"); ("cy", "22"); ("r", "2"); ("fill", "#000")];
     Element "circle" [("cx", "16"); ("cy", "26"); ("r", "2"); ("fill", "#000")]].
Proof. by vm_compute. Qed.


(** * The layers *)

Lemma renderWalk_mono str dotSize componentId components offset (start : Z * Z)
    drawer moveRight fuel fuel' st :
  fuel <= fuel' ->
  renderWalk str dotSize fuel componentId components offset start drawer moveRight
    = Some st ->
  renderWalk str dotSize fuel' componentId components offset start drawer moveRight
    = Some st.
Proof. intros Hle. unfold renderWalk. by apply walkLoop_mono. Qed.

(** The main layer is drawn.  For the mask that [buildDotsMask] returns
    (square or circle shape) and whatever the offset, [drawMainComponents]
    returns, given a bound on the iterations of a walk above eight times
    the number of cells: for the type ["dots"] one [circle] per dark cell
    of the mask, and for every other type one [path] with the fill rule
    [evenodd] per foreground component; every element has the fill that
    [createFillColor] returned, or ["#000"] when it returned none. *)
Theorem main_layer_is_drawn (str : Q -> string) (dotSize : Q) (isDark : Q -> Q -> bool)
    (count : Z) (hideBackgroundDots : bool) (centerImageSize : ImageSizeResult)
    (shape : shapeType) (roundSize : bool) (padding : Q) (type : dotType)
    (fill : option string) (offset : Q * Q) (fuel : nat) :
  let dotsMask := DotsMask.buildDotsMask isDark count hideBackgroundDots centerImageSize
                    shape roundSize padding in
  8 * length (gridCells (buildConnectedComponents dotsMask false Conn4).1) < fuel ->
  exists elements,
    drawMainComponents str dotSize fuel type fill offset dotsMask = Some elements
    /\ match type with
       | type_dots =>
           length elements = length (darkCells dotsMask)
           /\ Forall (fun e => tagName e = "circle") elements
       | type_style s =>
           length elements = length (buildConnectedComponents dotsMask false Conn4).2
           /\ Forall (fun e => tagName e = "path"
                               /\ ("fill-rule", "evenodd") ∈ attributes e) elements
       end
    /\ Forall (fun e => ("fill", default "#000" fill) ∈ attributes e) elements.
Proof.
  intros dotsMask Hfuel. unfold drawMainComponents. destruct type as [|s].
  - eexists. split; [reflexivity|]. rewrite drawSingleDots_eq. split; [split|].
    + by rewrite length_fmap.
    + apply Forall_fmap, Forall_forall. done.
    + apply Forall_fmap, Forall_forall. intros cell _.
      cbn. rewrite !elem_of_cons. eauto 10.
  - unfold drawComponentsElements.
    pose proof (buildDotsMask_square isDark count hideBackgroundDots centerImageSize
                  shape roundSize padding) as Hsq.
    fold dotsMask in Hsq.
    destruct (drawComponents_total str dotSize dotsMask offset (drawerFactory s dotSize)
                Hsq fuel Hfuel) as [paths Hp].
    rewrite Hp. eexists. split; [reflexivity|]. split; [split|].
    + rewrite length_fmap, <- (length_fmap fst paths).
      rewrite (drawComponents_keys str dotSize dotsMask _ _ fuel paths Hp).
      by rewrite length_fmap.
    + apply Forall_fmap, Forall_forall. intros p _. cbn. split; [done|].
      rewrite !elem_of_cons. eauto 10.
    + apply Forall_fmap, Forall_forall. intros p _. cbn.
      rewrite !elem_of_cons. eauto 10.
Qed.

Lemma main_layer_is_drawn_witness :
  exists elements,
    drawMainComponents showNumber 4 200 (type_style rounded) None (4, 4)%Q
      (DotsMask.buildDotsMask (fun a b => Qeq_bool a b) 3 false
         {| hideXDots := 0; hideYDots := 0 |} shape_square true 0)
    = Some elements
    /\ Forall (fun e => ("fill", "#000") ∈ attributes e) elements.
Proof.
  pose proof (main_layer_is_drawn showNumber 4 (fun a b => Qeq_bool a b) 3 false
                {| hideXDots := 0; hideYDots := 0 |} shape_square true 0
                (type_style rounded) None (4, 4)%Q 200) as H.
  assert (8 * length (gridCells (buildConnectedComponents
                                   (DotsMask.buildDotsMask (fun a b => Qeq_bool a b) 3 false
                                      {| hideXDots := 0; hideYDots := 0 |}
                                      shape_square true 0) false Conn4).1) < 200) as Hfuel
    by (vm_compute; lia).
  destruct (H Hfuel) as (elements & H1 & _ & H2).
  exists elements. split; [exact H1|exact H2].
Defined.

(** The finder patterns.  With any drawer, [drawComponents] renders the
    corner square [squareMask] as one path of two contours, the outline of
    the frame, walked down, right, up and left by six moves each, and the
    outline of its hole, walked right, down, left and up by six moves
    each; and the corner dot [dotMask] as one path of one contour of eight
    moves.  Every bound above 24 on the iterations of a walk gives this
    result. *)
Theorem finder_patterns_are_single_paths (str : Q -> string) (dotSize : Q)
    (offset : Q * Q) (drawer : drawer) (fuel : nat) :
  24 < fuel ->
  let frame := (buildConnectedComponents squareMask false Conn4).1 in
  let block := (buildConnectedComponents dotMask false Conn4).1 in
  exists outer inner dot,
    renderWalk str dotSize fuel 2 frame offset (0, 0)%Z drawer false = Some outer
    /\ moves outer
       = replicate 6 Bottom ++ replicate 6 Right ++ replicate 6 Top ++ replicate 6 Left
    /\ renderWalk str dotSize fuel 2 frame offset (0, 0)%Z drawer true = Some inner
    /\ moves inner
       = replicate 6 Right ++ replicate 6 Bottom ++ replicate 6 Left ++ replicate 6 Top
    /\ drawComponents str dotSize fuel squareMask offset drawer
       = Some [(2, path outer +:+ path inner)]
    /\ renderWalk str dotSize fuel 2 block offset (2, 2)%Z drawer false = Some dot
    /\ moves dot = [Bottom; Bottom; Right; Right; Top; Top; Left; Left]
    /\ drawComponents str dotSize fuel dotMask offset drawer = Some [(2, path dot)].
Proof.
  intros Hfuel frame block.
  assert (moves <$> renderWalk str dotSize 25 2 frame offset (0, 0)%Z drawer false
          = Some (replicate 6 Bottom ++ replicate 6 Right
                  ++ replicate 6 Top ++ replicate 6 Left)) as Hm1
    by (vm_compute; reflexivity).
  assert (moves <$> renderWalk str dotSize 25 2 frame offset (0, 0)%Z drawer true
          = Some (replicate 6 Right ++ replicate 6 Bottom
                  ++ replicate 6 Left ++ replicate 6 Top)) as Hm2
    by (vm_compute; reflexivity).
  assert (moves <$> renderWalk str dotSize 25 2 block offset (2, 2)%Z drawer false
          = Some [Bottom; Bottom; Right; Right; Top; Top; Left; Left]) as Hm3
    by (vm_compute; reflexivity).
  apply fmap_Some in Hm1 as (outer & Houter & Hm1).
  apply fmap_Some in Hm2 as (inner & Hinner & Hm2).
  apply fmap_Some in Hm3 as (dot & Hdot & Hm3).
  apply (renderWalk_mono _ _ _ _ _ _ _ _ 25 fuel) in Houter; [|lia].
  apply (renderWalk_mono _ _ _ _ _ _ _ _ 25 fuel) in Hinner; [|lia].
  apply (renderWalk_mono _ _ _ _ _ _ _ _ 25 fuel) in Hdot; [|lia].
  exists outer, inner, dot.
  split; [done|]. split; [done|]. split; [done|]. split; [done|].
  split; [|split; [done|split; [done|]]].
  - rewrite drawComponents_spec.
    assert ((buildConnectedComponents squareMask false Conn4).2 = [(2, (0, 0))]) as ->
      by (by vm_compute).
    assert (holesOf (buildConnectedComponents squareMask false Conn4).1
              (buildConnectedComponents squareMask true Conn8).2 2 = [(2, (1, 1))]) as Hholes
      by (by vm_compute).
    cbn [mapM]. cbn [fst snd]. rewrite Hholes. cbn [mapM fst snd].
    unfold renderComponentToPath. fold frame.
    change (Z.of_nat 0, Z.of_nat 0) with (0, 0)%Z.
    change (upLeftOf (1, 1)) with (0, 0)%Z.
    rewrite Houter, Hinner. reflexivity.
  - rewrite drawComponents_spec.
    assert ((buildConnectedComponents dotMask false Conn4).2 = [(2, (2, 2))]) as ->
      by (by vm_compute).
    assert (holesOf (buildConnectedComponents dotMask false Conn4).1
              (buildConnectedComponents dotMask true Conn8).2 2 = []) as Hholes
      by (by vm_compute).
    cbn [mapM]. cbn [fst snd]. rewrite Hholes. cbn [mapM fst snd].
    unfold renderComponentToPath. fold block.
    change (Z.of_nat 2, Z.of_nat 2) with (2, 2)%Z.
    rewrite Hdot. cbn. by rewrite string_app_empty_r.
Qed.

Lemma finder_patterns_are_single_paths_witness :
  drawComponents showNumber 4 40 dotMask (0, 0)%Q (drawerFactory square 4)
  = Some [(2, "M 8 8 m 4 0h -4v 4v 4v 4h 4h 4h 4v -4v -4v -4h -4h -4")].
Proof.
  destruct (finder_patterns_are_single_paths showNumber 4 (0, 0)%Q (drawerFactory square 4)
              40 ltac:(lia)) as (outer & inner & dot & _ & _ & _ & _ & _ & Hdot & _ & H).
  rewrite H. f_equal. f_equal. f_equal.
  assert (Some dot = Some (WalkState "M 8 8 m 4 0h -4v 4v 4v 4h 4h 4h 4v -4v -4v -4h -4h -4"
                             Right (2, 2)%Z
                             [Bottom; Bottom; Right; Right; Top; Top; Left; Left])) as E
    by (rewrite <- Hdot; reflexivity).
  by injection E as ->.
Defined.
